(** * Dungeon generator (src/App.tsx): shallow embedding and verification

    The generation core of the program is embedded function by function:
    [randInt], [createGrid], [inBounds], [roomsOverlap], [placeRooms],
    [carveCorridor], [carveLineH], [carveLineV],
    [connectRoomsWithCorridors] and [generateDungeon]; of the component
    [App], the list of cell elements it renders from a grid.

    Modelling conventions.
    - A JavaScript number that holds an integer is a [Z]; the value of
      [Math.random()] is a rational [Q] in [0, 1) (the program only
      multiplies it by a small integer, floors it, or compares it with
      one half); the rounding of the product to a double is not
      modelled, see [randInt].
    - The implicit global random generator is a sequence [rnd : nat -> Q]
      read at an explicit position which every draw advances by one.
    - A [Tile[][]] is a list of rows; a row is a list of slots, a slot
      being [Some t] for a stored tile and [None] for an array hole.
      The grid object is mutated in place by the program; here every
      function takes the grid and returns the new one.
    - A function that can throw returns a [result]; a [while] loop is a
      fixpoint over a fuel argument and reports [OutOfFuel] when the fuel
      does not suffice. *)

From Stdlib Require Import QArith Qround ZArith Lia Ascii String.
From stdpp Require Import base numbers list strings pretty.

Local Open Scope Z_scope.

(** ** Constants *)

Definition WIDTH : Z := 64.
Definition HEIGHT : Z := 64.

Definition ROOM_W_MIN : Z := 4.
Definition ROOM_W_MAX : Z := 12.
Definition ROOM_H_MIN : Z := 2.
Definition ROOM_H_MAX : Z := 10.

(** The literal [200] of the loop guard of [placeRooms]. *)
Definition ATTEMPT_CAP : Z := 200.

(** ** Data *)

Inductive Tile : Type := WALL | FLOOR.

#[global] Instance Tile_eq_dec : EqDecision Tile.
Proof. solve_decision. Defined.

Module Room.
Record t : Type := mk { x : Z; y : Z; w : Z; h : Z }.
End Room.

Module Point.
Record t : Type := mk { x : Z; y : Z }.
End Point.

#[global] Instance Point_eq_dec : EqDecision Point.t.
Proof. solve_decision. Defined.

#[global] Instance Room_eq_dec : EqDecision Room.t.
Proof. solve_decision. Defined.

Abbreviation Row := (list (option Tile)).
Abbreviation Grid := (list (list (option Tile))).

(** ** Outcomes of a call *)

Inductive result (A : Type) : Type :=
| Ok (a : A)
| TypeError
| OutOfFuel.

Arguments Ok {A} a.
Arguments TypeError {A}.
Arguments OutOfFuel {A}.

#[global] Instance result_bind : MBind result := fun A B k m =>
  match m with
  | Ok a => k a
  | TypeError => TypeError
  | OutOfFuel => OutOfFuel
  end.

#[global] Instance result_ret : MRet result := fun A a => Ok a.

(** ** Arrays *)

(** [l[i]] for an integer index: [None] stands for [undefined]. *)
Definition get {A : Type} (l : list A) (i : Z) : option A :=
  if i <? 0 then None else l !! Z.to_nat i.

(** [row[x]] as a read: a hole and a missing slot both read as
    [undefined]. *)
Definition slot (row : Row) (x : Z) : option Tile :=
  match get row x with
  | Some s => s
  | None => None
  end.

(** [grid[y][x]] as a read, [undefined] as well when the row is
    missing. *)
Definition cell (g : Grid) (x y : Z) : option Tile :=
  match get g y with
  | Some row => slot row x
  | None => None
  end.

(** [row[x] = t]. Inside the row the slot is overwritten; past its end
    JavaScript grows the array, leaving holes in between; a negative
    [x] only sets a property and changes no slot. *)
Definition row_write (row : Row) (x : Z) (t : Tile) : Row :=
  if x <? 0 then row
  else
    let i := Z.to_nat x in
    if (i <? length row)%nat then <[i := Some t]> row
    else row ++ replicate (i - length row)%nat None ++ [Some t].

(** [grid[y][x] = t]. When [grid[y]] is [undefined] the assignment
    throws a TypeError. *)
Definition grid_write (g : Grid) (x y : Z) (t : Tile) : result Grid :=
  match get g y with
  | Some row => Ok (<[Z.to_nat y := row_write row x t]> g)
  | None => TypeError
  end.

(** ** Loops *)

(** [n] iterations of a counting loop whose counter starts at [i]. *)
Fixpoint for_iter {S : Type} (n : nat) (i : Z)
    (body : Z -> S -> result S) (s : S) : result S :=
  match n with
  | O => Ok s
  | Datatypes.S n' => s' ← body i s; for_iter n' (i + 1) body s'
  end.

(** [for (let i = lo; i < hi; i++) body] *)
Definition for_lt {S : Type} (lo hi : Z)
    (body : Z -> S -> result S) (s : S) : result S :=
  for_iter (Z.to_nat (hi - lo)) lo body s.

(** [for (let i = lo; i <= hi; i++) body] *)
Definition for_le {S : Type} (lo hi : Z)
    (body : Z -> S -> result S) (s : S) : result S :=
  for_iter (Z.to_nat (hi + 1 - lo)) lo body s.

(** ** The functions of the program *)

(** [Math.floor(r * (max - min + 1)) + min] for the draw [r]. The
    product is the one of the rationals. The program rounds it to the
    nearest binary64 value, which for a draw just below the limit
    between two results can give the higher of the two; the result is
    from [min] to [max] either way. The statements on the program
    below rest on these bounds; where a draw is given, as in the sample
    runs, its product is far from such a limit. *)
Definition randInt (r : Q) (min max : Z) : Z :=
  Qfloor (r * inject_Z (max - min + 1)) + min.

Definition createGrid (w h : Z) (fill : Tile) : Grid :=
  replicate (Z.to_nat h) (replicate (Z.to_nat w) (Some fill)).

Definition inBounds (x y : Z) : bool :=
  (x >=? 0) && (y >=? 0) && (x <? WIDTH) && (y <? HEIGHT).

Definition roomsOverlap (a b : Room.t) : bool :=
  negb ((Room.x a + Room.w a + 1 <=? Room.x b)
        || (Room.x b + Room.w b + 1 <=? Room.x a)
        || (Room.y a + Room.h a + 1 <=? Room.y b)
        || (Room.y b + Room.h b + 1 <=? Room.y a)).

(** *** placeRooms *)

(** The variables of [placeRooms] that its loop updates, with the grid
    it mutates and the position in the random sequence. *)
Record PlaceState : Type := mkPlace {
  pl_grid : Grid;
  pl_rooms : list Room.t;
  pl_attempts : Z;
  pl_pos : nat
}.

(** The two nested loops that carve an accepted room. *)
Definition carveRoom (g : Grid) (x y w h : Z) : result Grid :=
  for_lt y (y + h)
    (fun yy g1 => for_lt x (x + w) (fun xx g2 => grid_write g2 xx yy FLOOR) g1)
    g.

Definition placeRooms_cond (roomCount : Z) (st : PlaceState) : bool :=
  (Z.of_nat (length (pl_rooms st)) <? roomCount)
  && (pl_attempts st <? ATTEMPT_CAP).

Definition placeRooms_body (rnd : nat -> Q) (st : PlaceState)
    : result PlaceState :=
  let attempts := pl_attempts st + 1 in
  let p := pl_pos st in
  let w := randInt (rnd p) ROOM_W_MIN ROOM_W_MAX in
  let h := randInt (rnd (p + 1)%nat) ROOM_H_MIN ROOM_H_MAX in
  let x := randInt (rnd (p + 2)%nat) 2 (WIDTH - w - 3) in
  let y := randInt (rnd (p + 3)%nat) 2 (HEIGHT - h - 3) in
  let candidate := Room.mk x y w h in
  if existsb (fun r => roomsOverlap r candidate) (pl_rooms st) then
    Ok (mkPlace (pl_grid st) (pl_rooms st) attempts (p + 4)%nat)
  else
    g ← carveRoom (pl_grid st) x y w h;
    Ok (mkPlace g (pl_rooms st ++ [candidate]) attempts (p + 4)%nat).

Fixpoint placeRooms_loop (fuel : nat) (rnd : nat -> Q) (roomCount : Z)
    (st : PlaceState) : result PlaceState :=
  if placeRooms_cond roomCount st then
    match fuel with
    | O => OutOfFuel
    | S fuel' =>
        st' ← placeRooms_body rnd st;
        placeRooms_loop fuel' rnd roomCount st'
    end
  else Ok st.

Definition placeRooms_from (fuel : nat) (rnd : nat -> Q) (p : nat)
    (grid : Grid) (roomCount : Z) : result PlaceState :=
  placeRooms_loop fuel rnd roomCount (mkPlace grid [] 0 p).

(** [placeRooms(grid, roomCount)]: the rooms, with the mutated grid and
    the new position in the random sequence. *)
Definition placeRooms (rnd : nat -> Q) (p : nat) (grid : Grid)
    (roomCount : Z) : result (list Room.t * Grid * nat) :=
  st ← placeRooms_from (Z.to_nat ATTEMPT_CAP) rnd p grid roomCount;
  Ok (pl_rooms st, pl_grid st, pl_pos st).

(** *** Corridors *)

(** The two line functions, over the assignment [grid[y][x] = t] they
    use. The program's are [carveLineH] and [carveLineV] below. *)
Section Lines.
Variable write : Grid -> Z -> Z -> Tile -> result Grid.

Definition carveLineH_with (g : Grid) (x1 x2 y : Z) : result Grid :=
  let '(lo, hi) := if x1 <=? x2 then (x1, x2) else (x2, x1) in
  for_le lo hi
    (fun x g1 => if inBounds x y then write g1 x y FLOOR else Ok g1) g.

Definition carveLineV_with (g : Grid) (y1 y2 x : Z) : result Grid :=
  let '(lo, hi) := if y1 <=? y2 then (y1, y2) else (y2, y1) in
  for_le lo hi
    (fun y g1 => if inBounds x y then write g1 x y FLOOR else Ok g1) g.
End Lines.

Definition carveLineH : Grid -> Z -> Z -> Z -> result Grid :=
  carveLineH_with grid_write.

Definition carveLineV : Grid -> Z -> Z -> Z -> result Grid :=
  carveLineV_with grid_write.


(** [Math.random() < 0.5] for the draw [r]. *)
Definition lessThanHalf (r : Q) : bool :=
  if Qlt_le_dec r (1 # 2) then true else false.

(** [carveCorridor(grid, x1, y1, x2, y2)], [r] being the value its call
    of [Math.random()] returns. *)
Definition carveCorridor (g : Grid) (r : Q) (x1 y1 x2 y2 : Z) : result Grid :=
  let firstHorizontal := lessThanHalf r in
  if firstHorizontal then
    g1 ← carveLineH g x1 x2 y1;
    carveLineV g1 y1 y2 x2
  else
    g1 ← carveLineV g y1 y2 x1;
    carveLineH g1 x1 x2 y2.

(** *** connectRoomsWithCorridors *)

(** [Math.floor(r.x + r.w / 2)] and [Math.floor(r.y + r.h / 2)]: the
    division is the real one. *)
Definition center (r : Room.t) : Point.t :=
  Point.mk (Qfloor (inject_Z (Room.x r) + inject_Z (Room.w r) / inject_Z 2))
           (Qfloor (inject_Z (Room.y r) + inject_Z (Room.h r) / inject_Z 2)).

(** [l[i]] where a field of the element is read next: on [undefined]
    that read throws. *)
Definition at_index {A : Type} (l : list A) (i : Z) : result A :=
  match get l i with
  | Some a => Ok a
  | None => TypeError
  end.

(** [for (const a of l) body] *)
Fixpoint for_of {A S : Type} (l : list A)
    (body : A -> S -> result S) (s : S) : result S :=
  match l with
  | [] => Ok s
  | a :: l' => s' ← body a s; for_of l' body s'
  end.

(** A [Set<number>] as the list of its elements in insertion order, the
    order in which [for ... of] visits them. *)
Definition set_has (s : list Z) (b : Z) : bool := existsb (Z.eqb b) s.

Definition set_add (s : list Z) (b : Z) : list Z :=
  if set_has s b then s else s ++ [b].

(** [bestA], [bestB] and [bestDist]; [None] is [Infinity]. *)
Record Best : Type := mkBest {
  bestA : Z;
  bestB : Z;
  bestDist : option Z
}.

(** [d < bestDist] *)
Definition lt_dist (d : Z) (bd : option Z) : bool :=
  match bd with
  | None => true
  | Some m => d <? m
  end.

Definition manhattan (p q : Point.t) : Z :=
  Z.abs (Point.x p - Point.x q) + Z.abs (Point.y p - Point.y q).

(** The body of the inner loop, for one [a] and one [b]. *)
Definition scan_step (centers : list Point.t) (connected : list Z)
    (a b : Z) (best : Best) : result Best :=
  if set_has connected b then Ok best
  else
    ca ← at_index centers a;
    cb ← at_index centers b;
    let d := manhattan ca cb in
    if lt_dist d (bestDist best) then Ok (mkBest a b (Some d))
    else Ok best.

(** The two nested loops that look for the closest pair. *)
Definition findBest (centers : list Point.t) (connected : list Z)
    : result Best :=
  for_of connected
    (fun a best =>
       for_lt 0 (Z.of_nat (length centers))
         (fun b best' => scan_step centers connected a b best') best)
    (mkBest (-1) (-1) None).

(** The grid, the set [connected] and the position in the random
    sequence, with two ghost fields that record what the loop did: the
    pairs it carved a corridor for, in order, and whether it left
    through [break]. *)
Record ConnState : Type := mkConn {
  cn_grid : Grid;
  cn_connected : list Z;
  cn_pos : nat;
  cn_edges : list (Z * Z);
  cn_break : bool
}.

Fixpoint connect_loop (fuel : nat) (rnd : nat -> Q) (centers : list Point.t)
    (st : ConnState) : result ConnState :=
  if Z.of_nat (length (cn_connected st)) <? Z.of_nat (length centers) then
    match fuel with
    | O => OutOfFuel
    | S fuel' =>
        best ← findBest centers (cn_connected st);
        if negb (bestA best =? -1) && negb (bestB best =? -1) then
          ca ← at_index centers (bestA best);
          cb ← at_index centers (bestB best);
          g ← carveCorridor (cn_grid st) (rnd (cn_pos st))
                (Point.x ca) (Point.y ca) (Point.x cb) (Point.y cb);
          connect_loop fuel' rnd centers
            (mkConn g (set_add (cn_connected st) (bestB best))
                    (cn_pos st + 1)%nat
                    (cn_edges st ++ [(bestA best, bestB best)]) false)
        else
          Ok (mkConn (cn_grid st) (cn_connected st) (cn_pos st)
                     (cn_edges st) true)
    end
  else Ok st.

(** The function from its first statement to its last, with the final
    state of its variables. *)
Definition connect_run (fuel : nat) (rnd : nat -> Q) (p : nat) (grid : Grid)
    (rooms : list Room.t) : result ConnState :=
  if (length rooms =? 0)%nat then Ok (mkConn grid [] p [] false)
  else
    let centers := map center rooms in
    connect_loop fuel rnd centers (mkConn grid (set_add [] 0) p [] false).

(** [connectRoomsWithCorridors(grid, rooms)]: the mutated grid and the
    new position in the random sequence. Each turn of the [while] loop
    adds an element to [connected], so [rooms.length] turns suffice. *)
Definition connectRoomsWithCorridors (rnd : nat -> Q) (p : nat) (grid : Grid)
    (rooms : list Room.t) : result (Grid * nat) :=
  st ← connect_run (length rooms) rnd p grid rooms;
  Ok (cn_grid st, cn_pos st).

(** *** generateDungeon *)

Definition generateDungeon (rnd : nat -> Q) (p : nat) (roomCount : Z)
    : result (Grid * list Room.t * nat) :=
  let grid := createGrid WIDTH HEIGHT WALL in
  '(rooms, grid1, p1) ← placeRooms rnd p grid roomCount;
  '(grid2, p2) ← connectRoomsWithCorridors rnd p1 grid1 rooms;
  Ok (grid2, rooms, p2).

(** ** Sample random sequences and runs *)

Definition rnd_zero : nat -> Q := fun _ => 0%Q.

(** A sequence that cycles through the multiples of 1/101. *)
Definition rnd_cycle : nat -> Q :=
  fun n => (Z.of_nat ((37 * n + 11) mod 101) # 101)%Q.

(** The grid [generateDungeon] starts from. *)
Definition grid0 : Grid := createGrid WIDTH HEIGHT WALL.

(** The placement of two rooms under [rnd_cycle]. *)
Definition sample_placed : result (list Room.t * Grid * nat) :=
  placeRooms rnd_cycle 0 grid0 2.

Definition sample_rooms : list Room.t :=
  match sample_placed with Ok (rooms, _, _) => rooms | _ => [] end.

Definition sample_grid : Grid :=
  match sample_placed with Ok (_, g, _) => g | _ => [] end.

Definition sample_pos : nat :=
  match sample_placed with Ok (_, _, p) => p | _ => O end.

(** One corridor carved on the empty grid with the horizontal run
    first, and the grid after the same call is made again with the
    vertical run first. *)
Definition once_grid : Grid :=
  match carveCorridor grid0 0 2 2 4 4 with Ok g => g | _ => [] end.

Definition twice_grid : Grid :=
  match carveCorridor once_grid (1 # 2) 2 2 4 4 with Ok g => g | _ => [] end.

(** Three rooms written by hand. *)
Definition three_rooms : list Room.t :=
  [Room.mk 2 2 4 3; Room.mk 40 5 6 4; Room.mk 10 30 5 5].

(** ** Predicates used in the statements *)

(** The shape [createGrid(WIDTH, HEIGHT)] gives: [HEIGHT] rows of
    [WIDTH] slots, none of them a hole. *)
Definition grid_ok (g : Grid) : Prop :=
  length g = Z.to_nat HEIGHT /\
  Forall (fun row : Row =>
            length row = Z.to_nat WIDTH /\ Forall (fun s => s <> None) row) g.

(** [g'] is [g] where some cells among those that satisfy [P] have been
    set to FLOOR; every other cell reads as before. *)
Definition carved_in (P : Z -> Z -> Prop) (g g' : Grid) : Prop :=
  forall x y,
    cell g' x y = cell g x y \/ (P x y /\ cell g' x y = Some FLOOR).

Definition carved : Grid -> Grid -> Prop := carved_in (fun _ _ => True).

(** The cells of a room. *)
Definition in_room (r : Room.t) (x y : Z) : Prop :=
  Room.x r <= x < Room.x r + Room.w r /\ Room.y r <= y < Room.y r + Room.h r.

Definition room_floor (g : Grid) (r : Room.t) : Prop :=
  forall x y, in_room r x y -> cell g x y = Some FLOOR.

(** The bounds the sampling of [placeRooms] gives a candidate. *)
Definition room_ok (r : Room.t) : Prop :=
  ROOM_W_MIN <= Room.w r <= ROOM_W_MAX /\
  ROOM_H_MIN <= Room.h r <= ROOM_H_MAX /\
  2 <= Room.x r /\ 2 <= Room.y r /\
  Room.x r + Room.w r <= WIDTH - 3 /\
  Room.y r + Room.h r <= HEIGHT - 3.

(** A random sequence as [Math.random] gives it: every value in [0, 1). *)
Definition rnd_ok (rnd : nat -> Q) : Prop :=
  forall n, (0 <= rnd n)%Q /\ (rnd n < 1)%Q.

(** Walking over FLOOR cells in steps of one cell, up, down, left or
    right. *)
Definition is_floor (g : Grid) (p : Point.t) : Prop :=
  cell g (Point.x p) (Point.y p) = Some FLOOR.

Definition adjacent (p q : Point.t) : Prop :=
  Z.abs (Point.x p - Point.x q) + Z.abs (Point.y p - Point.y q) = 1.

Inductive floor_path (g : Grid) : Point.t -> Point.t -> Prop :=
| fp_here p : is_floor g p -> floor_path g p p
| fp_step p q r :
    is_floor g p -> adjacent p q -> floor_path g q r -> floor_path g p r.

(** The loop of a line function, [fx i] and [fy i] being the cell it
    visits when its counter is [i]. *)
Definition line_loop (fx fy : Z -> Z) (lo hi : Z) (g : Grid) : result Grid :=
  for_le lo hi
    (fun i g1 =>
       if inBounds (fx i) (fy i) then grid_write g1 (fx i) (fy i) FLOOR
       else Ok g1) g.

Definition on_line (fx fy : Z -> Z) (lo hi x y : Z) : Prop :=
  exists i, lo <= i <= hi /\ x = fx i /\ y = fy i /\ inBounds x y = true.

(** The cells of the horizontal and of the vertical run between two
    coordinates. *)
Definition on_run_h (x1 x2 y x' y' : Z) : Prop :=
  y' = y /\ Z.min x1 x2 <= x' <= Z.max x1 x2 /\ inBounds x' y' = true.

Definition on_run_v (y1 y2 x x' y' : Z) : Prop :=
  x' = x /\ Z.min y1 y2 <= y' <= Z.max y1 y2 /\ inBounds x' y' = true.

(** No two rooms of the list overlap. *)
Definition rooms_apart (rooms : list Room.t) : Prop :=
  forall i j a b, i <> j -> rooms !! i = Some a -> rooms !! j = Some b ->
                  roomsOverlap a b = false.

Definition in_some_room (rooms : list Room.t) (x y : Z) : Prop :=
  exists r, r ∈ rooms /\ in_room r x y.

(** What holds of the variables of [placeRooms] each time its loop
    guard is evaluated; [g0] and [p0] are the grid and the position in
    the random sequence at the call. *)
Record place_inv (g0 : Grid) (p0 : nat) (roomCount : Z) (st : PlaceState)
    : Prop := mkPlaceInv {
  pi_grid : grid_ok (pl_grid st);
  pi_carved : carved_in (in_some_room (pl_rooms st)) g0 (pl_grid st);
  pi_rooms : Forall room_ok (pl_rooms st);
  pi_floor : Forall (room_floor (pl_grid st)) (pl_rooms st);
  pi_apart : rooms_apart (pl_rooms st);
  pi_attempts : 0 <= pl_attempts st <= ATTEMPT_CAP;
  pi_length : Z.of_nat (length (pl_rooms st)) <= pl_attempts st;
  pi_count : Z.of_nat (length (pl_rooms st)) <= Z.max 0 roomCount;
  pi_pos : Z.of_nat (pl_pos st) = Z.of_nat p0 + 4 * pl_attempts st
}.

(** The distance the connector computes for the rooms of index [a] and
    [b]. *)
Definition dist_between (centers : list Point.t) (a b : Z) : Z :=
  match get centers a, get centers b with
  | Some ca, Some cb => manhattan ca cb
  | _, _ => 0
  end.

(** A room index not yet in the set [connected]. *)
Definition unconnected (centers : list Point.t) (connected : list Z) (b : Z)
    : Prop :=
  0 <= b < Z.of_nat (length centers) /\ b ∉ connected.

(** [(a, b)] is a pair of a connected and an unconnected room, and no
    other such pair is closer. *)
Definition closest_pair (centers : list Point.t) (connected : list Z)
    (a b : Z) : Prop :=
  a ∈ connected /\ unconnected centers connected b /\
  forall a' b', a' ∈ connected -> unconnected centers connected b' ->
                dist_between centers a b <= dist_between centers a' b'.

(** The runs of the selection: [connected] grows from [0] by one room
    per corridor, each corridor joining a closest pair. *)
Inductive prim_trace (centers : list Point.t)
    : list Z -> list (Z * Z) -> Prop :=
| pt_start : prim_trace centers [0] []
| pt_step connected edges a b :
    prim_trace centers connected edges ->
    closest_pair centers connected a b ->
    prim_trace centers (connected ++ [b]) (edges ++ [(a, b)]).

(** Room [b] is reached from room [a] along corridors, taken in either
    direction. *)
Inductive linked (edges : list (Z * Z)) : Z -> Z -> Prop :=
| linked_here a : linked edges a a
| linked_more a b c :
    linked edges a b -> (b, c) ∈ edges \/ (c, b) ∈ edges ->
    linked edges a c.

(** What the scan of [findBest] knows once it has compared the pairs
    [seen]. *)
Definition best_inv (centers : list Point.t) (connected : list Z)
    (seen : Z -> Z -> Prop) (best : Best) : Prop :=
  match bestDist best with
  | None =>
      bestA best = -1 /\ bestB best = -1 /\
      forall a b, seen a b -> b ∈ connected
  | Some d =>
      bestA best ∈ connected /\ unconnected centers connected (bestB best) /\
      d = dist_between centers (bestA best) (bestB best) /\
      forall a b, seen a b -> b ∉ connected -> d <= dist_between centers a b
  end.

Definition point_in_bounds (c : Point.t) : Prop :=
  inBounds (Point.x c) (Point.y c) = true.

(** What holds of the variables of [connectRoomsWithCorridors] each time
    its loop guard is evaluated; [g0] and [p0] are the grid and the
    position in the random sequence at the call. *)
Record conn_inv (centers : list Point.t) (g0 : Grid) (p0 : nat)
    (st : ConnState) : Prop := mkConnInv {
  ci_grid : grid_ok (cn_grid st);
  ci_carved : carved g0 (cn_grid st);
  ci_trace : prim_trace centers (cn_connected st) (cn_edges st);
  ci_paths : Forall point_in_bounds centers ->
             forall a c0 ca, a ∈ cn_connected st ->
               get centers 0 = Some c0 -> is_floor g0 c0 ->
               get centers a = Some ca ->
               floor_path (cn_grid st) c0 ca;
  ci_pos : cn_pos st = (p0 + length (cn_edges st))%nat;
  ci_break : cn_break st = false
}.

(** Between [g] and [g'] every cell that changed now holds FLOOR, and
    every FLOOR cell is still FLOOR. *)
Definition floor_only (g g' : Grid) : Prop :=
  (forall x y, cell g' x y <> cell g x y -> cell g' x y = Some FLOOR) /\
  (forall x y, cell g x y = Some FLOOR -> cell g' x y = Some FLOOR).

(** The bounding box of a room with one more column and one more row on
    its far edges, as the overlap rule of the specification words it. *)
Definition in_expanded (r : Room.t) (x y : Z) : Prop :=
  Room.x r <= x < Room.x r + Room.w r + 1 /\
  Room.y r <= y < Room.y r + Room.h r + 1.

(** The cells of the corridor between two points, by the order of its
    runs. *)
Definition on_corridor (firstHorizontal : bool) (x1 y1 x2 y2 x y : Z) : Prop :=
  if firstHorizontal
  then on_run_h x1 x2 y1 x y \/ on_run_v y1 y2 x2 x y
  else on_run_v y1 y2 x1 x y \/ on_run_h x1 x2 y2 x y.

(** A grid smaller than the constants say. *)
Definition small_grid : Grid := createGrid 3 3 WALL.

(** *** The cells [App] renders *)

Definition pixelSize : Z := 8.

(** The [div] of one cell: its React key and the three fields of its
    style. *)
Record CellDiv : Type := mkCellDiv {
  key : string;
  width : Z;
  height : Z;
  background : string
}.

(** The callback of [row.map], for the cell [cell] at column [x] of
    row [y]. *)
Definition cellDiv (y x : nat) (t : Tile) : CellDiv :=
  mkCellDiv (pretty x +:+ "-" +:+ pretty y) pixelSize pixelSize
            (if decide (t = FLOOR) then "#fff" else "#000").

(** [row.map((cell, x) => ...)] then flattened by [flatMap]: a hole of
    the row is not visited by [map] and is dropped by the flattening. *)
Definition renderRow (y : nat) (row : Row) : list CellDiv :=
  omap id (imap (fun x s => cellDiv y x <$> s) row).

(** [gridState.flatMap((row, y) => row.map(...))] *)
Definition renderCells (gridState : Grid) : list CellDiv :=
  mjoin (imap renderRow gridState).

Fixpoint no_dash (s : string) : Prop :=
  match s with
  | EmptyString => True
  | String c s' => c <> "-"%char /\ no_dash s'
  end.

(** ** More predicates and samples *)

(** Every FLOOR cell of the grid is joined to one of the points. *)
Definition anchored (centers : list Point.t) (g : Grid) : Prop :=
  forall x y, cell g x y = Some FLOOR ->
    exists c, c ∈ centers /\ floor_path g c (Point.mk x y).

(** The part of the grid inside the margins of [placeRooms]. *)
Definition inside_margin (x y : Z) : Prop :=
  2 <= x < WIDTH - 3 /\ 2 <= y < HEIGHT - 3.

Definition floor_inside (g : Grid) : Prop :=
  forall x y, cell g x y = Some FLOOR -> inside_margin x y.

(** The candidate room an attempt of [placeRooms] builds from the four
    draws at positions [p] to [p + 3]. *)
Definition candidate (rnd : nat -> Q) (p : nat) : Room.t :=
  let w := randInt (rnd p) ROOM_W_MIN ROOM_W_MAX in
  let h := randInt (rnd (p + 1)%nat) ROOM_H_MIN ROOM_H_MAX in
  let x := randInt (rnd (p + 2)%nat) 2 (WIDTH - w - 3) in
  let y := randInt (rnd (p + 3)%nat) 2 (HEIGHT - h - 3) in
  Room.mk x y w h.

(** A dungeon of two rooms under [rnd_cycle]. *)
Definition sample_dungeon : result (Grid * list Room.t * nat) :=
  generateDungeon rnd_cycle 0 2.

Definition dungeon_grid : Grid :=
  match sample_dungeon with Ok (g, _, _) => g | _ => [] end.

Definition dungeon_rooms : list Room.t :=
  match sample_dungeon with Ok (_, rooms, _) => rooms | _ => [] end.

Definition dungeon_pos : nat :=
  match sample_dungeon with Ok (_, _, p) => p | _ => O end.

(** The pairs the scan of [findBest] has compared when it is about to
    compare [(a, j)], the rooms of [pre] being done; [n] is the number
    of rooms. *)
Definition seen_pairs (n : Z) (pre : list Z) (a j : Z) (a' b' : Z) : Prop :=
  (a' ∈ pre /\ 0 <= b' < n) \/ (a' = a /\ 0 <= b' < j).

(** What the scan of [findBest] also knows: every pair it compared
    before the one it holds is strictly farther. *)
Definition first_inv (centers : list Point.t) (connected : list Z)
    (best : Best) : Prop :=
  match bestDist best with
  | None => True
  | Some d =>
      exists pre post,
        connected = pre ++ bestA best :: post /\
        (forall a' b', a' ∈ pre -> unconnected centers connected b' ->
                       d < dist_between centers a' b') /\
        (forall b', unconnected centers connected b' -> b' < bestB best ->
                    d < dist_between centers (bestA best) b')
  end.

(** Three room centers, the second and the third at the same distance
    from the first. *)
Definition tie_centers : list Point.t :=
  [Point.mk 10 10; Point.mk 20 10; Point.mk 10 20].

(** Two random sequences give the same draws from position [lo] up to,
    not including, position [hi]. *)
Definition same_draws (rnd rnd' : nat -> Q) (lo hi : nat) : Prop :=
  forall n, (lo <= n < hi)%nat -> rnd' n = rnd n.

(** [rnd_cycle] up to position 9, zero from there on. *)
Definition rnd_cut : nat -> Q :=
  fun n => if (n <? 9)%nat then rnd_cycle n else 0%Q.

(** The total length of a list of corridors, each counted by the
    distance between the centers of its two rooms. *)
Definition edges_weight (centers : list Point.t) (es : list (Z * Z)) : Z :=
  foldr (fun e acc => dist_between centers (fst e) (snd e) + acc) 0 es.

(** Every corridor of the list joins two rooms of the list of centers. *)
Definition valid_edges (centers : list Point.t) (es : list (Z * Z)) : Prop :=
  Forall (fun e => 0 <= fst e < Z.of_nat (length centers) /\
                   0 <= snd e < Z.of_nat (length centers)) es.

(** Every room is reached from room 0 along the corridors of the list. *)
Definition spans (centers : list Point.t) (es : list (Z * Z)) : Prop :=
  forall i, 0 <= i < Z.of_nat (length centers) -> linked es 0 i.

(** The corridors of the list that run between two rooms outside [s]. *)
Definition outside_edges (s : list Z) (es : list (Z * Z)) : list (Z * Z) :=
  filter (fun e => (fst e ∉ s) /\ (snd e ∉ s)) es.

(** The final state of the connector on the three hand-written rooms. *)
Definition three_conn : ConnState :=
  match connect_run 3 rnd_cycle 0 grid0 three_rooms with
  | Ok st => st
  | _ => mkConn [] [] 0 [] false
  end.

(** The numbers of the list grow from each one to the next. *)
Definition increasing (ks : list nat) : Prop :=
  forall i j a b, (i < j)%nat -> ks !! i = Some a -> ks !! j = Some b ->
                  (a < b)%nat.

(** What the attempts of [placeRooms] so far have done, [p0] being the
    position in the random sequence at the call: the rooms are the
    candidates of the attempts [ks], in order, and every other attempt
    built a candidate that overlaps a room accepted before it. *)
Definition attempts_inv (rnd : nat -> Q) (p0 : nat) (st : PlaceState)
    (ks : list nat) : Prop :=
  pl_rooms st = map (fun k => candidate rnd (p0 + 4 * k)) ks /\
  increasing ks /\
  (forall k, k ∈ ks -> Z.of_nat k < pl_attempts st) /\
  (forall k : nat, Z.of_nat k < pl_attempts st -> k ∉ ks ->
     exists j, j ∈ ks /\ (j < k)%nat /\
       roomsOverlap (candidate rnd (p0 + 4 * j)) (candidate rnd (p0 + 4 * k))
       = true) /\
  0 <= pl_attempts st /\
  pl_pos st = (p0 + 4 * Z.to_nat (pl_attempts st))%nat.

(** The grid after [placeRooms] under the all-zero sequence. *)
Definition zero_grid : Grid :=
  match placeRooms rnd_zero 0 grid0 1000 with Ok (_, g, _) => g | _ => [] end.

(** The cells of the corridors of a list of recorded pairs: the pair
    number [k] of the list joins the centers of its two rooms, with the
    order of its two runs chosen by the draw at position [p0 + k]. *)
Definition corridor_cells (rnd : nat -> Q) (centers : list Point.t)
    (p0 : nat) (edges : list (Z * Z)) (x y : Z) : Prop :=
  exists (k : nat) (a b : Z) (ca cb : Point.t),
    edges !! k = Some (a, b) /\
    get centers a = Some ca /\ get centers b = Some cb /\
    on_corridor (lessThanHalf (rnd (p0 + k)%nat))
      (Point.x ca) (Point.y ca) (Point.x cb) (Point.y cb) x y.

(** The grid [g] is the grid [g0] with the corridors of the recorded
    pairs carved into it and nothing else: every cell of one of these
    corridors is FLOOR, every other cell reads as in [g0], and the two
    centers of a pair, when they lie on the grid, are joined by a path
    of FLOOR cells. *)
Definition corridors_carved (rnd : nat -> Q) (centers : list Point.t)
    (p0 : nat) (g0 : Grid) (edges : list (Z * Z)) (g : Grid) : Prop :=
  (forall x y, corridor_cells rnd centers p0 edges x y ->
     cell g x y = Some FLOOR) /\
  (forall x y, ~ corridor_cells rnd centers p0 edges x y ->
     cell g x y = cell g0 x y) /\
  (forall (k : nat) a b ca cb,
     edges !! k = Some (a, b) ->
     get centers a = Some ca -> get centers b = Some cb ->
     point_in_bounds ca -> point_in_bounds cb ->
     floor_path g ca cb).

(** What ties the recorded pairs to the grid each time the guard of the
    loop of [connectRoomsWithCorridors] is evaluated. *)
Definition corridors_inv (rnd : nat -> Q) (centers : list Point.t)
    (p0 : nat) (g0 : Grid) (st : ConnState) : Prop :=
  cn_pos st = (p0 + length (cn_edges st))%nat /\
  (forall x y, corridor_cells rnd centers p0 (cn_edges st) x y ->
     cell (cn_grid st) x y = Some FLOOR) /\
  carved_in (corridor_cells rnd centers p0 (cn_edges st)) g0 (cn_grid st) /\
  (forall (k : nat) a b ca cb,
     cn_edges st !! k = Some (a, b) ->
     get centers a = Some ca -> get centers b = Some cb ->
     point_in_bounds ca -> point_in_bounds cb ->
     floor_path (cn_grid st) ca cb).



(** ** Arithmetic of the random draws *)

Lemma randInt_range r lo hi :
  (0 <= r)%Q -> (r < 1)%Q -> lo <= hi -> lo <= randInt r lo hi <= hi.
Proof.
  intros H0 H1 Hle. unfold randInt.
  set (n := hi - lo + 1).
  assert (Hn : 0 < n) by (unfold n; lia).
  assert (HnQ : (0 < inject_Z n)%Q) by (change (inject_Z 0 < inject_Z n)%Q; rewrite <- Zlt_Qlt; exact Hn).
  assert (Hlow : 0 <= Qfloor (r * inject_Z n)).
  { rewrite <- (Qfloor_Z 0). apply Qfloor_resp_le.
    apply Qmult_le_0_compat; [exact H0 | apply Qlt_le_weak; exact HnQ]. }
  assert (Hup : Qfloor (r * inject_Z n) < n).
  { rewrite Zlt_Qlt. eapply Qle_lt_trans; [apply Qfloor_le |].
    rewrite <- (Qmult_1_l (inject_Z n)) at 2.
    apply Qmult_lt_compat_r; assumption. }
  unfold n in *. lia.
Qed.

Lemma center_eq r :
  center r = Point.mk (Room.x r + Room.w r / 2) (Room.y r + Room.h r / 2).
Proof.
  assert (E : forall a b, Qfloor (inject_Z a + inject_Z b / inject_Z 2) = a + b / 2).
  { intros a b.
    assert (Hq : (inject_Z a + inject_Z b / inject_Z 2 ==
                  inject_Z (a * 2 + b) / inject_Z 2)%Q).
    { rewrite inject_Z_plus, inject_Z_mult. field. }
    rewrite (Qfloor_comp _ _ Hq), <- Zdiv_Qdiv.
    rewrite Z.div_add_l by lia. reflexivity. }
  unfold center. rewrite !E. reflexivity.
Qed.

(** ** Reading and writing the grid *)

Lemma get_Some {A} (l : list A) i a :
  get l i = Some a <-> 0 <= i /\ l !! Z.to_nat i = Some a.
Proof.
  unfold get. destruct (Z.ltb_spec i 0) as [Hneg | Hpos]; split; intros H'.
  - discriminate.
  - destruct H' as [H' _]. lia.
  - split; [exact Hpos | exact H'].
  - apply H'.
Qed.

Lemma get_lt {A} (l : list A) i :
  0 <= i < Z.of_nat (length l) -> exists a, get l i = Some a.
Proof.
  intros Hi. destruct (lookup_lt_is_Some_2 l (Z.to_nat i)) as [a Ha]; [lia |].
  exists a. apply get_Some. split; [lia | exact Ha].
Qed.

Lemma get_Some_lt {A} (l : list A) i a :
  get l i = Some a -> 0 <= i < Z.of_nat (length l).
Proof.
  intros H. apply get_Some in H as [H0 H]. apply lookup_lt_Some in H. lia.
Qed.

Lemma slot_row_write_same row x t :
  0 <= x -> slot (row_write row x t) x = Some t.
Proof.
  intros Hx. unfold slot, row_write, get. cbv zeta.
  destruct (Z.ltb_spec x 0); [lia |].
  destruct (Nat.ltb_spec (Z.to_nat x) (length row)).
  - rewrite list_lookup_insert_eq by assumption. reflexivity.
  - rewrite lookup_app_r by lia.
    rewrite lookup_app_r by (rewrite length_replicate; lia).
    rewrite length_replicate, Nat.sub_diag. reflexivity.
Qed.

Lemma slot_row_write_other row x x' t :
  x' <> x -> slot (row_write row x t) x' = slot row x'.
Proof.
  intros Hne. unfold slot, row_write, get. cbv zeta.
  destruct (Z.ltb_spec x 0); [reflexivity |].
  destruct (Z.ltb_spec x' 0); [reflexivity |].
  assert (Hn : Z.to_nat x <> Z.to_nat x') by lia.
  destruct (Nat.ltb_spec (Z.to_nat x) (length row)).
  - rewrite list_lookup_insert_ne by assumption. reflexivity.
  - destruct (Nat.lt_ge_cases (Z.to_nat x') (length row)) as [Hlt | Hge].
    + rewrite lookup_app_l by assumption. reflexivity.
    + rewrite (lookup_ge_None_2 row) by assumption.
      rewrite lookup_app_r by assumption.
      destruct (Nat.lt_ge_cases (Z.to_nat x' - length row)
                  (Z.to_nat x - length row)) as [Hin | Hout].
      * rewrite lookup_app_l by (rewrite length_replicate; assumption).
        rewrite lookup_replicate_2 by assumption. reflexivity.
      * rewrite lookup_app_r by (rewrite length_replicate; assumption).
        rewrite length_replicate.
        rewrite lookup_ge_None_2; [reflexivity | simpl; lia].
Qed.

Lemma row_write_id row x t : slot row x = Some t -> row_write row x t = row.
Proof.
  unfold slot. intros H.
  destruct (get row x) as [s |] eqn:E; [| discriminate]. subst s.
  apply get_Some in E as [Hx E]. unfold row_write.
  destruct (Z.ltb_spec x 0); [lia |].
  pose proof (lookup_lt_Some _ _ _ E) as Hlt.
  destruct (Nat.ltb_spec (Z.to_nat x) (length row)); [| lia].
  apply list_insert_id. exact E.
Qed.

Lemma grid_write_inv g x y t g' :
  grid_write g x y t = Ok g' ->
  exists row, get g y = Some row /\ g' = <[Z.to_nat y := row_write row x t]> g.
Proof.
  unfold grid_write. destruct (get g y) as [row |]; [| discriminate].
  intros [= <-]. eauto.
Qed.

Lemma cell_write_same g x y t g' :
  grid_write g x y t = Ok g' -> 0 <= x -> cell g' x y = Some t.
Proof.
  intros H Hx. apply grid_write_inv in H as (row & Hrow & ->).
  apply get_Some in Hrow as [Hy Hrow]. unfold cell.
  assert (E : get (<[Z.to_nat y := row_write row x t]> g) y
              = Some (row_write row x t)).
  { apply get_Some. split; [exact Hy |].
    apply list_lookup_insert_eq. eapply lookup_lt_Some; eassumption. }
  rewrite E. apply slot_row_write_same. exact Hx.
Qed.

Lemma cell_write_other g x y t g' x' y' :
  grid_write g x y t = Ok g' -> x' <> x \/ y' <> y ->
  cell g' x' y' = cell g x' y'.
Proof.
  intros H Hne. apply grid_write_inv in H as (row & Hrow & ->).
  apply get_Some in Hrow as [Hy Hrow]. unfold cell, get.
  destruct (Z.ltb_spec y' 0); [reflexivity |].
  destruct (decide (y' = y)) as [-> | Hy'].
  - rewrite list_lookup_insert_eq by (eapply lookup_lt_Some; eassumption).
    rewrite Hrow. apply slot_row_write_other. destruct Hne; congruence.
  - rewrite list_lookup_insert_ne by lia. reflexivity.
Qed.

Lemma grid_write_id g x y t : cell g x y = Some t -> grid_write g x y t = Ok g.
Proof.
  unfold cell, grid_write. intros H.
  destruct (get g y) as [row |] eqn:E; [| discriminate].
  apply get_Some in E as [Hy E].
  rewrite (row_write_id _ _ _ H), list_insert_id by exact E. reflexivity.
Qed.

Lemma grid_write_carved g x y g' :
  grid_write g x y FLOOR = Ok g' ->
  carved_in (fun x' y' => x' = x /\ y' = y) g g'.
Proof.
  intros H x' y'.
  destruct (decide (x' = x)) as [-> | Hx];
    [destruct (decide (y' = y)) as [-> | Hy] |].
  - destruct (Z.lt_ge_cases x 0) as [Hneg | Hpos].
    + left. apply grid_write_inv in H as (row & Hrow & ->).
      unfold row_write. destruct (Z.ltb_spec x 0); [| lia].
      rewrite list_insert_id; [reflexivity |].
      apply get_Some in Hrow. apply Hrow.
    + right. split; [split; reflexivity |].
      eapply cell_write_same; eassumption.
  - left. eapply cell_write_other; [eassumption | right; assumption].
  - left. eapply cell_write_other; [eassumption | left; assumption].
Qed.

Lemma inBounds_spec x y :
  inBounds x y = true <-> 0 <= x < WIDTH /\ 0 <= y < HEIGHT.
Proof. unfold inBounds. lia. Qed.

Lemma grid_ok_row g y :
  grid_ok g -> 0 <= y < HEIGHT ->
  exists row, get g y = Some row /\ length row = Z.to_nat WIDTH
              /\ Forall (fun s => s <> None) row.
Proof.
  intros [Hlen Hrows] Hy.
  destruct (get_lt g y) as [row Hrow]; [lia |].
  exists row. split; [exact Hrow |].
  apply get_Some in Hrow as [_ Hrow].
  exact (proj1 (Forall_lookup _ _) Hrows _ _ Hrow).
Qed.

Lemma grid_write_ok g x y t :
  grid_ok g -> inBounds x y = true ->
  exists g', grid_write g x y t = Ok g' /\ grid_ok g'.
Proof.
  intros Hok Hb. apply inBounds_spec in Hb as [Hx Hy].
  destruct (grid_ok_row g y Hok Hy) as (row & Hrow & Hlen & Hfull).
  unfold grid_write. rewrite Hrow. eexists. split; [reflexivity |].
  destruct Hok as [Hh Hrows]. split.
  - rewrite length_insert. exact Hh.
  - apply Forall_insert; [exact Hrows |].
    unfold row_write. destruct (Z.ltb_spec x 0); [lia |].
    destruct (Nat.ltb_spec (Z.to_nat x) (length row)); [| lia].
    split; [rewrite length_insert; exact Hlen |].
    apply Forall_insert; [exact Hfull | discriminate].
Qed.

Lemma grid_ok_cell g x y :
  grid_ok g -> inBounds x y = true -> exists t, cell g x y = Some t.
Proof.
  intros Hok Hb. apply inBounds_spec in Hb as [Hx Hy].
  destruct (grid_ok_row g y Hok Hy) as (row & Hrow & Hlen & Hfull).
  unfold cell, slot. rewrite Hrow.
  destruct (get_lt row x) as [s Hs]; [lia |]. rewrite Hs.
  apply get_Some in Hs as [_ Hs].
  pose proof (proj1 (Forall_lookup _ _) Hfull _ _ Hs) as Hne.
  destruct s as [t |]; [eauto | congruence].
Qed.

Lemma createGrid_ok fill : grid_ok (createGrid WIDTH HEIGHT fill).
Proof.
  unfold createGrid. split.
  - apply length_replicate.
  - apply Forall_replicate. split; [apply length_replicate |].
    apply Forall_replicate. discriminate.
Qed.

Lemma createGrid_cell w h fill x y :
  cell (createGrid w h fill) x y
  = if (0 <=? x) && (x <? w) && (0 <=? y) && (y <? h) then Some fill else None.
Proof.
  unfold cell, slot, createGrid, get.
  destruct (Z.ltb_spec y 0) as [Hy | Hy].
  { destruct (Z.leb_spec 0 y); [lia |]. rewrite andb_false_r. reflexivity. }
  destruct (Z.leb_spec 0 y); [| lia]. rewrite andb_true_r.
  destruct (Z.ltb_spec y h) as [Hyh | Hyh].
  - rewrite lookup_replicate_2 by lia. rewrite andb_true_r.
    destruct (Z.ltb_spec x 0) as [Hx | Hx].
    { destruct (Z.leb_spec 0 x); [lia | reflexivity]. }
    destruct (Z.leb_spec 0 x); [| lia]. simpl.
    destruct (Z.ltb_spec x w).
    + rewrite lookup_replicate_2 by lia. reflexivity.
    + rewrite lookup_ge_None_2; [reflexivity | rewrite length_replicate; lia].
  - rewrite andb_false_r.
    rewrite lookup_ge_None_2; [reflexivity | rewrite length_replicate; lia].
Qed.

(** ** Carving only adds FLOOR *)

Lemma carved_in_refl P g : carved_in P g g.
Proof. intros x y. left. reflexivity. Qed.

Lemma carved_in_trans P g1 g2 g3 :
  carved_in P g1 g2 -> carved_in P g2 g3 -> carved_in P g1 g3.
Proof.
  intros H12 H23 x y.
  destruct (H23 x y) as [E | H]; [| right; exact H].
  rewrite E. apply H12.
Qed.

Lemma carved_in_weaken (P Q : Z -> Z -> Prop) g g' :
  (forall x y, P x y -> Q x y) -> carved_in P g g' -> carved_in Q g g'.
Proof.
  intros HPQ H x y. destruct (H x y) as [E | [HP E]]; [left | right]; auto.
Qed.

Lemma carved_in_floor P g g' x y :
  carved_in P g g' -> cell g x y = Some FLOOR -> cell g' x y = Some FLOOR.
Proof. intros H E. destruct (H x y) as [E' | [_ E']]; congruence. Qed.

Lemma carved_in_outside (P : Z -> Z -> Prop) g g' x y :
  carved_in P g g' -> ~ P x y -> cell g' x y = cell g x y.
Proof. intros H HP. destruct (H x y) as [E | [HP' _]]; [exact E | tauto]. Qed.

(** ** Counting loops *)

Lemma for_iter_total {S} (Inv : Z -> S -> Prop) body n i (s : S) :
  (forall j s1, i <= j < i + Z.of_nat n -> Inv j s1 ->
     exists s2, body j s1 = Ok s2 /\ Inv (j + 1) s2) ->
  Inv i s ->
  exists s', for_iter n i body s = Ok s' /\ Inv (i + Z.of_nat n) s'.
Proof.
  revert i s. induction n as [| n IH]; intros i s Hbody Hinv.
  - exists s. split; [reflexivity |]. replace (i + Z.of_nat 0) with i by lia.
    exact Hinv.
  - destruct (Hbody i s) as (s2 & E & Hinv2); [lia | exact Hinv |].
    destruct (IH (i + 1) s2) as (s' & E' & Hinv'); [| exact Hinv2 |].
    { intros j s1 Hj. apply Hbody. lia. }
    exists s'. split.
    + cbn. rewrite E. exact E'.
    + replace (i + Z.of_nat (Datatypes.S n)) with (i + 1 + Z.of_nat n) by lia.
      exact Hinv'.
Qed.

Lemma for_iter_partial {S} (Inv : Z -> S -> Prop) body n i (s s' : S) :
  for_iter n i body s = Ok s' ->
  (forall j s1 s2, i <= j < i + Z.of_nat n -> Inv j s1 ->
     body j s1 = Ok s2 -> Inv (j + 1) s2) ->
  Inv i s ->
  Inv (i + Z.of_nat n) s'.
Proof.
  revert i s. induction n as [| n IH]; intros i s Hrun Hbody Hinv.
  - injection Hrun as <-. replace (i + Z.of_nat 0) with i by lia. exact Hinv.
  - cbn in Hrun. destruct (body i s) as [s2 | |] eqn:E; try discriminate.
    replace (i + Z.of_nat (Datatypes.S n)) with (i + 1 + Z.of_nat n) by lia.
    apply (IH (i + 1) s2 Hrun).
    + intros j s1 s3 Hj. apply Hbody. lia.
    + apply (Hbody i s s2); [lia | exact Hinv | exact E].
Qed.


Lemma for_iter_fixed {S} (body : Z -> S -> result S) n i s :
  (forall j, i <= j < i + Z.of_nat n -> body j s = Ok s) ->
  for_iter n i body s = Ok s.
Proof.
  revert i. induction n as [| n IH]; intros i Hfix; [reflexivity |].
  cbn. rewrite Hfix by lia. cbn. apply IH. intros j Hj. apply Hfix. lia.
Qed.

(** ** Lines *)

Section LineLoop.
Variables fx fy : Z -> Z.

Lemma line_loop_carved lo hi g g' :
  line_loop fx fy lo hi g = Ok g' ->
  carved_in (on_line fx fy lo hi) g g' /\
  forall i, lo <= i <= hi -> inBounds (fx i) (fy i) = true ->
            cell g' (fx i) (fy i) = Some FLOOR.
Proof.
  unfold line_loop, for_le. intros Hrun.
  destruct (Z.le_gt_cases lo hi) as [Hle | Hgt].
  2:{ replace (Z.to_nat (hi + 1 - lo)) with O in Hrun by lia.
      injection Hrun as <-. split; [apply carved_in_refl | intros; lia]. }
  pose (Inv := fun (j : Z) (s : Grid) =>
    carved_in (on_line fx fy lo hi) g s /\
    forall i, lo <= i < j -> inBounds (fx i) (fy i) = true ->
              cell s (fx i) (fy i) = Some FLOOR).
  assert (Hend : Inv (lo + Z.of_nat (Z.to_nat (hi + 1 - lo))) g').
  { apply (for_iter_partial Inv _ _ _ _ _ Hrun).
    - intros j s1 s2 Hj [Hc Hf] Hstep.
      destruct (inBounds (fx j) (fy j)) eqn:Hb.
      + pose proof (grid_write_carved _ _ _ _ Hstep) as Hw.
        split.
        * apply (carved_in_trans _ _ s1); [exact Hc |].
          eapply carved_in_weaken; [| exact Hw].
          intros x y [-> ->]. exists j. repeat split; [lia | lia | exact Hb].
        * intros i Hi Hbi. destruct (decide (i = j)) as [-> | Hne].
          -- eapply cell_write_same; [exact Hstep |].
             apply inBounds_spec in Hb. lia.
          -- eapply carved_in_floor; [exact Hw |]. apply Hf; [lia | exact Hbi].
      + injection Hstep as <-. split; [exact Hc |].
        intros i Hi Hbi. destruct (decide (i = j)) as [-> | Hne];
          [congruence | apply Hf; [lia | exact Hbi]].
    - split; [apply carved_in_refl | intros; lia]. }
  destruct Hend as [Hc Hf]. split; [exact Hc |].
  intros i Hi. apply Hf. lia.
Qed.

Lemma line_loop_ok lo hi g :
  grid_ok g -> exists g', line_loop fx fy lo hi g = Ok g' /\ grid_ok g'.
Proof.
  intros Hok. unfold line_loop, for_le.
  destruct (for_iter_total (fun _ s => grid_ok s)
              (fun i g1 =>
                 if inBounds (fx i) (fy i)
                 then grid_write g1 (fx i) (fy i) FLOOR else Ok g1)
              (Z.to_nat (hi + 1 - lo)) lo g) as (g' & E & Hok').
  - intros j s1 _ Hs1. destruct (inBounds (fx j) (fy j)) eqn:Hb.
    + apply grid_write_ok; assumption.
    + eauto.
  - exact Hok.
  - eauto.
Qed.

Lemma line_loop_id lo hi g :
  (forall i, lo <= i <= hi -> inBounds (fx i) (fy i) = true ->
             cell g (fx i) (fy i) = Some FLOOR) ->
  line_loop fx fy lo hi g = Ok g.
Proof.
  intros Hf. unfold line_loop, for_le. apply for_iter_fixed.
  intros j Hj. destruct (inBounds (fx j) (fy j)) eqn:Hb; [| reflexivity].
  apply grid_write_id. apply Hf; [lia | exact Hb].
Qed.
End LineLoop.

Lemma carveLineH_line g x1 x2 y :
  carveLineH g x1 x2 y
  = line_loop (fun i => i) (fun _ => y) (Z.min x1 x2) (Z.max x1 x2) g.
Proof.
  unfold carveLineH, carveLineH_with, line_loop.
  destruct (Z.leb_spec x1 x2).
  - rewrite Z.min_l, Z.max_r by lia. reflexivity.
  - rewrite Z.min_r, Z.max_l by lia. reflexivity.
Qed.

Lemma carveLineV_line g y1 y2 x :
  carveLineV g y1 y2 x
  = line_loop (fun _ => x) (fun i => i) (Z.min y1 y2) (Z.max y1 y2) g.
Proof.
  unfold carveLineV, carveLineV_with, line_loop.
  destruct (Z.leb_spec y1 y2).
  - rewrite Z.min_l, Z.max_r by lia. reflexivity.
  - rewrite Z.min_r, Z.max_l by lia. reflexivity.
Qed.

Lemma carveLineH_carved g x1 x2 y g' :
  carveLineH g x1 x2 y = Ok g' -> carved_in (on_run_h x1 x2 y) g g'.
Proof.
  rewrite carveLineH_line. intros H.
  apply line_loop_carved in H as [H _].
  eapply carved_in_weaken; [| exact H].
  intros x' y' (i & Hi & -> & -> & Hb). repeat split; [lia | lia | exact Hb].
Qed.

Lemma carveLineV_carved g y1 y2 x g' :
  carveLineV g y1 y2 x = Ok g' -> carved_in (on_run_v y1 y2 x) g g'.
Proof.
  rewrite carveLineV_line. intros H.
  apply line_loop_carved in H as [H _].
  eapply carved_in_weaken; [| exact H].
  intros x' y' (i & Hi & -> & -> & Hb). repeat split; [lia | lia | exact Hb].
Qed.

Lemma carveLineH_floor g x1 x2 y g' x' y' :
  carveLineH g x1 x2 y = Ok g' -> on_run_h x1 x2 y x' y' ->
  cell g' x' y' = Some FLOOR.
Proof.
  rewrite carveLineH_line. intros H (-> & Hx & Hb).
  apply line_loop_carved in H as [_ H]. apply (H x'); assumption.
Qed.

Lemma carveLineV_floor g y1 y2 x g' x' y' :
  carveLineV g y1 y2 x = Ok g' -> on_run_v y1 y2 x x' y' ->
  cell g' x' y' = Some FLOOR.
Proof.
  rewrite carveLineV_line. intros H (-> & Hy & Hb).
  apply line_loop_carved in H as [_ H]. apply (H y'); assumption.
Qed.

Lemma carveLineH_ok g x1 x2 y :
  grid_ok g -> exists g', carveLineH g x1 x2 y = Ok g' /\ grid_ok g'.
Proof. rewrite carveLineH_line. apply line_loop_ok. Qed.

Lemma carveLineV_ok g y1 y2 x :
  grid_ok g -> exists g', carveLineV g y1 y2 x = Ok g' /\ grid_ok g'.
Proof. rewrite carveLineV_line. apply line_loop_ok. Qed.

Lemma carveLineH_id g x1 x2 y :
  (forall x' y', on_run_h x1 x2 y x' y' -> cell g x' y' = Some FLOOR) ->
  carveLineH g x1 x2 y = Ok g.
Proof.
  intros H. rewrite carveLineH_line. apply line_loop_id.
  intros i Hi Hb. apply H. split; [reflexivity | split; assumption].
Qed.

Lemma carveLineV_id g y1 y2 x :
  (forall x' y', on_run_v y1 y2 x x' y' -> cell g x' y' = Some FLOOR) ->
  carveLineV g y1 y2 x = Ok g.
Proof.
  intros H. rewrite carveLineV_line. apply line_loop_id.
  intros i Hi Hb. apply H. split; [reflexivity | split; assumption].
Qed.

Lemma carveLineH_twice g x1 x2 y g' :
  carveLineH g x1 x2 y = Ok g' -> carveLineH g' x1 x2 y = Ok g'.
Proof.
  intros H. apply carveLineH_id. intros x' y'. eapply carveLineH_floor, H.
Qed.

Lemma carveLineV_twice g y1 y2 x g' :
  carveLineV g y1 y2 x = Ok g' -> carveLineV g' y1 y2 x = Ok g'.
Proof.
  intros H. apply carveLineV_id. intros x' y'. eapply carveLineV_floor, H.
Qed.



(** ** Corridors *)

Lemma bind_Ok {A B} (m : result A) (k : A -> result B) b :
  m ≫= k = Ok b <-> exists a, m = Ok a /\ k a = Ok b.
Proof.
  destruct m as [a | |]; cbn; split.
  - eauto.
  - intros (a' & [= <-] & H). exact H.
  - discriminate.
  - intros (? & ? & _). discriminate.
  - discriminate.
  - intros (? & ? & _). discriminate.
Qed.

Lemma carveCorridor_inv g r x1 y1 x2 y2 g' :
  carveCorridor g r x1 y1 x2 y2 = Ok g' ->
  (lessThanHalf r = true /\
   exists g1, carveLineH g x1 x2 y1 = Ok g1 /\ carveLineV g1 y1 y2 x2 = Ok g')
  \/
  (lessThanHalf r = false /\
   exists g1, carveLineV g y1 y2 x1 = Ok g1 /\ carveLineH g1 x1 x2 y2 = Ok g').
Proof.
  unfold carveCorridor. destruct (lessThanHalf r); intros H;
    apply bind_Ok in H; [left | right]; split; auto.
Qed.

Lemma carveCorridor_carved g r x1 y1 x2 y2 g' :
  carveCorridor g r x1 y1 x2 y2 = Ok g' -> carved g g'.
Proof.
  intros H. apply carveCorridor_inv in H as [[_ (g1 & H1 & H2)] | [_ (g1 & H1 & H2)]].
  - apply (carved_in_trans _ _ g1).
    + eapply carved_in_weaken; [| eapply carveLineH_carved, H1]. auto.
    + eapply carved_in_weaken; [| eapply carveLineV_carved, H2]. auto.
  - apply (carved_in_trans _ _ g1).
    + eapply carved_in_weaken; [| eapply carveLineV_carved, H1]. auto.
    + eapply carved_in_weaken; [| eapply carveLineH_carved, H2]. auto.
Qed.

Lemma carveCorridor_ok g r x1 y1 x2 y2 :
  grid_ok g -> exists g', carveCorridor g r x1 y1 x2 y2 = Ok g' /\ grid_ok g'.
Proof.
  intros Hok. unfold carveCorridor. destruct (lessThanHalf r).
  - destruct (carveLineH_ok g x1 x2 y1 Hok) as (g1 & E1 & Hok1).
    destruct (carveLineV_ok g1 y1 y2 x2 Hok1) as (g2 & E2 & Hok2).
    exists g2. rewrite E1. cbn. auto.
  - destruct (carveLineV_ok g y1 y2 x1 Hok) as (g1 & E1 & Hok1).
    destruct (carveLineH_ok g1 x1 x2 y2 Hok1) as (g2 & E2 & Hok2).
    exists g2. rewrite E1. cbn. auto.
Qed.

Lemma carveCorridor_floor g r x1 y1 x2 y2 g' x y :
  carveCorridor g r x1 y1 x2 y2 = Ok g' ->
  on_corridor (lessThanHalf r) x1 y1 x2 y2 x y ->
  cell g' x y = Some FLOOR.
Proof.
  intros H Hon.
  apply carveCorridor_inv in H as [[Hh (g1 & H1 & H2)] | [Hh (g1 & H1 & H2)]];
    rewrite Hh in Hon; destruct Hon as [Hon | Hon].
  - eapply carved_in_floor; [eapply carveLineV_carved, H2 |].
    eapply carveLineH_floor; eassumption.
  - eapply carveLineV_floor; eassumption.
  - eapply carved_in_floor; [eapply carveLineH_carved, H2 |].
    eapply carveLineV_floor; eassumption.
  - eapply carveLineH_floor; eassumption.
Qed.

Lemma carveCorridor_id g r x1 y1 x2 y2 :
  (forall x y, on_corridor (lessThanHalf r) x1 y1 x2 y2 x y ->
               cell g x y = Some FLOOR) ->
  carveCorridor g r x1 y1 x2 y2 = Ok g.
Proof.
  intros H. unfold carveCorridor. destruct (lessThanHalf r); cbn in H.
  - rewrite carveLineH_id by (intros x y Hon; apply H; left; exact Hon).
    cbn. apply carveLineV_id. intros x y Hon. apply H. right. exact Hon.
  - rewrite carveLineV_id by (intros x y Hon; apply H; left; exact Hon).
    cbn. apply carveLineH_id. intros x y Hon. apply H. right. exact Hon.
Qed.

(** When the end points share a row or a column, both orders of the
    runs visit the same cells. *)
Lemma on_corridor_aligned b1 b2 x1 y1 x2 y2 x y :
  x1 = x2 \/ y1 = y2 ->
  on_corridor b1 x1 y1 x2 y2 x y -> on_corridor b2 x1 y1 x2 y2 x y.
Proof.
  unfold on_corridor, on_run_h, on_run_v.
  intros Hal Hon.
  destruct b1, b2; try exact Hon;
    destruct Hon as [(E & Hr & Hb) | (E & Hr & Hb)]; subst;
    destruct Hal as [-> | ->];
    first [ left; split; [lia | split; [lia | exact Hb]]
          | right; split; [lia | split; [lia | exact Hb]] ].
Qed.

(** ** Paths over FLOOR cells *)

Lemma adjacent_sym p q : adjacent p q -> adjacent q p.
Proof. unfold adjacent. lia. Qed.

Lemma floor_path_first g p q : floor_path g p q -> is_floor g p.
Proof. destruct 1; assumption. Qed.

Lemma floor_path_last g p q : floor_path g p q -> is_floor g q.
Proof. induction 1; assumption. Qed.

Lemma floor_path_trans g p q r :
  floor_path g p q -> floor_path g q r -> floor_path g p r.
Proof.
  induction 1 as [p Hp | p q' q Hp Hadj _ IH]; intros Hqr; [exact Hqr |].
  eapply fp_step; eauto.
Qed.

Lemma floor_path_sym g p q : floor_path g p q -> floor_path g q p.
Proof.
  induction 1 as [p Hp | p q' q Hp Hadj Hq IH]; [apply fp_here; exact Hp |].
  apply (floor_path_trans g q q' p IH).
  apply (fp_step g q' p p).
  - eapply floor_path_first, Hq.
  - apply adjacent_sym, Hadj.
  - apply fp_here, Hp.
Qed.

Lemma floor_path_carved P g g' p q :
  carved_in P g g' -> floor_path g p q -> floor_path g' p q.
Proof.
  intros Hc. induction 1 as [p Hp | p q' q Hp Hadj _ IH].
  - apply fp_here. eapply carved_in_floor; eassumption.
  - eapply fp_step; [| exact Hadj | exact IH].
    eapply carved_in_floor; eassumption.
Qed.

Lemma floor_path_h_up g y n a :
  (forall x, a <= x <= a + Z.of_nat n -> cell g x y = Some FLOOR) ->
  floor_path g (Point.mk a y) (Point.mk (a + Z.of_nat n) y).
Proof.
  revert a. induction n as [| n IH]; intros a Hf.
  - replace (a + Z.of_nat 0) with a by lia. apply fp_here. apply (Hf a). lia.
  - apply (fp_step g _ (Point.mk (a + 1) y)).
    + apply (Hf a). lia.
    + unfold adjacent. cbn. lia.
    + replace (a + Z.of_nat (S n)) with (a + 1 + Z.of_nat n) by lia.
      apply IH. intros x Hx. apply Hf. lia.
Qed.

Lemma floor_path_v_up g x n a :
  (forall y, a <= y <= a + Z.of_nat n -> cell g x y = Some FLOOR) ->
  floor_path g (Point.mk x a) (Point.mk x (a + Z.of_nat n)).
Proof.
  revert a. induction n as [| n IH]; intros a Hf.
  - replace (a + Z.of_nat 0) with a by lia. apply fp_here. apply (Hf a). lia.
  - apply (fp_step g _ (Point.mk x (a + 1))).
    + apply (Hf a). lia.
    + unfold adjacent. cbn. lia.
    + replace (a + Z.of_nat (S n)) with (a + 1 + Z.of_nat n) by lia.
      apply IH. intros y Hy. apply Hf. lia.
Qed.

Lemma floor_path_h g y a b :
  (forall x, Z.min a b <= x <= Z.max a b -> cell g x y = Some FLOOR) ->
  floor_path g (Point.mk a y) (Point.mk b y).
Proof.
  intros Hf. destruct (Z.le_gt_cases a b) as [Hle | Hgt].
  - replace b with (a + Z.of_nat (Z.to_nat (b - a))) by lia.
    apply floor_path_h_up. intros x Hx. apply Hf. lia.
  - apply floor_path_sym.
    replace a with (b + Z.of_nat (Z.to_nat (a - b))) by lia.
    apply floor_path_h_up. intros x Hx. apply Hf. lia.
Qed.

Lemma floor_path_v g x a b :
  (forall y, Z.min a b <= y <= Z.max a b -> cell g x y = Some FLOOR) ->
  floor_path g (Point.mk x a) (Point.mk x b).
Proof.
  intros Hf. destruct (Z.le_gt_cases a b) as [Hle | Hgt].
  - replace b with (a + Z.of_nat (Z.to_nat (b - a))) by lia.
    apply floor_path_v_up. intros y Hy. apply Hf. lia.
  - apply floor_path_sym.
    replace a with (b + Z.of_nat (Z.to_nat (a - b))) by lia.
    apply floor_path_v_up. intros y Hy. apply Hf. lia.
Qed.

(** A corridor joins its two end points when both lie in the grid. *)
Lemma carveCorridor_path g r x1 y1 x2 y2 g' :
  inBounds x1 y1 = true -> inBounds x2 y2 = true ->
  carveCorridor g r x1 y1 x2 y2 = Ok g' ->
  floor_path g' (Point.mk x1 y1) (Point.mk x2 y2).
Proof.
  intros Hb1 Hb2 H.
  apply inBounds_spec in Hb1 as [Hx1 Hy1]. apply inBounds_spec in Hb2 as [Hx2 Hy2].
  apply carveCorridor_inv in H as [[_ (g1 & H1 & H2)] | [_ (g1 & H1 & H2)]].
  - apply (floor_path_trans _ _ (Point.mk x2 y1)).
    + apply floor_path_h. intros x Hx.
      eapply carved_in_floor; [eapply carveLineV_carved, H2 |].
      eapply carveLineH_floor; [exact H1 |].
      split; [reflexivity | split; [exact Hx | apply inBounds_spec; lia]].
    + apply floor_path_v. intros y Hy.
      eapply carveLineV_floor; [exact H2 |].
      split; [reflexivity | split; [exact Hy | apply inBounds_spec; lia]].
  - apply (floor_path_trans _ _ (Point.mk x1 y2)).
    + apply floor_path_v. intros y Hy.
      eapply carved_in_floor; [eapply carveLineH_carved, H2 |].
      eapply carveLineV_floor; [exact H1 |].
      split; [reflexivity | split; [exact Hy | apply inBounds_spec; lia]].
    + apply floor_path_h. intros x Hx.
      eapply carveLineH_floor; [exact H2 |].
      split; [reflexivity | split; [exact Hx | apply inBounds_spec; lia]].
Qed.

(** Any two cells of a rectangle of FLOOR are joined inside it. *)
Lemma room_floor_path g r x1 y1 x2 y2 :
  room_floor g r -> in_room r x1 y1 -> in_room r x2 y2 ->
  floor_path g (Point.mk x1 y1) (Point.mk x2 y2).
Proof.
  intros Hf [Hx1 Hy1] [Hx2 Hy2].
  apply (floor_path_trans _ _ (Point.mk x2 y1)).
  - apply floor_path_h. intros x Hx. apply Hf. split; lia.
  - apply floor_path_v. intros y Hy. apply Hf. split; lia.
Qed.

(** ** Rooms *)

Lemma roomsOverlap_sym a b : roomsOverlap a b = roomsOverlap b a.
Proof.
  unfold roomsOverlap. f_equal.
  destruct (Room.x a + Room.w a + 1 <=? Room.x b),
           (Room.x b + Room.w b + 1 <=? Room.x a),
           (Room.y a + Room.h a + 1 <=? Room.y b),
           (Room.y b + Room.h b + 1 <=? Room.y a); reflexivity.
Qed.

Lemma roomsOverlap_false a b :
  roomsOverlap a b = false <->
  Room.x a + Room.w a + 1 <= Room.x b \/ Room.x b + Room.w b + 1 <= Room.x a \/
  Room.y a + Room.h a + 1 <= Room.y b \/ Room.y b + Room.h b + 1 <= Room.y a.
Proof. unfold roomsOverlap. lia. Qed.

Lemma carveRoom_carved g x y w h g' :
  carveRoom g x y w h = Ok g' ->
  carved_in (in_room (Room.mk x y w h)) g g' /\
  (0 <= x -> room_floor g' (Room.mk x y w h)).
Proof.
  unfold carveRoom, for_lt. intros Hrun.
  pose (Inv := fun (j : Z) (s : Grid) =>
    carved_in (in_room (Room.mk x y w h)) g s /\
    (0 <= x -> forall x' y', x <= x' < x + w -> y <= y' < j ->
                             cell s x' y' = Some FLOOR)).
  assert (Hend : Inv (y + Z.of_nat (Z.to_nat (y + h - y))) g').
  { apply (for_iter_partial Inv _ _ _ _ _ Hrun).
    - intros yy s1 s2 Hyy [Hc Hf] Hrow.
      pose (InvR := fun (i : Z) (s : Grid) =>
        carved_in (in_room (Room.mk x y w h)) s1 s /\
        (0 <= x -> forall x', x <= x' < i -> cell s x' yy = Some FLOOR)).
      assert (HendR : InvR (x + Z.of_nat (Z.to_nat (x + w - x))) s2).
      { apply (for_iter_partial InvR _ _ _ _ _ Hrow).
        - intros xx t1 t2 Hxx [Hc1 Hf1] Hw.
          pose proof (grid_write_carved _ _ _ _ Hw) as Hcw. split.
          + apply (carved_in_trans _ _ t1); [exact Hc1 |].
            eapply carved_in_weaken; [| exact Hcw].
            intros x' y' [-> ->]. split; cbn; lia.
          + intros Hx x' Hx'. destruct (decide (x' = xx)) as [-> | Hne].
            * eapply cell_write_same; [exact Hw | lia].
            * eapply carved_in_floor; [exact Hcw |]. apply Hf1; [exact Hx | lia].
        - split; [apply carved_in_refl | intros; lia]. }
      destruct HendR as [HcR HfR]. split.
      + eapply carved_in_trans; eassumption.
      + intros Hx x' y' Hx' Hy'. destruct (decide (y' = yy)) as [-> | Hne].
        * apply HfR; [exact Hx | lia].
        * eapply carved_in_floor; [exact HcR |]. apply Hf; [exact Hx | lia | lia].
    - split; [apply carved_in_refl | intros; lia]. }
  destruct Hend as [Hc Hf]. split; [exact Hc |].
  intros Hx x' y' [Hx' Hy']. cbn in Hx', Hy'. apply Hf; [exact Hx | lia | lia].
Qed.

Lemma carveRoom_ok g x y w h :
  grid_ok g -> 0 <= x -> 0 <= y -> x + w <= WIDTH -> y + h <= HEIGHT ->
  exists g', carveRoom g x y w h = Ok g' /\ grid_ok g'.
Proof.
  intros Hok Hx Hy Hw Hh. unfold carveRoom, for_lt.
  destruct (for_iter_total (fun _ s => grid_ok s)
              (fun yy g1 =>
                 for_iter (Z.to_nat (x + w - x)) x
                   (fun xx g2 => grid_write g2 xx yy FLOOR) g1)
              (Z.to_nat (y + h - y)) y g) as (g' & E & Hok');
    [| exact Hok | eauto].
  intros yy s1 Hyy Hs1.
  destruct (for_iter_total (fun _ s => grid_ok s)
              (fun xx g2 => grid_write g2 xx yy FLOOR)
              (Z.to_nat (x + w - x)) x s1) as (s2 & E & Hs2);
    [| exact Hs1 | eauto].
  intros xx t1 Hxx Ht1. apply grid_write_ok; [exact Ht1 |].
  apply inBounds_spec. lia.
Qed.

Lemma existsb_overlap_false rooms c :
  existsb (fun r => roomsOverlap r c) rooms = false ->
  forall r, r ∈ rooms -> roomsOverlap r c = false.
Proof.
  intros H r Hr. apply list_elem_of_In in Hr.
  destruct (roomsOverlap r c) eqn:E; [| reflexivity].
  assert (Ht : existsb (fun r => roomsOverlap r c) rooms = true)
    by (apply existsb_exists; eauto).
  congruence.
Qed.

Lemma rooms_apart_snoc rooms c :
  rooms_apart rooms ->
  (forall r, r ∈ rooms -> roomsOverlap r c = false) ->
  rooms_apart (rooms ++ [c]).
Proof.
  intros Hap Hc i j a b Hij Ha Hb.
  apply lookup_snoc_Some in Ha as [[Hi Ha] | [Hi <-]];
    apply lookup_snoc_Some in Hb as [[Hj Hb] | [Hj <-]].
  - eapply Hap; eassumption.
  - apply Hc. eapply list_elem_of_lookup_2, Ha.
  - rewrite roomsOverlap_sym. apply Hc. eapply list_elem_of_lookup_2, Hb.
  - lia.
Qed.

Section PlaceRooms.
Variable rnd : nat -> Q.
Hypothesis rnd_range : rnd_ok rnd.
Variables (g0 : Grid) (p0 : nat) (roomCount : Z).

Lemma candidate_ok p :
  room_ok
    (let w := randInt (rnd p) ROOM_W_MIN ROOM_W_MAX in
     let h := randInt (rnd (p + 1)%nat) ROOM_H_MIN ROOM_H_MAX in
     Room.mk (randInt (rnd (p + 2)%nat) 2 (WIDTH - w - 3))
             (randInt (rnd (p + 3)%nat) 2 (HEIGHT - h - 3)) w h).
Proof.
  cbv zeta.
  pose proof (randInt_range (rnd p) ROOM_W_MIN ROOM_W_MAX
                (proj1 (rnd_range _)) (proj2 (rnd_range _))) as Hw.
  pose proof (randInt_range (rnd (p + 1)%nat) ROOM_H_MIN ROOM_H_MAX
                (proj1 (rnd_range _)) (proj2 (rnd_range _))) as Hh.
  unfold ROOM_W_MIN, ROOM_W_MAX, ROOM_H_MIN, ROOM_H_MAX in Hw, Hh.
  specialize (Hw ltac:(lia)). specialize (Hh ltac:(lia)).
  set (w := randInt (rnd p) ROOM_W_MIN ROOM_W_MAX) in *.
  set (h := randInt (rnd (p + 1)%nat) ROOM_H_MIN ROOM_H_MAX) in *.
  pose proof (randInt_range (rnd (p + 2)%nat) 2 (WIDTH - w - 3)
                (proj1 (rnd_range _)) (proj2 (rnd_range _))) as Hx.
  pose proof (randInt_range (rnd (p + 3)%nat) 2 (HEIGHT - h - 3)
                (proj1 (rnd_range _)) (proj2 (rnd_range _))) as Hy.
  unfold room_ok, WIDTH, HEIGHT, ROOM_W_MIN, ROOM_W_MAX, ROOM_H_MIN,
    ROOM_H_MAX in *. cbn. lia.
Qed.

Lemma placeRooms_body_inv st :
  place_inv g0 p0 roomCount st -> placeRooms_cond roomCount st = true ->
  exists st', placeRooms_body rnd st = Ok st' /\
              place_inv g0 p0 roomCount st' /\
              pl_attempts st' = pl_attempts st + 1.
Proof.
  intros [Hg Hc Hr Hf Hap Hat Hlen Hcnt Hpos] Hcond.
  unfold placeRooms_cond in Hcond. apply andb_true_iff in Hcond as [Hc1 Hc2].
  apply Z.ltb_lt in Hc1, Hc2.
  unfold placeRooms_body. cbv zeta.
  pose proof (candidate_ok (pl_pos st)) as Hcand. cbv zeta in Hcand.
  set (w := randInt (rnd (pl_pos st)) ROOM_W_MIN ROOM_W_MAX) in *.
  set (h := randInt (rnd (pl_pos st + 1)%nat) ROOM_H_MIN ROOM_H_MAX) in *.
  set (x := randInt (rnd (pl_pos st + 2)%nat) 2 (WIDTH - w - 3)) in *.
  set (y := randInt (rnd (pl_pos st + 3)%nat) 2 (HEIGHT - h - 3)) in *.
  destruct (existsb _ (pl_rooms st)) eqn:Hex.
  - eexists. split; [reflexivity |]. split; [| reflexivity].
    constructor; cbn; try assumption; lia.
  - pose proof Hcand as (Hw1 & Hh1 & Hx1 & Hy1 & Hx2 & Hy2). cbn in *.
    destruct (carveRoom_ok (pl_grid st) x y w h Hg) as (g' & E & Hg');
      [lia | lia | lia | lia |].
    rewrite E. cbn. eexists. split; [reflexivity |]. split; [| reflexivity].
    destruct (carveRoom_carved _ _ _ _ _ _ E) as [Hcr Hfr].
    constructor; cbn.
    + exact Hg'.
    + apply (carved_in_trans _ _ (pl_grid st)).
      * eapply carved_in_weaken; [| exact Hc].
        intros x' y' (r & Hin & Hr'). exists r. split; [| exact Hr'].
        apply elem_of_app. left. exact Hin.
      * eapply carved_in_weaken; [| exact Hcr].
        intros x' y' Hr'. eexists. split; [| exact Hr'].
        apply elem_of_app. right. apply list_elem_of_singleton. reflexivity.
    + apply Forall_app. split; [exact Hr |]. apply Forall_singleton. exact Hcand.
    + apply Forall_app. split.
      * eapply Forall_impl; [exact Hf |]. intros r Hrf x' y' Hin.
        eapply carved_in_floor; [exact Hcr |]. apply Hrf, Hin.
      * apply Forall_singleton. apply Hfr. lia.
    + apply rooms_apart_snoc; [exact Hap |].
      apply existsb_overlap_false. exact Hex.
    + lia.
    + rewrite length_app. cbn. lia.
    + rewrite length_app. cbn. lia.
    + lia.
Qed.

Lemma placeRooms_loop_inv fuel st :
  place_inv g0 p0 roomCount st ->
  ATTEMPT_CAP - pl_attempts st <= Z.of_nat fuel ->
  exists st', placeRooms_loop fuel rnd roomCount st = Ok st' /\
              place_inv g0 p0 roomCount st' /\
              placeRooms_cond roomCount st' = false.
Proof.
  revert st. induction fuel as [| fuel IH]; intros st Hinv Hfuel.
  - cbn. destruct (placeRooms_cond roomCount st) eqn:Hcond; [| eauto].
    unfold placeRooms_cond in Hcond. apply andb_true_iff in Hcond as [_ Hc2].
    apply Z.ltb_lt in Hc2. lia.
  - cbn. destruct (placeRooms_cond roomCount st) eqn:Hcond; [| eauto].
    destruct (placeRooms_body_inv st Hinv Hcond) as (st1 & E & Hinv1 & Hat).
    rewrite E. cbn. apply IH; [exact Hinv1 | lia].
Qed.
End PlaceRooms.

(** ** Sets of room indices *)

Lemma set_has_spec s b : set_has s b = true <-> b ∈ s.
Proof.
  unfold set_has. rewrite existsb_exists. split.
  - intros (c & Hin & E). apply Z.eqb_eq in E. subst c.
    apply list_elem_of_In. exact Hin.
  - intros Hin. exists b. split; [apply list_elem_of_In; exact Hin |].
    apply Z.eqb_refl.
Qed.

Lemma set_has_false s b : set_has s b = false <-> b ∉ s.
Proof.
  rewrite <- set_has_spec. destruct (set_has s b); split; congruence.
Qed.

Lemma set_add_new s b : b ∉ s -> set_add s b = s ++ [b].
Proof.
  intros H. unfold set_add. apply set_has_false in H. rewrite H. reflexivity.
Qed.

Lemma indices_length (l : list Z) n :
  0 <= n -> NoDup l -> (forall a, a ∈ l -> 0 <= a < n) ->
  Z.of_nat (length l) <= n.
Proof.
  intros Hn Hnd Hr.
  assert (Hsub : l ⊆+ seqZ 0 n).
  { apply NoDup_submseteq; [exact Hnd |].
    intros a Ha. apply elem_of_seqZ. specialize (Hr a Ha). lia. }
  apply submseteq_length in Hsub. rewrite length_seqZ in Hsub. lia.
Qed.

Lemma indices_full (l : list Z) n i :
  NoDup l -> (forall a, a ∈ l -> 0 <= a < n) -> Z.of_nat (length l) = n ->
  0 <= i < n -> i ∈ l.
Proof.
  intros Hnd Hr Hlen Hi. destruct (decide (i ∈ l)) as [Hin | Hout]; [exact Hin |].
  assert (Hle : Z.of_nat (length (i :: l)) <= n).
  { apply indices_length.
    - lia.
    - apply NoDup_cons. split; assumption.
    - intros a Ha. apply elem_of_cons in Ha as [-> | Ha]; auto. }
  cbn [length] in Hle. lia.
Qed.

Lemma indices_missing (l : list Z) n :
  Z.of_nat (length l) < n -> exists b, 0 <= b < n /\ b ∉ l.
Proof.
  intros Hlen.
  destruct (decide (Forall (fun b => b ∈ l) (seqZ 0 n))) as [Hall | Hsome].
  - assert (Hsub : seqZ 0 n ⊆+ l).
    { apply NoDup_submseteq; [apply NoDup_seqZ |].
      intros a Ha. exact (proj1 (Forall_forall _ _) Hall a Ha). }
    apply submseteq_length in Hsub. rewrite length_seqZ in Hsub. lia.
  - apply not_Forall_Exists in Hsome; [| intros b; apply _].
    apply Exists_exists in Hsome as (b & Hb & Hout).
    exists b. apply elem_of_seqZ in Hb. split; [lia | exact Hout].
Qed.

(** ** The trace of the connector *)

Section Trace.
Variable centers : list Point.t.
Hypothesis centers_nonempty : 0 < Z.of_nat (length centers).

Lemma prim_trace_range connected edges :
  prim_trace centers connected edges ->
  forall a, a ∈ connected -> 0 <= a < Z.of_nat (length centers).
Proof.
  induction 1 as [| connected edges a b _ IH (_ & [Hb _] & _)]; intros c Hc.
  - apply list_elem_of_singleton in Hc. lia.
  - apply elem_of_app in Hc as [Hc | Hc]; [auto |].
    apply list_elem_of_singleton in Hc. lia.
Qed.

Lemma prim_trace_NoDup connected edges :
  prim_trace centers connected edges -> NoDup connected.
Proof.
  induction 1 as [| connected edges a b _ IH (_ & [_ Hb] & _)].
  - apply NoDup_singleton.
  - apply NoDup_app. split; [exact IH |]. split; [| apply NoDup_singleton].
    intros c Hc Hc'. apply list_elem_of_singleton in Hc'. congruence.
Qed.

Lemma prim_trace_length connected edges :
  prim_trace centers connected edges ->
  length connected = S (length edges).
Proof.
  induction 1; [reflexivity |]. rewrite !length_app. cbn. lia.
Qed.

Lemma prim_trace_first connected edges :
  prim_trace centers connected edges -> 0 ∈ connected.
Proof.
  induction 1; [apply list_elem_of_singleton; reflexivity |].
  apply elem_of_app. left. assumption.
Qed.

Lemma linked_more_edges edges e a b :
  linked edges a b -> linked (edges ++ [e]) a b.
Proof.
  induction 1 as [| a b c _ IH Hbc]; [apply linked_here |].
  eapply linked_more; [exact IH |].
  destruct Hbc; [left | right]; apply elem_of_app; left; assumption.
Qed.

Lemma prim_trace_linked connected edges :
  prim_trace centers connected edges ->
  forall b, b ∈ connected -> linked edges 0 b.
Proof.
  induction 1 as [| connected edges a b _ IH (Ha & _ & _)]; intros c Hc.
  - apply list_elem_of_singleton in Hc. subst c. apply linked_here.
  - apply elem_of_app in Hc as [Hc | Hc].
    + apply linked_more_edges. auto.
    + apply list_elem_of_singleton in Hc. subst c.
      apply (linked_more _ 0 a b).
      * apply linked_more_edges. auto.
      * left. apply elem_of_app. right. apply list_elem_of_singleton.
        reflexivity.
Qed.
End Trace.

(** ** The search for the closest pair *)

Lemma for_of_total {A S} (Inv : list A -> S -> Prop)
    (body : A -> S -> result S) (l : list A) (s : S) :
  (forall pre a post s1, l = pre ++ a :: post -> Inv pre s1 ->
     exists s2, body a s1 = Ok s2 /\ Inv (pre ++ [a]) s2) ->
  Inv [] s ->
  exists s', for_of l body s = Ok s' /\ Inv l s'.
Proof.
  intros Hbody.
  assert (Haux : forall rest pre s1, l = pre ++ rest -> Inv pre s1 ->
            exists s', for_of rest body s1 = Ok s' /\ Inv l s').
  { induction rest as [| a rest IH]; intros pre s1 Hl Hinv.
    - rewrite app_nil_r in Hl. subst pre. exists s1. split; [reflexivity | exact Hinv].
    - destruct (Hbody pre a rest s1 Hl Hinv) as (s2 & E & Hinv2).
      destruct (IH (pre ++ [a]) s2) as (s' & E' & Hinv'); [| exact Hinv2 |].
      { rewrite <- app_assoc. exact Hl. }
      exists s'. split; [| exact Hinv']. cbn. rewrite E. exact E'. }
  intros Hinv. apply (Haux l [] s); [reflexivity | exact Hinv].
Qed.

Lemma at_index_Ok {A} (l : list A) i :
  0 <= i < Z.of_nat (length l) ->
  exists a, get l i = Some a /\ at_index l i = Ok a.
Proof.
  intros Hi. destruct (get_lt l i Hi) as [a Ha]. exists a.
  unfold at_index. rewrite Ha. auto.
Qed.

Section FindBest.
Variables (centers : list Point.t) (connected : list Z).

Local Abbreviation n := (Z.of_nat (length centers)).

Lemma best_inv_ext (seen seen' : Z -> Z -> Prop) best :
  (forall a b, seen' a b -> seen a b) ->
  best_inv centers connected seen best ->
  best_inv centers connected seen' best.
Proof.
  intros Hsub. unfold best_inv. destruct (bestDist best) as [d |].
  - intros (Ha & Hb & Hd & Hmin).
    split; [exact Ha |]. split; [exact Hb |]. split; [exact Hd |].
    intros a b Hs. apply Hmin, Hsub, Hs.
  - intros (Ha & Hb & Hnone).
    split; [exact Ha |]. split; [exact Hb |].
    intros a b Hs. eapply Hnone, Hsub, Hs.
Qed.

Lemma scan_step_inv (seen : Z -> Z -> Prop) a b best :
  a ∈ connected -> 0 <= a < n -> 0 <= b < n ->
  best_inv centers connected seen best ->
  exists best', scan_step centers connected a b best = Ok best' /\
    best_inv centers connected
      (fun a' b' => seen a' b' \/ (a' = a /\ b' = b)) best'.
Proof.
  intros Ha Hra Hrb Hinv. unfold scan_step.
  destruct (set_has connected b) eqn:Hhas.
  - exists best. split; [reflexivity |].
    apply set_has_spec in Hhas. unfold best_inv in *.
    destruct (bestDist best) as [d |].
    + destruct Hinv as (H1 & H2 & H3 & Hmin).
      split; [exact H1 |]. split; [exact H2 |]. split; [exact H3 |].
      intros a' b' [Hs | [-> ->]] Hout; [auto | contradiction].
    + destruct Hinv as (H1 & H2 & Hnone).
      split; [exact H1 |]. split; [exact H2 |].
      intros a' b' [Hs | [-> ->]]; [eauto | assumption].
  - apply set_has_false in Hhas.
    destruct (at_index_Ok centers a Hra) as (ca & Hca & Eca).
    destruct (at_index_Ok centers b Hrb) as (cb & Hcb & Ecb).
    rewrite Eca. cbn. rewrite Ecb. cbn.
    assert (Hd : manhattan ca cb = dist_between centers a b)
      by (unfold dist_between; rewrite Hca, Hcb; reflexivity).
    rewrite Hd. unfold best_inv in Hinv.
    destruct (bestDist best) as [m |] eqn:Ebest; cbn.
    + destruct Hinv as (H1 & H2 & H3 & Hmin).
      destruct (Z.ltb_spec (dist_between centers a b) m) as [Hlt | Hge].
      * eexists. split; [reflexivity |]. unfold best_inv. cbn.
        split; [exact Ha |]. split; [split; [exact Hrb | exact Hhas] |].
        split; [reflexivity |].
        intros a' b' [Hs | [-> ->]] Hout; [| lia].
        specialize (Hmin a' b' Hs Hout). lia.
      * exists best. split; [reflexivity |]. unfold best_inv. rewrite Ebest.
        split; [exact H1 |]. split; [exact H2 |]. split; [exact H3 |].
        intros a' b' [Hs | [-> ->]] Hout; [auto | lia].
    + destruct Hinv as (H1 & H2 & Hnone).
      eexists. split; [reflexivity |]. unfold best_inv. cbn.
      split; [exact Ha |]. split; [split; [exact Hrb | exact Hhas] |].
      split; [reflexivity |].
      intros a' b' [Hs | [-> ->]] Hout; [| lia].
      exfalso. apply Hout. eapply Hnone, Hs.
Qed.

Lemma scan_row_inv (seen : Z -> Z -> Prop) a best :
  a ∈ connected -> 0 <= a < n ->
  best_inv centers connected seen best ->
  exists best',
    for_lt 0 n (fun b best1 => scan_step centers connected a b best1) best
    = Ok best' /\
    best_inv centers connected
      (fun a' b' => seen a' b' \/ (a' = a /\ 0 <= b' < n)) best'.
Proof.
  intros Ha Hra Hinv. unfold for_lt.
  destruct (for_iter_total
    (fun j best1 => best_inv centers connected
       (fun a' b' => seen a' b' \/ (a' = a /\ 0 <= b' < j)) best1)
    (fun b best1 => scan_step centers connected a b best1)
    (Z.to_nat (n - 0)) 0 best) as (best' & E & Hinv').
  - intros j best1 Hj Hinv1.
    destruct (scan_step_inv _ a j best1 Ha Hra ltac:(lia) Hinv1)
      as (best2 & E2 & Hinv2).
    exists best2. split; [exact E2 |].
    eapply best_inv_ext; [| exact Hinv2].
    intros a' b' [Hs | [-> Hb]]; [left; left; exact Hs |].
    destruct (decide (b' = j)) as [-> | Hne];
      [right; auto | left; right; split; [reflexivity | lia]].
  - eapply best_inv_ext; [| exact Hinv].
    intros a' b' [Hs | [_ Hb]]; [exact Hs | lia].
  - exists best'. split; [exact E |].
    eapply best_inv_ext; [| exact Hinv'].
    intros a' b' [Hs | [-> Hb]]; [left; exact Hs | right; split; [reflexivity | lia]].
Qed.

Hypothesis connected_range : forall a, a ∈ connected -> 0 <= a < n.

Lemma findBest_inv :
  exists best, findBest centers connected = Ok best /\
    best_inv centers connected
      (fun a b => a ∈ connected /\ 0 <= b < n) best.
Proof.
  unfold findBest.
  destruct (for_of_total
    (fun pre best => best_inv centers connected
       (fun a b => a ∈ pre /\ 0 <= b < n) best)
    (fun a best =>
       for_lt 0 (Z.of_nat (length centers))
         (fun b best' => scan_step centers connected a b best') best)
    connected (mkBest (-1) (-1) None)) as (best & E & Hinv).
  - intros pre a post best1 Hl Hinv1.
    assert (Ha : a ∈ connected).
    { rewrite Hl. apply elem_of_app. right. apply elem_of_cons. left. reflexivity. }
    destruct (scan_row_inv _ a best1 Ha (connected_range a Ha) Hinv1)
      as (best2 & E2 & Hinv2).
    exists best2. split; [exact E2 |].
    eapply best_inv_ext; [| exact Hinv2].
    intros a' b' [Hin Hb]. apply elem_of_app in Hin as [Hin | Hin].
    + left. auto.
    + apply list_elem_of_singleton in Hin. right. auto.
  - unfold best_inv. cbn. split; [reflexivity |]. split; [reflexivity |].
    intros a b [Hin _]. apply elem_of_nil in Hin. contradiction.
  - exists best. split; [exact E |]. exact Hinv.
Qed.

(** With a connected room and an unconnected one, the search returns a
    closest pair, and neither index is the initial [-1]. *)
Lemma findBest_found a0 b0 :
  a0 ∈ connected -> unconnected centers connected b0 ->
  exists best, findBest centers connected = Ok best /\
    closest_pair centers connected (bestA best) (bestB best) /\
    bestA best <> -1 /\ bestB best <> -1 /\
    bestDist best
    = Some (dist_between centers (bestA best) (bestB best)).
Proof.
  intros Ha0 [Hb0 Hout0].
  destruct findBest_inv as (best & E & Hinv).
  exists best. split; [exact E |]. unfold best_inv in Hinv.
  destruct (bestDist best) as [d |].
  - destruct Hinv as (Ha & Hb & Hd & Hmin).
    pose proof (connected_range _ Ha) as Hra.
    pose proof Hb as [Hrb _].
    split; [| split; [lia | split; [lia | congruence]]].
    split; [exact Ha |]. split; [exact Hb |].
    intros a' b' Ha' [Hrb' Hout']. rewrite <- Hd.
    apply Hmin; [split; assumption | exact Hout'].
  - destruct Hinv as (_ & _ & Hnone).
    exfalso. apply Hout0. apply (Hnone a0 b0). split; assumption.
Qed.
End FindBest.

(** ** The loop of the connector *)

Section Connect.
Variable rnd : nat -> Q.
Variables (centers : list Point.t) (g0 : Grid) (p0 : nat).
Hypothesis centers_nonempty : 0 < Z.of_nat (length centers).

Local Abbreviation n := (Z.of_nat (length centers)).

Lemma connect_step_inv st :
  conn_inv centers g0 p0 st ->
  Z.of_nat (length (cn_connected st)) < n ->
  exists best ca cb g,
    findBest centers (cn_connected st) = Ok best /\
    (negb (bestA best =? -1) && negb (bestB best =? -1) = true) /\
    at_index centers (bestA best) = Ok ca /\
    at_index centers (bestB best) = Ok cb /\
    carveCorridor (cn_grid st) (rnd (cn_pos st))
      (Point.x ca) (Point.y ca) (Point.x cb) (Point.y cb) = Ok g /\
    conn_inv centers g0 p0
      (mkConn g (set_add (cn_connected st) (bestB best))
              (cn_pos st + 1)%nat
              (cn_edges st ++ [(bestA best, bestB best)]) false).
Proof.
  intros [Hg Hc Htr Hpaths Hpos Hbr] Hlt.
  pose proof (prim_trace_range centers centers_nonempty _ _ Htr) as Hrange.
  destruct (indices_missing (cn_connected st) n Hlt) as (b0 & Hb0 & Hout0).
  destruct (findBest_found centers (cn_connected st) Hrange 0 b0
              (prim_trace_first _ _ _ Htr) (conj Hb0 Hout0))
    as (best & E & Hcl & HA & HB & _).
  pose proof Hcl as (HinA & [HrB HoutB] & _).
  destruct (at_index_Ok centers (bestA best) (Hrange _ HinA)) as (ca & Hca & Eca).
  destruct (at_index_Ok centers (bestB best) HrB) as (cb & Hcb & Ecb).
  destruct (carveCorridor_ok (cn_grid st) (rnd (cn_pos st))
              (Point.x ca) (Point.y ca) (Point.x cb) (Point.y cb) Hg)
    as (g & Eg & Hg').
  exists best, ca, cb, g. split; [exact E |]. split.
  { apply andb_true_iff. split; apply negb_true_iff, Z.eqb_neq; assumption. }
  split; [exact Eca |]. split; [exact Ecb |]. split; [exact Eg |].
  pose proof (carveCorridor_carved _ _ _ _ _ _ _ Eg) as Hcg.
  rewrite (set_add_new _ _ HoutB).
  constructor; cbn.
  - exact Hg'.
  - eapply carved_in_trans; eassumption.
  - apply pt_step; assumption.
  - intros Hin a c0 c Ha Hc0 Hf0 Hc'.
    apply elem_of_app in Ha as [Ha | Ha].
    + eapply floor_path_carved; [exact Hcg |]. eapply Hpaths; eassumption.
    + apply list_elem_of_singleton in Ha. subst a.
      assert (c = cb) by congruence. subst c.
      apply (floor_path_trans _ _ ca).
      * eapply floor_path_carved; [exact Hcg |]. eapply Hpaths; eassumption.
      * assert (Hbnd : forall i c, get centers i = Some c -> point_in_bounds c).
        { intros i c Hi. apply get_Some in Hi as [_ Hi].
          exact (proj1 (Forall_lookup _ _) Hin _ _ Hi). }
        destruct ca as [xa ya], cb as [xb yb].
        eapply carveCorridor_path; [exact (Hbnd _ _ Hca) | exact (Hbnd _ _ Hcb) |].
        exact Eg.
  - rewrite length_app. cbn. lia.
  - reflexivity.
Qed.

Lemma connect_loop_inv fuel st :
  conn_inv centers g0 p0 st ->
  n - Z.of_nat (length (cn_connected st)) <= Z.of_nat fuel ->
  exists st', connect_loop fuel rnd centers st = Ok st' /\
              conn_inv centers g0 p0 st' /\
              Z.of_nat (length (cn_connected st')) = n.
Proof.
  revert st. induction fuel as [| fuel IH]; intros st Hinv Hfuel.
  - cbn. destruct (Z.ltb_spec (Z.of_nat (length (cn_connected st))) n); [lia |].
    exists st. split; [reflexivity |]. split; [exact Hinv |].
    pose proof (ci_trace _ _ _ _ Hinv) as Htr.
    pose proof (indices_length (cn_connected st) n ltac:(lia)
                  (prim_trace_NoDup _ _ _ Htr)
                  (prim_trace_range _ centers_nonempty _ _ Htr)).
    lia.
  - cbn. destruct (Z.ltb_spec (Z.of_nat (length (cn_connected st))) n) as [Hlt | Hge].
    + destruct (connect_step_inv st Hinv Hlt)
        as (best & ca & cb & g & E & Hif & Eca & Ecb & Eg & Hinv').
      rewrite E. cbn. rewrite Hif, Eca. cbn. rewrite Ecb. cbn. rewrite Eg. cbn.
      apply IH; [exact Hinv' |]. cbn.
      pose proof (ci_trace _ _ _ _ Hinv') as Htr. cbn in Htr.
      apply prim_trace_length in Htr.
      pose proof (prim_trace_length _ _ _ (ci_trace _ _ _ _ Hinv)) as Htr0.
      rewrite length_app in Htr. cbn in Htr. lia.
    + exists st. split; [reflexivity |]. split; [exact Hinv |].
      pose proof (ci_trace _ _ _ _ Hinv) as Htr.
      pose proof (indices_length (cn_connected st) n ltac:(lia)
                    (prim_trace_NoDup _ _ _ Htr)
                    (prim_trace_range _ centers_nonempty _ _ Htr)).
      lia.
Qed.
End Connect.

(** ** Fuel *)

Lemma placeRooms_loop_fuel rnd roomCount fuel fuel' st st' :
  placeRooms_loop fuel rnd roomCount st = Ok st' -> (fuel <= fuel')%nat ->
  placeRooms_loop fuel' rnd roomCount st = Ok st'.
Proof.
  revert fuel' st. induction fuel as [| fuel IH]; intros fuel' st Hrun Hle.
  - cbn in Hrun. destruct (placeRooms_cond roomCount st) eqn:Hc; [discriminate |].
    destruct fuel'; cbn; rewrite Hc; exact Hrun.
  - destruct fuel' as [| fuel']; [lia |]. cbn in *.
    destruct (placeRooms_cond roomCount st); [| exact Hrun].
    destruct (placeRooms_body rnd st) as [st1 | |]; try discriminate.
    cbn in *. apply IH; [exact Hrun | lia].
Qed.

Lemma connect_loop_fuel rnd centers fuel fuel' st st' :
  connect_loop fuel rnd centers st = Ok st' -> (fuel <= fuel')%nat ->
  connect_loop fuel' rnd centers st = Ok st'.
Proof.
  revert fuel' st. induction fuel as [| fuel IH]; intros fuel' st Hrun Hle.
  - cbn in Hrun.
    destruct (Z.of_nat (length (cn_connected st)) <? Z.of_nat (length centers))
      eqn:Hc; [discriminate |].
    destruct fuel'; cbn; rewrite Hc; exact Hrun.
  - destruct fuel' as [| fuel']; [lia |]. cbn in *.
    destruct (Z.of_nat (length (cn_connected st)) <? Z.of_nat (length centers));
      [| exact Hrun].
    destruct (findBest centers (cn_connected st)) as [best | |]; try discriminate.
    cbn in *.
    destruct (negb (bestA best =? -1) && negb (bestB best =? -1)); [| exact Hrun].
    destruct (at_index centers (bestA best)) as [ca | |]; try discriminate.
    cbn in *.
    destruct (at_index centers (bestB best)) as [cb | |]; try discriminate.
    cbn in *.
    destruct (carveCorridor _ _ _ _ _ _) as [g | |]; try discriminate.
    cbn in *. apply IH; [exact Hrun | lia].
Qed.

(** ** Every function only adds FLOOR, on any grid *)

Lemma carved_floor_only P g g' : carved_in P g g' -> floor_only g g'.
Proof.
  intros H. split; intros x y Hxy.
  - destruct (H x y) as [E | [_ E]]; [contradiction | exact E].
  - eapply carved_in_floor; eassumption.
Qed.

Lemma placeRooms_body_carved rnd st st' :
  placeRooms_body rnd st = Ok st' -> carved (pl_grid st) (pl_grid st').
Proof.
  unfold placeRooms_body. cbv zeta.
  destruct (existsb _ (pl_rooms st)).
  - intros [= <-]. apply carved_in_refl.
  - intros H. apply bind_Ok in H as (g & Hg & [= <-]). cbn.
    apply carveRoom_carved in Hg as [Hg _].
    eapply carved_in_weaken; [| exact Hg]. auto.
Qed.

Lemma placeRooms_loop_carved rnd roomCount fuel st st' :
  placeRooms_loop fuel rnd roomCount st = Ok st' ->
  carved (pl_grid st) (pl_grid st').
Proof.
  revert st. induction fuel as [| fuel IH]; intros st; cbn;
    destruct (placeRooms_cond roomCount st);
    try discriminate; try (intros [= <-]; apply carved_in_refl).
  intros H. apply bind_Ok in H as (st1 & H1 & H2).
  eapply carved_in_trans; [eapply placeRooms_body_carved, H1 | apply IH, H2].
Qed.

Lemma connect_loop_carved rnd centers fuel st st' :
  connect_loop fuel rnd centers st = Ok st' ->
  carved (cn_grid st) (cn_grid st').
Proof.
  revert st. induction fuel as [| fuel IH]; intros st; cbn;
    destruct (Z.of_nat (length (cn_connected st)) <? Z.of_nat (length centers));
    try discriminate; try (intros [= <-]; apply carved_in_refl).
  intros H. apply bind_Ok in H as (best & _ & H).
  destruct (negb (bestA best =? -1) && negb (bestB best =? -1)).
  - apply bind_Ok in H as (ca & _ & H). apply bind_Ok in H as (cb & _ & H).
    apply bind_Ok in H as (g & Hg & H).
    eapply carved_in_trans; [eapply carveCorridor_carved, Hg |].
    apply IH in H. exact H.
  - injection H as <-. apply carved_in_refl.
Qed.

Lemma placeRooms_carved rnd p g roomCount rooms g' p' :
  placeRooms rnd p g roomCount = Ok (rooms, g', p') -> carved g g'.
Proof.
  unfold placeRooms, placeRooms_from. intros H.
  apply bind_Ok in H as (st & H & [= _ <- _]).
  apply placeRooms_loop_carved in H. exact H.
Qed.

Lemma connectRooms_carved rnd p g rooms g' p' :
  connectRoomsWithCorridors rnd p g rooms = Ok (g', p') -> carved g g'.
Proof.
  unfold connectRoomsWithCorridors, connect_run. intros H.
  apply bind_Ok in H as (st & H & [= <- _]).
  destruct (length rooms =? 0)%nat.
  - injection H as <-. apply carved_in_refl.
  - apply connect_loop_carved in H. exact H.
Qed.

Lemma generateDungeon_inv rnd p roomCount g rooms p' :
  generateDungeon rnd p roomCount = Ok (g, rooms, p') ->
  exists g1 p1,
    placeRooms rnd p (createGrid WIDTH HEIGHT WALL) roomCount
    = Ok (rooms, g1, p1) /\
    connectRoomsWithCorridors rnd p1 g1 rooms = Ok (g, p').
Proof.
  unfold generateDungeon. intros H.
  apply bind_Ok in H as ([[rooms1 g1] p1] & H1 & H).
  apply bind_Ok in H as ([g2 p2] & H2 & [= <- <- <-]). eauto.
Qed.

(** ** The two stages as a whole *)

Lemma rnd_zero_ok : rnd_ok rnd_zero.
Proof. intros n. split; [apply Qle_refl | reflexivity]. Qed.

Lemma rnd_cycle_ok : rnd_ok rnd_cycle.
Proof.
  intros n. unfold rnd_cycle.
  pose proof (Nat.mod_upper_bound (37 * n + 11) 101 ltac:(lia)) as Hup.
  split; [unfold Qle | unfold Qlt]; cbn; lia.
Qed.

Lemma place_inv_start g p roomCount :
  grid_ok g -> place_inv g p roomCount (mkPlace g [] 0 p).
Proof.
  intros Hg. constructor; cbn.
  - exact Hg.
  - apply carved_in_refl.
  - constructor.
  - constructor.
  - intros i j a b _ Ha. rewrite lookup_nil in Ha. discriminate.
  - unfold ATTEMPT_CAP. lia.
  - lia.
  - lia.
  - lia.
Qed.

Lemma placeRooms_total rnd p g roomCount :
  rnd_ok rnd -> grid_ok g ->
  exists st,
    placeRooms_from (Z.to_nat ATTEMPT_CAP) rnd p g roomCount = Ok st /\
    place_inv g p roomCount st /\
    placeRooms_cond roomCount st = false /\
    placeRooms rnd p g roomCount = Ok (pl_rooms st, pl_grid st, pl_pos st).
Proof.
  intros Hrnd Hg.
  destruct (placeRooms_loop_inv rnd Hrnd g p roomCount (Z.to_nat ATTEMPT_CAP)
              (mkPlace g [] 0 p) (place_inv_start g p roomCount Hg))
    as (st & E & Hinv & Hcond); [cbn; lia |].
  exists st. unfold placeRooms, placeRooms_from. rewrite E. auto.
Qed.

Lemma placeRooms_Ok_inv rnd p g roomCount rooms g' p' :
  rnd_ok rnd -> grid_ok g ->
  placeRooms rnd p g roomCount = Ok (rooms, g', p') ->
  exists st, place_inv g p roomCount st /\ placeRooms_cond roomCount st = false /\
             pl_rooms st = rooms /\ pl_grid st = g' /\ pl_pos st = p'.
Proof.
  intros Hrnd Hg H.
  destruct (placeRooms_total rnd p g roomCount Hrnd Hg)
    as (st & _ & Hinv & Hcond & E).
  rewrite E in H. injection H as <- <- <-. eauto 6.
Qed.

Lemma center_in_room r :
  room_ok r -> in_room r (Point.x (center r)) (Point.y (center r)).
Proof.
  intros (Hw & Hh & _). rewrite center_eq. cbn.
  unfold ROOM_W_MIN, ROOM_H_MIN in *.
  pose proof (Z.div_pos (Room.w r) 2). pose proof (Z.div_lt (Room.w r) 2).
  pose proof (Z.div_pos (Room.h r) 2). pose proof (Z.div_lt (Room.h r) 2).
  split; lia.
Qed.

Lemma room_ok_in_bounds r x y :
  room_ok r -> in_room r x y -> inBounds x y = true.
Proof.
  intros (_ & _ & Hx & Hy & Hxw & Hyh) [Hix Hiy]. apply inBounds_spec.
  unfold WIDTH, HEIGHT in *. lia.
Qed.

Lemma get_map_center rooms i c :
  get (map center rooms) i = Some c <->
  exists r, get rooms i = Some r /\ c = center r.
Proof.
  rewrite get_Some. change (map center rooms) with (center <$> rooms).
  rewrite list_lookup_fmap. split.
  - intros [Hi H]. destruct (rooms !! Z.to_nat i) as [r |] eqn:E; [| discriminate].
    injection H as <-. exists r. split; [apply get_Some; auto | reflexivity].
  - intros (r & Hr & ->). apply get_Some in Hr as [Hi Hr]. rewrite Hr. auto.
Qed.

Lemma conn_inv_start centers g p :
  grid_ok g -> conn_inv centers g p (mkConn g (set_add [] 0) p [] false).
Proof.
  intros Hg. constructor; cbn.
  - exact Hg.
  - apply carved_in_refl.
  - apply pt_start.
  - intros _ a c0 ca Ha Hc0 Hf Hca.
    apply list_elem_of_singleton in Ha. subst a. cbn in Hca.
    assert (ca = c0) by congruence. subst ca. apply fp_here. exact Hf.
  - lia.
  - reflexivity.
Qed.

Lemma connect_total rnd p g rooms fuel :
  grid_ok g -> rooms <> [] -> (length rooms - 1 <= fuel)%nat ->
  exists st,
    connect_run fuel rnd p g rooms = Ok st /\
    conn_inv (map center rooms) g p st /\
    length (cn_connected st) = length rooms.
Proof.
  intros Hg Hne Hfuel. unfold connect_run.
  destruct rooms as [| r rooms]; [congruence |].
  change (length (r :: rooms) =? 0)%nat with false. cbv iota zeta.
  destruct (connect_loop_inv rnd (map center (r :: rooms)) g p
              ltac:(cbn; lia) fuel _ (conn_inv_start _ g p Hg))
    as (st & E & Hinv & Hlen).
  - rewrite length_map. cbn in *. lia.
  - exists st. rewrite length_map in Hlen. split; [exact E |].
    split; [exact Hinv | lia].
Qed.

Lemma sample_placed_eq :
  placeRooms rnd_cycle 0 grid0 2 = Ok (sample_rooms, sample_grid, sample_pos).
Proof. vm_compute. reflexivity. Qed.

Example sample_rooms_eq :
  sample_rooms = [Room.mk 49 13 4 6; Room.mk 17 35 9 10] /\ sample_pos = 8%nat.
Proof. vm_compute. split; reflexivity. Qed.

Lemma grid0_ok : grid_ok grid0.
Proof. apply createGrid_ok. Qed.

Lemma generateDungeon_total rnd p roomCount :
  rnd_ok rnd ->
  exists g rooms p',
    generateDungeon rnd p roomCount = Ok (g, rooms, p') /\ grid_ok g.
Proof.
  intros Hrnd.
  destruct (placeRooms_total rnd p grid0 roomCount Hrnd grid0_ok)
    as (st & _ & Hinv & _ & E).
  pose proof (pi_grid _ _ _ _ Hinv) as Hg1.
  unfold generateDungeon. fold grid0. rewrite E. cbn.
  destruct (pl_rooms st) as [| r rooms] eqn:Er.
  - exists (pl_grid st), [], (pl_pos st). split; [reflexivity | exact Hg1].
  - destruct (connect_total rnd (pl_pos st) (pl_grid st) (r :: rooms)
                (length (r :: rooms)) Hg1 ltac:(discriminate) ltac:(lia))
      as (cs & Ec & Hcinv & _).
    exists (cn_grid cs), (r :: rooms), (cn_pos cs).
    unfold connectRoomsWithCorridors. rewrite Ec.
    split; [reflexivity | exact (ci_grid _ _ _ _ Hcinv)].
Qed.

(** ** The corridors in the grid *)

Lemma carveCorridor_carved_in g r x1 y1 x2 y2 g' :
  carveCorridor g r x1 y1 x2 y2 = Ok g' ->
  carved_in (on_corridor (lessThanHalf r) x1 y1 x2 y2) g g'.
Proof.
  intros H.
  apply carveCorridor_inv in H as [[Hh (g1 & H1 & H2)] | [Hh (g1 & H1 & H2)]];
    rewrite Hh; cbn; apply (carved_in_trans _ _ g1).
  - eapply carved_in_weaken; [| eapply carveLineH_carved, H1].
    intros x y Hon. left. exact Hon.
  - eapply carved_in_weaken; [| eapply carveLineV_carved, H2].
    intros x y Hon. right. exact Hon.
  - eapply carved_in_weaken; [| eapply carveLineV_carved, H1].
    intros x y Hon. left. exact Hon.
  - eapply carved_in_weaken; [| eapply carveLineH_carved, H2].
    intros x y Hon. right. exact Hon.
Qed.

Lemma at_index_get {A} (l : list A) i a :
  at_index l i = Ok a -> get l i = Some a.
Proof.
  unfold at_index. destruct (get l i); [intros [= ->]; reflexivity | discriminate].
Qed.

Lemma corridor_cells_snoc rnd centers p0 edges e x y :
  corridor_cells rnd centers p0 edges x y ->
  corridor_cells rnd centers p0 (edges ++ [e]) x y.
Proof.
  intros (k & a & b & ca & cb & Hk & Ha & Hb & Hon).
  exists k, a, b, ca, cb. split; [| auto].
  apply lookup_app_l_Some. exact Hk.
Qed.

Lemma corridor_cells_last rnd centers p0 edges a b ca cb x y :
  get centers a = Some ca -> get centers b = Some cb ->
  on_corridor (lessThanHalf (rnd (p0 + length edges)%nat))
    (Point.x ca) (Point.y ca) (Point.x cb) (Point.y cb) x y ->
  corridor_cells rnd centers p0 (edges ++ [(a, b)]) x y.
Proof.
  intros Ha Hb Hon. exists (length edges), a, b, ca, cb.
  split; [| auto]. apply list_lookup_middle. reflexivity.
Qed.

(** A turn of the loop carves the corridor of the pair it records, with
    the draw at the position of that pair, and leaves the corridors
    carved before as they are. *)
Lemma corridors_inv_loop rnd centers p0 g0 fuel st st' :
  corridors_inv rnd centers p0 g0 st ->
  connect_loop fuel rnd centers st = Ok st' ->
  corridors_inv rnd centers p0 g0 st'.
Proof.
  revert st. induction fuel as [| fuel IH]; intros st Hinv; cbn;
    destruct (Z.of_nat (length (cn_connected st)) <? Z.of_nat (length centers));
    try discriminate; try (intros [= <-]; exact Hinv).
  intros H. apply bind_Ok in H as (best & Hbest & H).
  destruct (negb (bestA best =? -1) && negb (bestB best =? -1)).
  - apply bind_Ok in H as (ca & Hca & H). apply bind_Ok in H as (cb & Hcb & H).
    apply bind_Ok in H as (g & Hg & H).
    apply at_index_get in Hca, Hcb.
    destruct Hinv as (Hpos & Hfloor & Hcarved & Hpaths).
    rewrite Hpos in Hg.
    pose proof (carveCorridor_carved_in _ _ _ _ _ _ _ Hg) as Hnew.
    refine (IH _ _ H). repeat split; cbn [cn_pos cn_edges cn_grid].
    + rewrite length_app. cbn. lia.
    + intros x y (k & a & b & ca' & cb' & Hk & Ha & Hb & Hon).
      apply lookup_snoc_Some in Hk as [[Hlt Hk] | [-> [= <- <-]]].
      * eapply carved_in_floor; [exact Hnew |]. apply Hfloor.
        exists k, a, b, ca', cb'. auto.
      * rewrite Hca in Ha. rewrite Hcb in Hb.
        injection Ha as <-. injection Hb as <-.
        eapply carveCorridor_floor; eassumption.
    + apply (carved_in_trans _ _ (cn_grid st)).
      * eapply carved_in_weaken; [| exact Hcarved].
        intros x y. apply corridor_cells_snoc.
      * eapply carved_in_weaken; [| exact Hnew].
        intros x y. apply corridor_cells_last; assumption.
    + intros k a b ca' cb' Hk Ha Hb Hba Hbb.
      apply lookup_snoc_Some in Hk as [[Hlt Hk] | [-> [= <- <-]]].
      * eapply floor_path_carved; [exact Hnew |]. eapply Hpaths; eassumption.
      * rewrite Hca in Ha. rewrite Hcb in Hb.
        injection Ha as <-. injection Hb as <-.
        destruct ca as [xa ya], cb as [xb yb].
        eapply carveCorridor_path; eassumption.
  - injection H as <-. exact Hinv.
Qed.

Lemma corridors_inv_start rnd centers p0 (g0 : Grid) connected :
  corridors_inv rnd centers p0 g0 (mkConn g0 connected p0 [] false).
Proof.
  assert (Hnone : forall x y, ~ corridor_cells rnd centers p0 [] x y).
  { intros x y (k & a & b & ca & cb & Hk & _). rewrite lookup_nil in Hk.
    discriminate. }
  repeat split; cbn [cn_pos cn_edges cn_grid].
  - cbn. lia.
  - intros x y H. destruct (Hnone x y H).
  - apply carved_in_refl.
  - intros k a b ca cb Hk. rewrite lookup_nil in Hk. discriminate.
Qed.

Lemma connect_run_corridors rnd p (g : Grid) rooms fuel st :
  connect_run fuel rnd p g rooms = Ok st ->
  corridors_carved rnd (map center rooms) p g (cn_edges st) (cn_grid st).
Proof.
  intros H.
  assert (Hinv : corridors_inv rnd (map center rooms) p g st).
  { unfold connect_run in H. destruct (length rooms =? 0)%nat.
    - injection H as <-. apply corridors_inv_start.
    - eapply corridors_inv_loop; [apply corridors_inv_start | exact H]. }
  destruct Hinv as (_ & Hfloor & Hcarved & Hpaths).
  split; [exact Hfloor |]. split; [| exact Hpaths].
  intros x y Hout. eapply carved_in_outside; eassumption.
Qed.

(** * The claims *)

(** C9. For a room with integer fields, the center the connector
    computes is [(x + floor(w / 2), y + floor(h / 2))]: the list of
    centers it builds from the rooms holds exactly these points. *)
Theorem connector_centers (rooms : list Room.t) :
  map center rooms
  = map (fun r => Point.mk (Room.x r + Room.w r / 2)
                           (Room.y r + Room.h r / 2)) rooms.
Proof. apply map_ext. intros r. apply center_eq. Qed.

(** C8. [generateDungeon(0)] returns no room and the grid of
    [createGrid], every cell of which is WALL, without drawing a random
    number; and on an empty list of rooms the connector returns the
    grid as it got it. *)
Theorem generate_zero (rnd : nat -> Q) (p : nat) :
  generateDungeon rnd p 0 = Ok (grid0, [], p) /\
  Forall (Forall (fun s => s = Some WALL)) grid0 /\
  (forall x y, inBounds x y = true -> cell grid0 x y = Some WALL) /\
  (forall (g : Grid) q, connectRoomsWithCorridors rnd q g [] = Ok (g, q)) /\
  (forall (g : Grid) q fuel,
     connect_run fuel rnd q g [] = Ok (mkConn g [] q [] false)).
Proof.
  split; [reflexivity |]. split; [| split; [| split]].
  - unfold grid0, createGrid. apply Forall_replicate, Forall_replicate.
    reflexivity.
  - intros x y Hb. apply inBounds_spec in Hb. unfold grid0.
    rewrite createGrid_cell.
    destruct (Z.leb_spec 0 x), (Z.ltb_spec x WIDTH), (Z.leb_spec 0 y),
      (Z.ltb_spec y HEIGHT); try lia. reflexivity.
  - reflexivity.
  - reflexivity.
Qed.

(** C5. Every room [placeRooms] returns keeps the margins: [2 <= x],
    [2 <= y], [x + w <= WIDTH - 3] and [y + h <= HEIGHT - 3]; its sides
    are positive and each of its cells is a cell of the grid at least
    two cells away from every edge. *)
Theorem placeRooms_margins (rnd : nat -> Q) (p : nat) (g : Grid)
    (roomCount : Z) (rooms : list Room.t) (g' : Grid) (p' : nat) :
  rnd_ok rnd -> grid_ok g ->
  placeRooms rnd p g roomCount = Ok (rooms, g', p') ->
  forall r, r ∈ rooms ->
    (2 <= Room.x r /\ 2 <= Room.y r /\
     Room.x r + Room.w r <= WIDTH - 3 /\ Room.y r + Room.h r <= HEIGHT - 3) /\
    (0 < Room.w r /\ 0 < Room.h r) /\
    (forall x y, in_room r x y ->
       inBounds x y = true /\ 2 <= x < WIDTH - 2 /\ 2 <= y < HEIGHT - 2).
Proof.
  intros Hrnd Hg H r Hr.
  destruct (placeRooms_Ok_inv _ _ _ _ _ _ _ Hrnd Hg H)
    as (st & Hinv & _ & <- & _ & _).
  pose proof (proj1 (Forall_forall _ _) (pi_rooms _ _ _ _ Hinv) r Hr) as Hok.
  pose proof Hok as (Hw & Hh & Hx & Hy & Hxw & Hyh).
  unfold ROOM_W_MIN, ROOM_H_MIN in *.
  split; [auto |]. split; [lia |].
  intros x y Hin. split; [eapply room_ok_in_bounds; eassumption |].
  destruct Hin as [Hix Hiy]. lia.
Qed.

Lemma placeRooms_margins_witness :
  let r := Room.mk 49 13 4 6 in
  (2 <= Room.x r /\ 2 <= Room.y r /\
   Room.x r + Room.w r <= WIDTH - 3 /\ Room.y r + Room.h r <= HEIGHT - 3) /\
  (0 < Room.w r /\ 0 < Room.h r) /\
  (forall x y, in_room r x y ->
     inBounds x y = true /\ 2 <= x < WIDTH - 2 /\ 2 <= y < HEIGHT - 2).
Proof.
  apply (placeRooms_margins rnd_cycle 0 grid0 2 sample_rooms sample_grid
           sample_pos rnd_cycle_ok grid0_ok sample_placed_eq).
  vm_compute. constructor.
Defined.

(** C4. For a target count of at least 0, [placeRooms] returns
    normally within 200 turns of its loop whatever the target is: it
    returns at most that many rooms, its counter [attempts] ends at 200
    or less, four random numbers were drawn per turn, and the loop
    stopped because the target was met or the cap was reached. *)
Theorem placeRooms_bounded (rnd : nat -> Q) (p : nat) (g : Grid)
    (roomCount : Z) :
  rnd_ok rnd -> grid_ok g -> 0 <= roomCount ->
  exists st,
    (forall fuel, (Z.to_nat ATTEMPT_CAP <= fuel)%nat ->
       placeRooms_from fuel rnd p g roomCount = Ok st) /\
    placeRooms rnd p g roomCount = Ok (pl_rooms st, pl_grid st, pl_pos st) /\
    0 <= pl_attempts st <= ATTEMPT_CAP /\
    Z.of_nat (pl_pos st) = Z.of_nat p + 4 * pl_attempts st /\
    Z.of_nat (length (pl_rooms st)) <= roomCount /\
    (Z.of_nat (length (pl_rooms st)) = roomCount \/
     pl_attempts st = ATTEMPT_CAP).
Proof.
  intros Hrnd Hg Hcount.
  destruct (placeRooms_total rnd p g roomCount Hrnd Hg)
    as (st & E & Hinv & Hcond & Hplace).
  exists st. destruct Hinv as [_ _ _ _ _ Hat Hlen Hcnt Hpos].
  split; [| split; [exact Hplace | split; [exact Hat | split; [exact Hpos |]]]].
  - intros fuel Hfuel. unfold placeRooms_from in *.
    eapply placeRooms_loop_fuel; eassumption.
  - unfold placeRooms_cond in Hcond. apply andb_false_iff in Hcond.
    rewrite !Z.ltb_ge in Hcond. lia.
Qed.

(** Under the all-zero sequence every candidate is the same room: one
    room is placed, the other 199 attempts are rejected, and the call
    still returns. *)
Example placeRooms_degraded :
  match placeRooms rnd_zero 0 grid0 1000 with
  | Ok (rooms, _, p') => rooms = [Room.mk 2 2 4 2] /\ p' = 800%nat
  | _ => False
  end.
Proof. vm_compute. split; reflexivity. Qed.

Lemma placeRooms_bounded_witness :
  exists st,
    (forall fuel, (Z.to_nat ATTEMPT_CAP <= fuel)%nat ->
       placeRooms_from fuel rnd_zero 0 grid0 1000 = Ok st) /\
    placeRooms rnd_zero 0 grid0 1000 = Ok (pl_rooms st, pl_grid st, pl_pos st) /\
    0 <= pl_attempts st <= ATTEMPT_CAP /\
    Z.of_nat (pl_pos st) = Z.of_nat 0 + 4 * pl_attempts st /\
    Z.of_nat (length (pl_rooms st)) <= 1000 /\
    (Z.of_nat (length (pl_rooms st)) = 1000 \/ pl_attempts st = ATTEMPT_CAP).
Proof.
  apply (placeRooms_bounded rnd_zero 0 grid0 1000 rnd_zero_ok grid0_ok).
  lia.
Defined.

Lemma roomsOverlap_expanded a b :
  0 <= Room.w a -> 0 <= Room.h a -> 0 <= Room.w b -> 0 <= Room.h b ->
  roomsOverlap a b = false <->
  forall x y, ~ (in_expanded a x y /\ in_expanded b x y).
Proof.
  intros Hwa Hha Hwb Hhb. rewrite roomsOverlap_false. unfold in_expanded. split.
  - intros H x y. lia.
  - intros H.
    specialize (H (Z.max (Room.x a) (Room.x b)) (Z.max (Room.y a) (Room.y b))).
    lia.
Qed.

Lemma rooms_apart_cells a b xa ya xb yb :
  roomsOverlap a b = false -> in_room a xa ya -> in_room b xb yb ->
  2 <= Z.abs (xa - xb) \/ 2 <= Z.abs (ya - yb).
Proof. rewrite roomsOverlap_false. unfold in_room. lia. Qed.

(** C2. Any two distinct rooms [placeRooms] returns do not overlap in
    the sense of [roomsOverlap]: their bounding boxes, each with one
    more column and row on the far edges, share no cell. So a cell of one
    and a cell of the other are at least two apart along an axis, and
    every cell next to a room and outside it is left as it was before
    the call: WALL when the grid started as all WALL. *)
Theorem rooms_never_overlap (rnd : nat -> Q) (p : nat) (g : Grid)
    (roomCount : Z) (rooms : list Room.t) (g' : Grid) (p' : nat) :
  rnd_ok rnd -> grid_ok g ->
  placeRooms rnd p g roomCount = Ok (rooms, g', p') ->
  (forall (i j : nat) a b, i <> j -> rooms !! i = Some a -> rooms !! j = Some b ->
     roomsOverlap a b = false /\
     (forall x y, ~ (in_expanded a x y /\ in_expanded b x y)) /\
     (forall xa ya xb yb, in_room a xa ya -> in_room b xb yb ->
        2 <= Z.abs (xa - xb) \/ 2 <= Z.abs (ya - yb))) /\
  (forall a x y x' y', a ∈ rooms -> in_room a x y ->
     adjacent (Point.mk x y) (Point.mk x' y') -> ~ in_room a x' y' ->
     cell g' x' y' = cell g x' y').
Proof.
  intros Hrnd Hg H.
  destruct (placeRooms_Ok_inv _ _ _ _ _ _ _ Hrnd Hg H)
    as (st & Hinv & _ & <- & <- & _).
  pose proof (pi_apart _ _ _ _ Hinv) as Hap.
  assert (Hsides : forall r, r ∈ pl_rooms st -> 0 <= Room.w r /\ 0 <= Room.h r).
  { intros r Hr.
    pose proof (proj1 (Forall_forall _ _) (pi_rooms _ _ _ _ Hinv) r Hr)
      as (Hw & Hh & _).
    unfold ROOM_W_MIN, ROOM_H_MIN in *. lia. }
  split.
  - intros i j a b Hij Ha Hb.
    pose proof (Hap i j a b Hij Ha Hb) as Hno.
    split; [exact Hno |]. split.
    + destruct (Hsides a (list_elem_of_lookup_2 _ _ _ Ha)).
      destruct (Hsides b (list_elem_of_lookup_2 _ _ _ Hb)).
      apply roomsOverlap_expanded; assumption.
    + intros xa ya xb yb. apply rooms_apart_cells. exact Hno.
  - intros a x y x' y' Ha Hin Hadj Hout.
    eapply carved_in_outside; [exact (pi_carved _ _ _ _ Hinv) |].
    intros (b & Hb & Hinb).
    apply list_elem_of_lookup_1 in Ha as [i Hi].
    apply list_elem_of_lookup_1 in Hb as [j Hj].
    destruct (decide (i = j)) as [-> | Hij].
    + assert (a = b) by congruence. subst b. contradiction.
    + pose proof (rooms_apart_cells a b x y x' y' (Hap i j a b Hij Hi Hj)
                    Hin Hinb) as Hfar.
      unfold adjacent in Hadj. cbn in Hadj. lia.
Qed.

Lemma rooms_never_overlap_witness :
  (forall (i j : nat) a b, i <> j ->
     sample_rooms !! i = Some a -> sample_rooms !! j = Some b ->
     roomsOverlap a b = false /\
     (forall x y, ~ (in_expanded a x y /\ in_expanded b x y)) /\
     (forall xa ya xb yb, in_room a xa ya -> in_room b xb yb ->
        2 <= Z.abs (xa - xb) \/ 2 <= Z.abs (ya - yb))) /\
  (forall a x y x' y', a ∈ sample_rooms -> in_room a x y ->
     adjacent (Point.mk x y) (Point.mk x' y') -> ~ in_room a x' y' ->
     cell sample_grid x' y' = cell grid0 x' y').
Proof.
  exact (rooms_never_overlap rnd_cycle 0 grid0 2 sample_rooms sample_grid
           sample_pos rnd_cycle_ok grid0_ok sample_placed_eq).
Defined.



(** The guard of [inBounds] is against the constants [WIDTH] and
    [HEIGHT], not against the size of the array it is given: on a
    smaller array a run can reach a missing row. The program only ever
    passes [createGrid(WIDTH, HEIGHT)]. *)
Example carveLineV_small_grid : carveLineV small_grid 0 5 1 = TypeError.
Proof. vm_compute. reflexivity. Qed.

(** A run that lies wholly outside the grid changes nothing. *)
Example carveLineH_outside :
  carveLineH grid0 (-9) (-2) 3 = Ok grid0 /\
  carveLineH grid0 0 63 64 = Ok grid0 /\
  carveLineV grid0 0 63 (-1) = Ok grid0.
Proof. vm_compute. repeat split. Qed.

Lemma once_grid_eq : carveCorridor grid0 0 2 2 4 4 = Ok once_grid.
Proof. vm_compute. reflexivity. Qed.

(** C6, as stated, fails: [carveCorridor] draws the order of its two
    runs anew at each call. With a first draw of 0 and a second of 1/2
    the second call between (2, 2) and (4, 4) carves the other elbow,
    and the cell (2, 4) turns from WALL to FLOOR. *)
Lemma carveCorridor_twice_differs :
  carveCorridor grid0 0 2 2 4 4 = Ok once_grid /\
  carveCorridor once_grid (1 # 2) 2 2 4 4 = Ok twice_grid /\
  cell once_grid 2 4 = Some WALL /\
  cell twice_grid 2 4 = Some FLOOR /\
  twice_grid <> once_grid.
Proof.
  split; [exact once_grid_eq |].
  split; [vm_compute; reflexivity |].
  split; [vm_compute; reflexivity |].
  split; [vm_compute; reflexivity |].
  intros E. apply (f_equal (fun g => cell g 2 4)) in E.
  vm_compute in E. discriminate.
Qed.

(** C6, amended. On any grid and for any end points, when both calls
    of [carveCorridor] draw the same order of the two runs, or when the
    end points share a row or a column, the second call returns the
    grid the first one returned; and writing FLOOR to a cell that holds
    FLOOR returns the grid unchanged. *)
Theorem carveCorridor_idempotent (g : Grid) (r1 r2 : Q) (x1 y1 x2 y2 : Z)
    (g' : Grid) :
  lessThanHalf r1 = lessThanHalf r2 \/ x1 = x2 \/ y1 = y2 ->
  carveCorridor g r1 x1 y1 x2 y2 = Ok g' ->
  carveCorridor g' r2 x1 y1 x2 y2 = Ok g' /\
  (forall x y, cell g' x y = Some FLOOR -> grid_write g' x y FLOOR = Ok g').
Proof.
  intros Hr H. split.
  - apply carveCorridor_id. intros x y Hon.
    eapply carveCorridor_floor; [exact H |].
    destruct Hr as [-> | Hal]; [exact Hon |].
    eapply on_corridor_aligned; eassumption.
  - intros x y. apply grid_write_id.
Qed.

Lemma carveCorridor_idempotent_witness :
  carveCorridor once_grid (1 # 4) 2 2 4 4 = Ok once_grid /\
  (forall x y, cell once_grid x y = Some FLOOR ->
               grid_write once_grid x y FLOOR = Ok once_grid).
Proof.
  apply (carveCorridor_idempotent grid0 0 (1 # 4) 2 2 4 4 once_grid).
  - left. reflexivity.
  - vm_compute. reflexivity.
Defined.

(** With the end points on one row the order of the runs does not
    matter. *)
Example carveCorridor_same_row :
  carveCorridor grid0 0 2 5 9 5 = carveCorridor grid0 (1 # 2) 2 5 9 5.
Proof. vm_compute. reflexivity. Qed.

(** C10. Whatever [placeRooms], [carveLineH], [carveLineV] and the
    functions built from them return, on any grid: a cell whose value
    changed holds FLOOR, and a cell that held FLOOR still does. So from
    the all-WALL grid of [generateDungeon] through placement and
    connection the FLOOR cells only grow. *)
Theorem floor_only_grows :
  (forall (g : Grid) x y g', grid_write g x y FLOOR = Ok g' -> floor_only g g') /\
  (forall (g : Grid) x1 x2 y g', carveLineH g x1 x2 y = Ok g' -> floor_only g g') /\
  (forall (g : Grid) y1 y2 x g', carveLineV g y1 y2 x = Ok g' -> floor_only g g') /\
  (forall (g : Grid) r x1 y1 x2 y2 g',
     carveCorridor g r x1 y1 x2 y2 = Ok g' -> floor_only g g') /\
  (forall rnd p (g : Grid) roomCount rooms g' p',
     placeRooms rnd p g roomCount = Ok (rooms, g', p') -> floor_only g g') /\
  (forall rnd p (g : Grid) rooms g' p',
     connectRoomsWithCorridors rnd p g rooms = Ok (g', p') -> floor_only g g') /\
  (forall rnd p roomCount g rooms p',
     generateDungeon rnd p roomCount = Ok (g, rooms, p') ->
     exists g1 p1,
       placeRooms rnd p grid0 roomCount = Ok (rooms, g1, p1) /\
       connectRoomsWithCorridors rnd p1 g1 rooms = Ok (g, p') /\
       floor_only grid0 g1 /\ floor_only g1 g /\ floor_only grid0 g) /\
  (forall rnd p roomCount, rnd_ok rnd ->
     exists g rooms p',
       generateDungeon rnd p roomCount = Ok (g, rooms, p') /\
       floor_only grid0 g).
Proof.
  repeat apply conj.
  - intros g x y g' H. eapply carved_floor_only, grid_write_carved, H.
  - intros g x1 x2 y g' H. eapply carved_floor_only, carveLineH_carved, H.
  - intros g y1 y2 x g' H. eapply carved_floor_only, carveLineV_carved, H.
  - intros g r x1 y1 x2 y2 g' H.
    eapply carved_floor_only, carveCorridor_carved, H.
  - intros rnd p g roomCount rooms g' p' H.
    eapply carved_floor_only, placeRooms_carved, H.
  - intros rnd p g rooms g' p' H.
    eapply carved_floor_only, connectRooms_carved, H.
  - intros rnd p roomCount g rooms p' H.
    apply generateDungeon_inv in H as (g1 & p1 & H1 & H2).
    exists g1, p1. split; [exact H1 |]. split; [exact H2 |].
    pose proof (placeRooms_carved _ _ _ _ _ _ _ H1) as Hc1.
    pose proof (connectRooms_carved _ _ _ _ _ _ H2) as Hc2.
    split; [eapply carved_floor_only, Hc1 |].
    split; [eapply carved_floor_only, Hc2 |].
    eapply carved_floor_only, carved_in_trans; eassumption.
  - intros rnd p roomCount Hrnd.
    destruct (generateDungeon_total rnd p roomCount Hrnd)
      as (g & rooms & p' & H & _).
    exists g, rooms, p'. split; [exact H |].
    apply generateDungeon_inv in H as (g1 & p1 & H1 & H2).
    eapply carved_floor_only, carved_in_trans;
      [eapply placeRooms_carved, H1 | eapply connectRooms_carved, H2].
Qed.

(** C3. For a non-empty list of [n] rooms on a grid of [WIDTH] by
    [HEIGHT] cells, the connector carves exactly [n - 1] corridors, one
    per turn of its loop and each with one random draw. Every turn
    picks a connected room [a] and an unconnected room [b] whose
    centers are as close as those of any such pair, and adds [b]; the
    loop never leaves through [break]; every room is reached from room
    0 along the corridors, which with [n - 1] of them, each to a room
    that was not yet connected, form a spanning tree. The grid returned
    is the grid given with the corridors of these pairs carved into it
    and nothing else: every cell of the corridor between the centers of
    a pair, its turn taken as the draw of that pair says, is FLOOR;
    every cell on none of these corridors reads as before the call; and
    the two centers of a pair, when they lie on the grid, are joined by
    a path of FLOOR cells. *)
Theorem connect_spanning_tree (rnd : nat -> Q) (p : nat) (g : Grid)
    (rooms : list Room.t) :
  grid_ok g -> rooms <> [] ->
  exists st,
    (forall fuel, (length rooms - 1 <= fuel)%nat ->
       connect_run fuel rnd p g rooms = Ok st) /\
    connectRoomsWithCorridors rnd p g rooms = Ok (cn_grid st, cn_pos st) /\
    length (cn_edges st) = (length rooms - 1)%nat /\
    cn_pos st = (p + (length rooms - 1))%nat /\
    cn_break st = false /\
    prim_trace (map center rooms) (cn_connected st) (cn_edges st) /\
    NoDup (cn_connected st) /\
    (forall i, 0 <= i < Z.of_nat (length rooms) ->
       i ∈ cn_connected st /\ linked (cn_edges st) 0 i) /\
    corridors_carved rnd (map center rooms) p g (cn_edges st) (cn_grid st).
Proof.
  intros Hg Hne.
  destruct (connect_total rnd p g rooms (length rooms - 1) Hg Hne ltac:(lia))
    as (st & E & Hinv & Hlen).
  assert (Hpos : 0 < Z.of_nat (length (map center rooms))).
  { rewrite length_map. destruct rooms; [congruence | cbn; lia]. }
  assert (Hfuel : forall fuel, (length rooms - 1 <= fuel)%nat ->
                    connect_run fuel rnd p g rooms = Ok st).
  { intros fuel Hfuel. unfold connect_run in *.
    destruct (length rooms =? 0)%nat; [exact E |].
    eapply connect_loop_fuel; eassumption. }
  destruct Hinv as [_ _ Htr _ Hp Hbr].
  pose proof (prim_trace_length _ _ _ Htr) as Hlen'.
  exists st. split; [exact Hfuel |]. split.
  { unfold connectRoomsWithCorridors. rewrite (Hfuel (length rooms)) by lia.
    reflexivity. }
  split; [lia |]. split; [lia |]. split; [exact Hbr |]. split; [exact Htr |].
  split; [eapply prim_trace_NoDup, Htr |].
  split; [| eapply connect_run_corridors, E].
  intros i Hi.
  assert (Hin : i ∈ cn_connected st).
  { apply (indices_full _ (Z.of_nat (length rooms))).
    - eapply prim_trace_NoDup, Htr.
    - intros a Ha. pose proof (prim_trace_range _ Hpos _ _ Htr a Ha) as Hr.
      rewrite length_map in Hr. exact Hr.
    - lia.
    - exact Hi. }
  split; [exact Hin |]. eapply prim_trace_linked; eassumption.
Qed.

Lemma connect_spanning_tree_witness :
  exists st,
    (forall fuel, (length three_rooms - 1 <= fuel)%nat ->
       connect_run fuel rnd_cycle 0 grid0 three_rooms = Ok st) /\
    connectRoomsWithCorridors rnd_cycle 0 grid0 three_rooms
    = Ok (cn_grid st, cn_pos st) /\
    length (cn_edges st) = (length three_rooms - 1)%nat /\
    cn_pos st = (0 + (length three_rooms - 1))%nat /\
    cn_break st = false /\
    prim_trace (map center three_rooms) (cn_connected st) (cn_edges st) /\
    NoDup (cn_connected st) /\
    (forall i, 0 <= i < Z.of_nat (length three_rooms) ->
       i ∈ cn_connected st /\ linked (cn_edges st) 0 i) /\
    corridors_carved rnd_cycle (map center three_rooms) 0 grid0
      (cn_edges st) (cn_grid st).
Proof.
  apply (connect_spanning_tree rnd_cycle 0 grid0 three_rooms grid0_ok).
  discriminate.
Defined.

(** The corridors of the three hand-written rooms, whose centers are
    (4, 3), (43, 7) and (12, 32): room 0 to room 2 at distance 37, then
    room 0 to room 1 at distance 43, room 2 being 56 away from room 1. *)
Example three_rooms_edges :
  match connect_run 2 rnd_cycle 0 grid0 three_rooms with
  | Ok st => cn_edges st = [(0, 2); (0, 1)] /\ cn_connected st = [0; 2; 1]
  | _ => False
  end.
Proof. vm_compute. split; reflexivity. Qed.

(** C1. After [placeRooms] on a grid of [WIDTH] by [HEIGHT] cells has
    returned a non-empty list of rooms, the connector returns normally
    and in its grid every cell of room 0 is joined to every cell of
    every room by a path of FLOOR cells, each next to the one
    before it along a row or a column. *)
Theorem rooms_connected (rnd : nat -> Q) (p : nat) (g : Grid)
    (roomCount : Z) (rooms : list Room.t) (g1 : Grid) (p1 : nat) :
  rnd_ok rnd -> grid_ok g ->
  placeRooms rnd p g roomCount = Ok (rooms, g1, p1) ->
  rooms <> [] ->
  exists g2 p2,
    connectRoomsWithCorridors rnd p1 g1 rooms = Ok (g2, p2) /\
    forall r0 r x0 y0 x y,
      rooms !! 0%nat = Some r0 -> r ∈ rooms ->
      in_room r0 x0 y0 -> in_room r x y ->
      floor_path g2 (Point.mk x0 y0) (Point.mk x y).
Proof.
  intros Hrnd Hg Hplace Hne.
  destruct (placeRooms_Ok_inv _ _ _ _ _ _ _ Hrnd Hg Hplace)
    as (st & Hinv & _ & <- & <- & _).
  destruct Hinv as [Hg1 _ Hok Hfloor _ _ _ _ _].
  destruct (connect_total rnd p1 (pl_grid st) (pl_rooms st)
              (length (pl_rooms st)) Hg1 Hne ltac:(lia))
    as (cs & E & Hcinv & Hlen).
  exists (cn_grid cs), (cn_pos cs). split.
  { unfold connectRoomsWithCorridors. rewrite E. reflexivity. }
  destruct Hcinv as [_ Hcarved Htr Hpaths _ _].
  assert (Hpos : 0 < Z.of_nat (length (map center (pl_rooms st)))).
  { rewrite length_map. destruct (pl_rooms st); [congruence | cbn; lia]. }
  assert (Hbounds : Forall point_in_bounds (map center (pl_rooms st))).
  { apply Forall_map. eapply Forall_impl; [exact Hok |].
    intros r Hr. eapply room_ok_in_bounds; [exact Hr |].
    apply center_in_room, Hr. }
  intros r0 r x0 y0 x y Hr0 Hr Hin0 Hin.
  apply list_elem_of_lookup_1 in Hr as [i Hi].
  pose proof (proj1 (Forall_lookup _ _) Hok _ _ Hr0) as Hok0.
  pose proof (proj1 (Forall_lookup _ _) Hok _ _ Hi) as Hoki.
  pose proof (proj1 (Forall_lookup _ _) Hfloor _ _ Hr0) as Hf0.
  pose proof (proj1 (Forall_lookup _ _) Hfloor _ _ Hi) as Hfi.
  assert (Hfloor2 : forall r', room_floor (pl_grid st) r' ->
                               room_floor (cn_grid cs) r').
  { intros r' Hr' x' y' Hin'. eapply carved_in_floor; [exact Hcarved |].
    apply Hr', Hin'. }
  assert (Hmid : floor_path (cn_grid cs) (center r0) (center r)).
  { apply (Hpaths Hbounds (Z.of_nat i)).
    - apply (indices_full _ (Z.of_nat (length (pl_rooms st)))).
      + eapply prim_trace_NoDup, Htr.
      + intros a Ha. pose proof (prim_trace_range _ Hpos _ _ Htr a Ha) as Hra.
        rewrite length_map in Hra. exact Hra.
      + lia.
      + apply lookup_lt_Some in Hi. lia.
    - apply get_map_center. exists r0. split; [| reflexivity].
      apply get_Some. split; [lia | exact Hr0].
    - apply Hf0, center_in_room, Hok0.
    - apply get_map_center. exists r. split; [| reflexivity].
      apply get_Some. split; [lia |]. rewrite Nat2Z.id. exact Hi. }
  pose proof (center_in_room r0 Hok0) as Hc0.
  pose proof (center_in_room r Hoki) as Hci.
  destruct (center r0) as [cx0 cy0], (center r) as [cx cy]. cbn in Hc0, Hci.
  apply (floor_path_trans _ _ (Point.mk cx0 cy0)).
  - eapply room_floor_path; [apply Hfloor2, Hf0 | exact Hin0 | exact Hc0].
  - apply (floor_path_trans _ _ (Point.mk cx cy)); [exact Hmid |].
    eapply room_floor_path; [apply Hfloor2, Hfi | exact Hci | exact Hin].
Qed.

Lemma rooms_connected_witness :
  exists g2 p2,
    connectRoomsWithCorridors rnd_cycle sample_pos sample_grid sample_rooms
    = Ok (g2, p2) /\
    forall r0 r x0 y0 x y,
      sample_rooms !! 0%nat = Some r0 -> r ∈ sample_rooms ->
      in_room r0 x0 y0 -> in_room r x y ->
      floor_path g2 (Point.mk x0 y0) (Point.mk x y).
Proof.
  apply (rooms_connected rnd_cycle 0 grid0 2 sample_rooms sample_grid
           sample_pos rnd_cycle_ok grid0_ok sample_placed_eq).
  vm_compute. discriminate.
Defined.

(** * Further properties *)

(** ** Grids with the same cells *)

Lemma grid_ext (g g' : Grid) :
  grid_ok g -> grid_ok g' ->
  (forall x y, inBounds x y = true -> cell g x y = cell g' x y) ->
  g = g'.
Proof.
  intros [Hlen Hrows] [Hlen' Hrows'] Hcells.
  apply list_eq_same_length with (n := Z.to_nat HEIGHT); [exact Hlen' | exact Hlen |].
  intros i row row' Hi Hrow Hrow'.
  destruct (proj1 (Forall_lookup _ _) Hrows _ _ Hrow) as [Hw Hfull].
  destruct (proj1 (Forall_lookup _ _) Hrows' _ _ Hrow') as [Hw' Hfull'].
  apply list_eq_same_length with (n := Z.to_nat WIDTH); [exact Hw' | exact Hw |].
  intros j s s' Hj Hs Hs'.
  assert (Hb : inBounds (Z.of_nat j) (Z.of_nat i) = true)
    by (apply inBounds_spec; lia).
  specialize (Hcells _ _ Hb). unfold cell, slot, get in Hcells.
  destruct (Z.ltb_spec (Z.of_nat i) 0); [lia |].
  destruct (Z.ltb_spec (Z.of_nat j) 0); [lia |].
  rewrite !Nat2Z.id, Hrow, Hrow', Hs, Hs' in Hcells.
  pose proof (proj1 (Forall_lookup _ _) Hfull _ _ Hs).
  pose proof (proj1 (Forall_lookup _ _) Hfull' _ _ Hs').
  destruct s, s'; congruence.
Qed.

(** ** The cells of a corridor *)

Lemma on_corridor_between b x1 y1 x2 y2 x y :
  on_corridor b x1 y1 x2 y2 x y ->
  Z.min x1 x2 <= x <= Z.max x1 x2 /\ Z.min y1 y2 <= y <= Z.max y1 y2.
Proof.
  unfold on_corridor, on_run_h, on_run_v.
  destruct b; intros [(-> & Hr & _) | (-> & Hr & _)]; lia.
Qed.

Lemma on_corridor_reach (g : Grid) b x1 y1 x2 y2 :
  inBounds x1 y1 = true -> inBounds x2 y2 = true ->
  (forall x y, on_corridor b x1 y1 x2 y2 x y -> cell g x y = Some FLOOR) ->
  forall x y, on_corridor b x1 y1 x2 y2 x y ->
    floor_path g (Point.mk x1 y1) (Point.mk x y).
Proof.
  intros Hb1 Hb2 Hf x y Hon.
  apply inBounds_spec in Hb1 as [Hx1 Hy1]. apply inBounds_spec in Hb2 as [Hx2 Hy2].
  unfold on_corridor, on_run_h, on_run_v in *. destruct b.
  - assert (Hrow : forall x', Z.min x1 x2 <= x' <= Z.max x1 x2 ->
                     cell g x' y1 = Some FLOOR).
    { intros x' Hx'. apply Hf. left.
      split; [reflexivity | split; [exact Hx' | apply inBounds_spec; lia]]. }
    destruct Hon as [(-> & Hr & _) | (-> & Hr & _)].
    + apply floor_path_h. intros x' Hx'. apply Hrow. lia.
    + apply (floor_path_trans _ _ (Point.mk x2 y1)).
      * apply floor_path_h. exact Hrow.
      * apply floor_path_v. intros y' Hy'. apply Hf. right.
        split; [reflexivity | split; [lia | apply inBounds_spec; lia]].
  - assert (Hcol : forall y', Z.min y1 y2 <= y' <= Z.max y1 y2 ->
                     cell g x1 y' = Some FLOOR).
    { intros y' Hy'. apply Hf. left.
      split; [reflexivity | split; [exact Hy' | apply inBounds_spec; lia]]. }
    destruct Hon as [(-> & Hr & _) | (-> & Hr & _)].
    + apply floor_path_v. intros y' Hy'. apply Hcol. lia.
    + apply (floor_path_trans _ _ (Point.mk x1 y2)).
      * apply floor_path_v. exact Hcol.
      * apply floor_path_h. intros x' Hx'. apply Hf. right.
        split; [reflexivity | split; [lia | apply inBounds_spec; lia]].
Qed.

(** X1. On a grid of [WIDTH] by [HEIGHT] cells and between two points of
    the grid, [carveCorridor] returns normally; the cells of its two
    runs hold FLOOR and each is joined to the first end point, every
    other cell is as before, and the two end points are joined. *)
Theorem carveCorridor_cells (g : Grid) (r : Q) (x1 y1 x2 y2 : Z) :
  grid_ok g -> inBounds x1 y1 = true -> inBounds x2 y2 = true ->
  exists g',
    carveCorridor g r x1 y1 x2 y2 = Ok g' /\ grid_ok g' /\
    (forall x y, on_corridor (lessThanHalf r) x1 y1 x2 y2 x y ->
       cell g' x y = Some FLOOR /\
       floor_path g' (Point.mk x1 y1) (Point.mk x y)) /\
    (forall x y, ~ on_corridor (lessThanHalf r) x1 y1 x2 y2 x y ->
       cell g' x y = cell g x y) /\
    floor_path g' (Point.mk x1 y1) (Point.mk x2 y2).
Proof.
  intros Hg Hb1 Hb2.
  destruct (carveCorridor_ok g r x1 y1 x2 y2 Hg) as (g' & E & Hg').
  exists g'. split; [exact E |]. split; [exact Hg' |].
  assert (Hf : forall x y, on_corridor (lessThanHalf r) x1 y1 x2 y2 x y ->
                 cell g' x y = Some FLOOR)
    by (intros x y; eapply carveCorridor_floor, E).
  split; [| split].
  - intros x y Hon. split; [apply Hf, Hon |].
    eapply on_corridor_reach; eassumption.
  - intros x y Hout. eapply carved_in_outside; [| exact Hout].
    apply carveCorridor_carved_in, E.
  - eapply carveCorridor_path; eassumption.
Qed.

Lemma carveCorridor_cells_witness :
  exists g',
    carveCorridor grid0 0 2 2 4 4 = Ok g' /\ grid_ok g' /\
    (forall x y, on_corridor (lessThanHalf 0) 2 2 4 4 x y ->
       cell g' x y = Some FLOOR /\
       floor_path g' (Point.mk 2 2) (Point.mk x y)) /\
    (forall x y, ~ on_corridor (lessThanHalf 0) 2 2 4 4 x y ->
       cell g' x y = cell grid0 x y) /\
    floor_path g' (Point.mk 2 2) (Point.mk 4 4).
Proof.
  apply (carveCorridor_cells grid0 0 2 2 4 4 grid0_ok); reflexivity.
Defined.

(** ** What the loop of the connector keeps *)

Lemma at_index_elem {A} (l : list A) i a : at_index l i = Ok a -> a ∈ l.
Proof.
  unfold at_index. destruct (get l i) as [a' |] eqn:E; [| discriminate].
  intros [= <-]. apply get_Some in E as [_ E].
  eapply list_elem_of_lookup_2, E.
Qed.

Lemma connect_loop_preserves (Q : Grid -> Prop) rnd centers :
  (forall (g : Grid) r ca cb g', ca ∈ centers -> cb ∈ centers -> Q g ->
     carveCorridor g r (Point.x ca) (Point.y ca) (Point.x cb) (Point.y cb)
     = Ok g' -> Q g') ->
  forall fuel st st',
    connect_loop fuel rnd centers st = Ok st' ->
    Q (cn_grid st) -> Q (cn_grid st').
Proof.
  intros Hstep. induction fuel as [| fuel IH]; intros st st'; cbn;
    destruct (Z.of_nat (length (cn_connected st)) <? Z.of_nat (length centers));
    try discriminate; try (intros [= <-]; auto; fail).
  intros H HQ. apply bind_Ok in H as (best & _ & H).
  destruct (negb (bestA best =? -1) && negb (bestB best =? -1)).
  - apply bind_Ok in H as (ca & Hca & H). apply bind_Ok in H as (cb & Hcb & H).
    apply bind_Ok in H as (g & Hg & H).
    apply IH in H; [exact H |]. cbn.
    eapply Hstep; [eapply at_index_elem, Hca | eapply at_index_elem, Hcb | exact HQ |].
    exact Hg.
  - injection H as <-. exact HQ.
Qed.

Lemma corridor_keeps_anchored centers (g : Grid) r ca cb g' :
  Forall point_in_bounds centers -> ca ∈ centers -> cb ∈ centers ->
  anchored centers g ->
  carveCorridor g r (Point.x ca) (Point.y ca) (Point.x cb) (Point.y cb) = Ok g' ->
  anchored centers g'.
Proof.
  intros Hbnd Ha Hb Hanch E x y Hf.
  pose proof (carveCorridor_carved_in _ _ _ _ _ _ _ E) as Hc.
  destruct (Hc x y) as [Hsame | [Hon _]].
  - rewrite Hsame in Hf. destruct (Hanch x y Hf) as (c & Hin & Hp).
    exists c. split; [exact Hin |]. eapply floor_path_carved; eassumption.
  - exists ca. split; [exact Ha |].
    pose proof (proj1 (Forall_forall _ _) Hbnd _ Ha) as Hba.
    pose proof (proj1 (Forall_forall _ _) Hbnd _ Hb) as Hbb.
    destruct ca as [xa ya], cb as [xb yb]. cbn in *.
    eapply on_corridor_reach; [exact Hba | exact Hbb | | exact Hon].
    intros x' y'. eapply carveCorridor_floor, E.
Qed.

Lemma corridor_keeps_inside centers (g : Grid) r ca cb g' :
  Forall (fun c => inside_margin (Point.x c) (Point.y c)) centers ->
  ca ∈ centers -> cb ∈ centers -> floor_inside g ->
  carveCorridor g r (Point.x ca) (Point.y ca) (Point.x cb) (Point.y cb) = Ok g' ->
  floor_inside g'.
Proof.
  intros Hin Ha Hb Hins E x y Hf.
  pose proof (carveCorridor_carved_in _ _ _ _ _ _ _ E) as Hc.
  destruct (Hc x y) as [Hsame | [Hon _]].
  - rewrite Hsame in Hf. apply Hins, Hf.
  - apply on_corridor_between in Hon.
    pose proof (proj1 (Forall_forall _ _) Hin _ Ha) as [Hax Hay].
    pose proof (proj1 (Forall_forall _ _) Hin _ Hb) as [Hbx Hby].
    unfold inside_margin. lia.
Qed.

(** ** The stages of [generateDungeon] *)

Lemma connect_run_nil fuel rnd p (g : Grid) :
  connect_run fuel rnd p g [] = Ok (mkConn g [] p [] false).
Proof. reflexivity. Qed.

Lemma generateDungeon_stages rnd p roomCount g rooms p' :
  rnd_ok rnd ->
  generateDungeon rnd p roomCount = Ok (g, rooms, p') ->
  exists pst,
    place_inv grid0 p roomCount pst /\
    placeRooms_cond roomCount pst = false /\ pl_rooms pst = rooms /\
    ((rooms = [] /\ g = pl_grid pst /\ p' = pl_pos pst) \/
     (rooms <> [] /\
      exists cst,
        connect_run (length rooms) rnd (pl_pos pst) (pl_grid pst) rooms = Ok cst /\
        conn_inv (map center rooms) (pl_grid pst) (pl_pos pst) cst /\
        length (cn_connected cst) = length rooms /\
        g = cn_grid cst /\ p' = cn_pos cst)).
Proof.
  intros Hrnd H.
  apply generateDungeon_inv in H as (g1 & p1 & H1 & H2).
  destruct (placeRooms_Ok_inv _ _ _ _ _ _ _ Hrnd grid0_ok H1)
    as (pst & Hinv & Hcond & Hr & Hg & Hp).
  exists pst. split; [exact Hinv |]. split; [exact Hcond |]. split; [exact Hr |].
  subst g1 p1. unfold connectRoomsWithCorridors in H2.
  destruct rooms as [| r rooms].
  - left. rewrite connect_run_nil in H2. cbn in H2. injection H2 as <- <-. auto.
  - right. split; [discriminate |].
    destruct (connect_total rnd (pl_pos pst) (pl_grid pst) (r :: rooms)
                (length (r :: rooms)) (pi_grid _ _ _ _ Hinv)
                ltac:(discriminate) ltac:(lia))
      as (cst & E & Hcinv & Hlen).
    rewrite E in H2. cbn in H2. injection H2 as <- <-.
    exists cst. auto.
Qed.

Lemma grid0_cell x y : cell grid0 x y <> Some FLOOR.
Proof.
  unfold grid0. rewrite createGrid_cell.
  destruct (_ && _); discriminate.
Qed.

Lemma placed_floor_in_rooms p roomCount pst x y :
  place_inv grid0 p roomCount pst ->
  cell (pl_grid pst) x y = Some FLOOR -> in_some_room (pl_rooms pst) x y.
Proof.
  intros Hinv Hf. destruct (pi_carved _ _ _ _ Hinv x y) as [Hsame | [Hin _]].
  - rewrite Hsame in Hf. destruct (grid0_cell x y Hf).
  - exact Hin.
Qed.

Lemma room_ok_inside r x y :
  room_ok r -> in_room r x y -> inside_margin x y.
Proof.
  intros (_ & _ & Hx & Hy & Hxw & Hyh) [Hix Hiy]. unfold inside_margin. lia.
Qed.

Lemma centers_joined rooms (g1 : Grid) p1 cst r0 r :
  rooms <> [] -> Forall room_ok rooms -> Forall (room_floor g1) rooms ->
  conn_inv (map center rooms) g1 p1 cst ->
  length (cn_connected cst) = length rooms ->
  rooms !! 0%nat = Some r0 -> r ∈ rooms ->
  floor_path (cn_grid cst) (center r0) (center r).
Proof.
  intros Hne Hok Hfloor [_ _ Htr Hpaths _ _] Hlen Hr0 Hr.
  assert (Hpos : 0 < Z.of_nat (length (map center rooms))).
  { rewrite length_map. destruct rooms; [congruence | cbn; lia]. }
  assert (Hbounds : Forall point_in_bounds (map center rooms)).
  { apply Forall_map. eapply Forall_impl; [exact Hok |].
    intros r' Hr'. eapply room_ok_in_bounds; [exact Hr' |].
    apply center_in_room, Hr'. }
  apply list_elem_of_lookup_1 in Hr as [i Hi].
  apply (Hpaths Hbounds (Z.of_nat i)).
  - apply (indices_full _ (Z.of_nat (length rooms))).
    + eapply prim_trace_NoDup, Htr.
    + intros a Ha. pose proof (prim_trace_range _ Hpos _ _ Htr a Ha) as Hra.
      rewrite length_map in Hra. exact Hra.
    + lia.
    + apply lookup_lt_Some in Hi. lia.
  - apply get_map_center. exists r0. split; [| reflexivity].
    apply get_Some. split; [lia | exact Hr0].
  - apply (proj1 (Forall_lookup _ _) Hfloor _ _ Hr0).
    apply center_in_room. apply (proj1 (Forall_lookup _ _) Hok _ _ Hr0).
  - apply get_map_center. exists r. split; [| reflexivity].
    apply get_Some. split; [lia |]. rewrite Nat2Z.id. exact Hi.
Qed.

(** X2. In the grid [generateDungeon] returns, any two FLOOR cells are
    joined by a path of FLOOR cells: rooms and corridors form one
    region, with no FLOOR cell cut off from the rest. *)
Theorem floor_region_connected (rnd : nat -> Q) (p : nat) (roomCount : Z)
    (g : Grid) (rooms : list Room.t) (p' : nat) :
  rnd_ok rnd ->
  generateDungeon rnd p roomCount = Ok (g, rooms, p') ->
  forall x1 y1 x2 y2,
    cell g x1 y1 = Some FLOOR -> cell g x2 y2 = Some FLOOR ->
    floor_path g (Point.mk x1 y1) (Point.mk x2 y2).
Proof.
  intros Hrnd H.
  destruct (generateDungeon_stages _ _ _ _ _ _ Hrnd H)
    as (pst & Hinv & _ & Hr & [(Hnil & -> & _) | (Hne & cst & E & Hcinv & Hlen & -> & _)]).
  - intros x1 y1 x2 y2 Hf1 _.
    apply (placed_floor_in_rooms _ _ _ _ _ Hinv) in Hf1 as (r & Hin & _).
    rewrite Hr, Hnil in Hin. apply elem_of_nil in Hin. contradiction.
  - subst rooms.
    pose proof (pi_rooms _ _ _ _ Hinv) as Hok.
    pose proof (pi_floor _ _ _ _ Hinv) as Hfloor.
    assert (Hbounds : Forall point_in_bounds (map center (pl_rooms pst))).
    { apply Forall_map. eapply Forall_impl; [exact Hok |].
      intros r' Hr'. eapply room_ok_in_bounds; [exact Hr' |].
      apply center_in_room, Hr'. }
    assert (Hanch0 : anchored (map center (pl_rooms pst)) (pl_grid pst)).
    { intros x y Hf.
      destruct (placed_floor_in_rooms _ _ _ _ _ Hinv Hf) as (r & Hin & Hxy).
      exists (center r). split; [apply list_elem_of_fmap_2, Hin |].
      pose proof (proj1 (Forall_forall _ _) Hok _ Hin) as Hokr.
      pose proof (center_in_room r Hokr) as Hc.
      destruct (center r) as [cx cy]. cbn in Hc.
      eapply room_floor_path;
        [exact (proj1 (Forall_forall _ _) Hfloor _ Hin) | exact Hc | exact Hxy]. }
    assert (Hanch : anchored (map center (pl_rooms pst)) (cn_grid cst)).
    { unfold connect_run in E.
      destruct (length (pl_rooms pst) =? 0)%nat.
      - injection E as <-. exact Hanch0.
      - eapply (connect_loop_preserves (anchored (map center (pl_rooms pst))));
          [| exact E | exact Hanch0].
        intros g r ca cb g' Ha Hb HQ Hg.
        eapply (corridor_keeps_anchored _ g r ca cb g'); eassumption. }
    destruct (pl_rooms pst) as [| r0 rest] eqn:Erooms; [congruence |].
    assert (Hto0 : forall x y, cell (cn_grid cst) x y = Some FLOOR ->
                     floor_path (cn_grid cst) (center r0) (Point.mk x y)).
    { intros x y Hf. destruct (Hanch x y Hf) as (c & Hc & Hp).
      apply list_elem_of_fmap in Hc as (r & -> & Hin).
      eapply floor_path_trans; [| exact Hp].
      eapply (centers_joined (r0 :: rest)); try eassumption; reflexivity. }
    intros x1 y1 x2 y2 Hf1 Hf2.
    eapply floor_path_trans; [apply floor_path_sym, Hto0, Hf1 | apply Hto0, Hf2].
Qed.

Lemma sample_dungeon_eq :
  generateDungeon rnd_cycle 0 2 = Ok (dungeon_grid, dungeon_rooms, dungeon_pos).
Proof. vm_compute. reflexivity. Qed.

Lemma floor_region_connected_witness :
  floor_path dungeon_grid (Point.mk 49 13) (Point.mk 25 44).
Proof.
  apply (floor_region_connected rnd_cycle 0 2 dungeon_grid dungeon_rooms
           dungeon_pos rnd_cycle_ok sample_dungeon_eq);
    vm_compute; reflexivity.
Defined.

Lemma grid_ok_outside (g : Grid) x y :
  grid_ok g -> inBounds x y = false -> cell g x y = None.
Proof.
  intros [Hlen Hrows] Hb. unfold cell, slot.
  destruct (get g y) as [row |] eqn:Ey; [| reflexivity].
  pose proof (get_Some_lt _ _ _ Ey) as Hy.
  apply get_Some in Ey as [_ Ey].
  destruct (proj1 (Forall_lookup _ _) Hrows _ _ Ey) as [Hw _].
  destruct (get row x) as [s |] eqn:Ex; [| reflexivity].
  pose proof (get_Some_lt _ _ _ Ex) as Hx.
  assert (inBounds x y = true) by (apply inBounds_spec; lia). congruence.
Qed.

(** X3. The grid [generateDungeon] returns has [HEIGHT] rows of [WIDTH]
    slots and no hole: every cell of the grid reads WALL or FLOOR, and
    every FLOOR cell lies inside the margins, so the two outer rows and
    columns on the near sides and three on the far sides are WALL. *)
Theorem generateDungeon_walled (rnd : nat -> Q) (p : nat) (roomCount : Z)
    (g : Grid) (rooms : list Room.t) (p' : nat) :
  rnd_ok rnd ->
  generateDungeon rnd p roomCount = Ok (g, rooms, p') ->
  grid_ok g /\
  (forall x y, inBounds x y = true ->
     cell g x y = Some WALL \/ cell g x y = Some FLOOR) /\
  (forall x y, inBounds x y = false -> cell g x y = None) /\
  (forall x y, cell g x y = Some FLOOR ->
     2 <= x < WIDTH - 3 /\ 2 <= y < HEIGHT - 3) /\
  (forall x y, inBounds x y = true ->
     x < 2 \/ WIDTH - 3 <= x \/ y < 2 \/ HEIGHT - 3 <= y ->
     cell g x y = Some WALL).
Proof.
  intros Hrnd H.
  destruct (generateDungeon_stages _ _ _ _ _ _ Hrnd H)
    as (pst & Hinv & _ & Hr & Hcase).
  pose proof (pi_rooms _ _ _ _ Hinv) as Hok.
  assert (Hins0 : floor_inside (pl_grid pst)).
  { intros x y Hf.
    destruct (placed_floor_in_rooms _ _ _ _ _ Hinv Hf) as (r & Hin & Hxy).
    eapply room_ok_inside; [exact (proj1 (Forall_forall _ _) Hok _ Hin) | exact Hxy]. }
  assert (Hg : grid_ok g /\ floor_inside g).
  { destruct Hcase as [(_ & -> & _) | (Hne & cst & E & Hcinv & _ & -> & _)].
    - split; [exact (pi_grid _ _ _ _ Hinv) | exact Hins0].
    - split; [exact (ci_grid _ _ _ _ Hcinv) |].
      unfold connect_run in E. destruct (length rooms =? 0)%nat.
      + injection E as <-. exact Hins0.
      + eapply (connect_loop_preserves floor_inside); [| exact E | exact Hins0].
        intros g1 r ca cb g' Ha Hb HQ Hcar.
        eapply (corridor_keeps_inside (map center rooms) g1 r ca cb g');
          try eassumption.
        apply Forall_map. rewrite <- Hr. eapply Forall_impl; [exact Hok |].
        intros r' Hr'. eapply room_ok_inside; [exact Hr' |].
        apply center_in_room, Hr'. }
  destruct Hg as [Hg Hins].
  assert (Htile : forall x y, inBounds x y = true ->
                    cell g x y = Some WALL \/ cell g x y = Some FLOOR).
  { intros x y Hb. destruct (grid_ok_cell g x y Hg Hb) as [[|] E]; auto. }
  split; [exact Hg |]. split; [exact Htile |].
  split; [intros x y; apply grid_ok_outside, Hg |].
  split; [exact Hins |].
  intros x y Hb Hedge. destruct (Htile x y Hb) as [E | E]; [exact E |].
  apply Hins in E. unfold inside_margin in E. lia.
Qed.

Lemma generateDungeon_walled_witness :
  grid_ok dungeon_grid /\
  (forall x y, inBounds x y = true ->
     cell dungeon_grid x y = Some WALL \/ cell dungeon_grid x y = Some FLOOR) /\
  (forall x y, inBounds x y = false -> cell dungeon_grid x y = None) /\
  (forall x y, cell dungeon_grid x y = Some FLOOR ->
     2 <= x < WIDTH - 3 /\ 2 <= y < HEIGHT - 3) /\
  (forall x y, inBounds x y = true ->
     x < 2 \/ WIDTH - 3 <= x \/ y < 2 \/ HEIGHT - 3 <= y ->
     cell dungeon_grid x y = Some WALL).
Proof.
  exact (generateDungeon_walled rnd_cycle 0 2 dungeon_grid dungeon_rooms
           dungeon_pos rnd_cycle_ok sample_dungeon_eq).
Defined.

(** ** More on [placeRooms] *)

Lemma placeRooms_body_rooms rnd st st' :
  placeRooms_body rnd st = Ok st' ->
  (pl_rooms st' = pl_rooms st /\
   existsb (fun r => roomsOverlap r (candidate rnd (pl_pos st))) (pl_rooms st)
   = true) \/
  (pl_rooms st' = pl_rooms st ++ [candidate rnd (pl_pos st)] /\
   existsb (fun r => roomsOverlap r (candidate rnd (pl_pos st))) (pl_rooms st)
   = false).
Proof.
  unfold placeRooms_body, candidate. cbv zeta.
  destruct (existsb _ (pl_rooms st)) eqn:Hex.
  - intros [= <-]. left. auto.
  - intros H. apply bind_Ok in H as (g & _ & [= <-]). right. auto.
Qed.


Lemma placeRooms_loop_S rnd roomCount fuel st :
  placeRooms_loop (S fuel) rnd roomCount st
  = if placeRooms_cond roomCount st
    then placeRooms_body rnd st ≫= placeRooms_loop fuel rnd roomCount
    else Ok st.
Proof. reflexivity. Qed.


Lemma placeRooms_loop_done rnd roomCount fuel st :
  placeRooms_cond roomCount st = false ->
  placeRooms_loop fuel rnd roomCount st = Ok st.
Proof. intros H. destruct fuel; cbn; rewrite H; reflexivity. Qed.

Lemma candidate_room_ok rnd p : rnd_ok rnd -> room_ok (candidate rnd p).
Proof. intros Hrnd. exact (candidate_ok rnd Hrnd p). Qed.

Lemma placeRooms_one rnd p (g : Grid) :
  rnd_ok rnd -> grid_ok g ->
  exists g',
    placeRooms rnd p g 1 = Ok ([candidate rnd p], g', (p + 4)%nat) /\
    carveRoom g (Room.x (candidate rnd p)) (Room.y (candidate rnd p))
      (Room.w (candidate rnd p)) (Room.h (candidate rnd p)) = Ok g' /\
    grid_ok g'.
Proof.
  intros Hrnd Hg.
  pose proof (candidate_room_ok rnd p Hrnd) as (Hw & Hh & Hx & Hy & Hxw & Hyh).
  destruct (carveRoom_ok g (Room.x (candidate rnd p)) (Room.y (candidate rnd p))
              (Room.w (candidate rnd p)) (Room.h (candidate rnd p)) Hg)
    as (g' & E & Hg'); try (unfold WIDTH, HEIGHT in *; lia).
  exists g'. split; [| split; [exact E | exact Hg']].
  unfold placeRooms, placeRooms_from.
  change (Z.to_nat ATTEMPT_CAP) with (S 199). rewrite placeRooms_loop_S.
  change (placeRooms_cond 1 (mkPlace g [] 0 p)) with true. cbv iota.
  assert (Hbody : placeRooms_body rnd (mkPlace g [] 0 p)
                  = Ok (mkPlace g' [candidate rnd p] 1 (p + 4)%nat)).
  { unfold placeRooms_body. cbv zeta. cbn [pl_rooms pl_grid pl_pos existsb].
    unfold candidate in E. cbn in E. rewrite E. reflexivity. }
  rewrite Hbody. cbn [mbind result_bind].
  rewrite placeRooms_loop_done by reflexivity. reflexivity.
Qed.

(** X4. For a grid of [WIDTH] by [HEIGHT] cells, the grid [placeRooms]
    leaves is the grid it got with exactly the cells of the returned
    rooms set to FLOOR; every returned room is between 4 and 12 cells
    wide and between 2 and 10 cells high. *)
Theorem placeRooms_floor_exact (rnd : nat -> Q) (p : nat) (g : Grid)
    (roomCount : Z) (rooms : list Room.t) (g' : Grid) (p' : nat) :
  rnd_ok rnd -> grid_ok g ->
  placeRooms rnd p g roomCount = Ok (rooms, g', p') ->
  grid_ok g' /\
  (forall x y, in_some_room rooms x y -> cell g' x y = Some FLOOR) /\
  (forall x y, ~ in_some_room rooms x y -> cell g' x y = cell g x y) /\
  (forall r, r ∈ rooms ->
     ROOM_W_MIN <= Room.w r <= ROOM_W_MAX /\
     ROOM_H_MIN <= Room.h r <= ROOM_H_MAX).
Proof.
  intros Hrnd Hg H.
  destruct (placeRooms_Ok_inv _ _ _ _ _ _ _ Hrnd Hg H)
    as (st & Hinv & _ & <- & <- & _).
  split; [exact (pi_grid _ _ _ _ Hinv) |]. split; [| split].
  - intros x y (r & Hin & Hxy).
    exact (proj1 (Forall_forall _ _) (pi_floor _ _ _ _ Hinv) r Hin x y Hxy).
  - intros x y Hout. eapply carved_in_outside; [exact (pi_carved _ _ _ _ Hinv) |].
    exact Hout.
  - intros r Hin.
    destruct (proj1 (Forall_forall _ _) (pi_rooms _ _ _ _ Hinv) r Hin)
      as (Hw & Hh & _). auto.
Qed.

Lemma placeRooms_floor_exact_witness :
  grid_ok sample_grid /\
  (forall x y, in_some_room sample_rooms x y -> cell sample_grid x y = Some FLOOR) /\
  (forall x y, ~ in_some_room sample_rooms x y ->
     cell sample_grid x y = cell grid0 x y) /\
  (forall r, r ∈ sample_rooms ->
     ROOM_W_MIN <= Room.w r <= ROOM_W_MAX /\
     ROOM_H_MIN <= Room.h r <= ROOM_H_MAX).
Proof.
  exact (placeRooms_floor_exact rnd_cycle 0 grid0 2 sample_rooms sample_grid
           sample_pos rnd_cycle_ok grid0_ok sample_placed_eq).
Defined.



(** X6. [generateDungeon(1)] always returns exactly one room, within
    the margins, after four draws and no corridor: the cells of that
    room are FLOOR and every other cell of the grid is WALL. *)
Theorem generate_one (rnd : nat -> Q) (p : nat) :
  rnd_ok rnd ->
  exists g r,
    generateDungeon rnd p 1 = Ok (g, [r], (p + 4)%nat) /\
    room_ok r /\
    (forall x y, in_room r x y -> cell g x y = Some FLOOR) /\
    (forall x y, inBounds x y = true -> ~ in_room r x y ->
       cell g x y = Some WALL).
Proof.
  intros Hrnd.
  destruct (placeRooms_one rnd p grid0 Hrnd grid0_ok) as (g & E & Hcarve & Hg).
  exists g, (candidate rnd p). split.
  { unfold generateDungeon. fold grid0. rewrite E. reflexivity. }
  destruct (carveRoom_carved _ _ _ _ _ _ Hcarve) as [Hc Hf].
  pose proof (candidate_room_ok rnd p Hrnd) as Hok.
  split; [exact Hok |].
  destruct Hok as (_ & _ & Hx & _).
  destruct (candidate rnd p) as [cx cy cw ch] eqn:Ec. cbn in *.
  split; [apply Hf; lia |].
  intros x y Hb Hout.
  rewrite (carved_in_outside _ _ _ _ _ Hc Hout).
  apply inBounds_spec in Hb. unfold grid0. rewrite createGrid_cell.
  destruct (Z.leb_spec 0 x), (Z.ltb_spec x WIDTH), (Z.leb_spec 0 y),
    (Z.ltb_spec y HEIGHT); try lia. reflexivity.
Qed.

Lemma generate_one_witness :
  exists g r,
    generateDungeon rnd_cycle 0 1 = Ok (g, [r], (0 + 4)%nat) /\
    room_ok r /\
    (forall x y, in_room r x y -> cell g x y = Some FLOOR) /\
    (forall x y, inBounds x y = true -> ~ in_room r x y ->
       cell g x y = Some WALL).
Proof. exact (generate_one rnd_cycle 0 rnd_cycle_ok). Defined.

(** X7. A call of [generateDungeon] draws four random numbers per
    attempt of [placeRooms] and one per corridor, that is one per room
    after the first: at most 999 in all. *)
Theorem generateDungeon_draws (rnd : nat -> Q) (p : nat) (roomCount : Z)
    (g : Grid) (rooms : list Room.t) (p' : nat) :
  rnd_ok rnd ->
  generateDungeon rnd p roomCount = Ok (g, rooms, p') ->
  exists attempts,
    0 <= attempts <= ATTEMPT_CAP /\
    Z.of_nat (length rooms) <= attempts /\
    Z.of_nat p' = Z.of_nat p + 4 * attempts + Z.of_nat (length rooms - 1) /\
    Z.of_nat p' - Z.of_nat p <= 999.
Proof.
  intros Hrnd H.
  destruct (generateDungeon_stages _ _ _ _ _ _ Hrnd H)
    as (pst & Hinv & _ & Hr & Hcase).
  destruct Hinv as [_ _ _ _ _ Hat Hlen _ Hpos]. rewrite Hr in Hlen.
  exists (pl_attempts pst). split; [exact Hat |]. split; [exact Hlen |].
  assert (Hp : Z.of_nat p' = Z.of_nat p + 4 * pl_attempts pst
                              + Z.of_nat (length rooms - 1)).
  { destruct Hcase as [(-> & _ & ->) | (Hne & cst & _ & Hcinv & Hl & _ & ->)].
    - cbn. lia.
    - pose proof (prim_trace_length _ _ _ (ci_trace _ _ _ _ Hcinv)) as Htl.
      rewrite (ci_pos _ _ _ _ Hcinv). lia. }
  split; [exact Hp |]. unfold ATTEMPT_CAP in *. lia.
Qed.

Lemma generateDungeon_draws_witness :
  exists attempts,
    0 <= attempts <= ATTEMPT_CAP /\
    Z.of_nat (length dungeon_rooms) <= attempts /\
    Z.of_nat dungeon_pos
    = Z.of_nat 0 + 4 * attempts + Z.of_nat (length dungeon_rooms - 1) /\
    Z.of_nat dungeon_pos - Z.of_nat 0 <= 999.
Proof.
  exact (generateDungeon_draws rnd_cycle 0 2 dungeon_grid dungeon_rooms
           dungeon_pos rnd_cycle_ok sample_dungeon_eq).
Defined.

(** ** [randInt] *)


(** X8. For a draw [r] in [0, 1) and [min <= max], [randInt(min, max)]
    lies between [min] and [max], both included; when [max < min] it
    lies between [max + 1] and [min] instead, outside the range asked
    for. *)
Theorem randInt_bounds (r : Q) (lo hi : Z) :
  (0 <= r)%Q -> (r < 1)%Q ->
  (lo <= hi -> lo <= randInt r lo hi <= hi) /\
  (hi < lo -> hi + 1 <= randInt r lo hi <= lo).
Proof.
  intros H0 H1. split; [apply randInt_range; assumption |].
  intros Hlt. unfold randInt. set (n := hi - lo + 1).
  assert (Hn : n <= 0) by (unfold n; lia).
  assert (HnQ : (inject_Z n <= 0)%Q)
    by (change (inject_Z n <= inject_Z 0)%Q; rewrite <- Zle_Qle; exact Hn).
  assert (Hm : (0 <= - inject_Z n)%Q)
    by (apply (Qopp_le_compat (inject_Z n) 0); exact HnQ).
  assert (Hup : (r * inject_Z n <= 0)%Q).
  { assert (E : (r * inject_Z n == - (r * - inject_Z n))%Q) by ring.
    rewrite E. apply (Qopp_le_compat 0).
    apply Qmult_le_0_compat; assumption. }
  assert (Hlow : (inject_Z n <= r * inject_Z n)%Q).
  { assert (E1 : (inject_Z n == - (1 * - inject_Z n))%Q) by ring.
    assert (E2 : (r * inject_Z n == - (r * - inject_Z n))%Q) by ring.
    rewrite E1 at 1. rewrite E2. apply Qopp_le_compat.
    apply Qmult_le_compat_r; [apply Qlt_le_weak, H1 | exact Hm]. }
  assert (Hf1 : Qfloor (r * inject_Z n) <= 0).
  { rewrite <- (Qfloor_Z 0). apply Qfloor_resp_le. exact Hup. }
  assert (Hf2 : n <= Qfloor (r * inject_Z n)).
  { rewrite <- (Qfloor_Z n) at 1. apply Qfloor_resp_le. exact Hlow. }
  unfold n in *. lia.
Qed.

Lemma randInt_bounds_witness :
  (2 <= 7 -> 2 <= randInt (3 # 4) 2 7 <= 7) /\
  (7 < 2 -> 7 + 1 <= randInt (3 # 4) 2 7 <= 2).
Proof. apply (randInt_bounds (3 # 4) 2 7); reflexivity || discriminate. Defined.






(** ** [roomsOverlap] *)

(** Two intervals of integers with no free place between them hold two
    points at most one apart. *)
Lemma near_points (p w q v : Z) :
  0 < w -> 0 < v -> ~ p + w + 1 <= q -> ~ q + v + 1 <= p ->
  exists xa xb, p <= xa < p + w /\ q <= xb < q + v /\ Z.abs (xa - xb) <= 1.
Proof.
  intros Hw Hv H1 H2.
  destruct (Z.le_gt_cases (p + w) q) as [Hleft | Hnl].
  - exists (p + w - 1), q. lia.
  - destruct (Z.le_gt_cases (q + v) p) as [Hright | Hnr].
    + exists p, (q + v - 1). lia.
    + exists (Z.max p q), (Z.max p q). lia.
Qed.

(** X10. For two rooms with positive sides, [roomsOverlap] is true
    exactly when a cell of one is the same as, or next to (along a row,
    a column or a diagonal), a cell of the other; and it does not depend
    on the order of its arguments. *)
Theorem roomsOverlap_touching (a b : Room.t) :
  0 < Room.w a -> 0 < Room.h a -> 0 < Room.w b -> 0 < Room.h b ->
  (roomsOverlap a b = true <->
   exists xa ya xb yb,
     in_room a xa ya /\ in_room b xb yb /\
     Z.abs (xa - xb) <= 1 /\ Z.abs (ya - yb) <= 1) /\
  roomsOverlap a b = roomsOverlap b a.
Proof.
  intros Hwa Hha Hwb Hhb. split; [| apply roomsOverlap_sym].
  split.
  - intros Ht.
    assert (Hn : ~ (Room.x a + Room.w a + 1 <= Room.x b \/
                    Room.x b + Room.w b + 1 <= Room.x a \/
                    Room.y a + Room.h a + 1 <= Room.y b \/
                    Room.y b + Room.h b + 1 <= Room.y a)).
    { intros Hf. apply roomsOverlap_false in Hf. congruence. }
    destruct (near_points (Room.x a) (Room.w a) (Room.x b) (Room.w b))
      as (xa & xb & Hxa & Hxb & Hdx); try lia.
    destruct (near_points (Room.y a) (Room.h a) (Room.y b) (Room.h b))
      as (ya & yb & Hya & Hyb & Hdy); try lia.
    exists xa, ya, xb, yb. unfold in_room. auto.
  - intros (xa & ya & xb & yb & [Hxa Hya] & [Hxb Hyb] & Hdx & Hdy).
    destruct (roomsOverlap a b) eqn:E; [reflexivity |].
    apply roomsOverlap_false in E. lia.
Qed.

Lemma roomsOverlap_touching_witness :
  (roomsOverlap (Room.mk 2 2 4 3) (Room.mk 6 2 5 5) = true <->
   exists xa ya xb yb,
     in_room (Room.mk 2 2 4 3) xa ya /\ in_room (Room.mk 6 2 5 5) xb yb /\
     Z.abs (xa - xb) <= 1 /\ Z.abs (ya - yb) <= 1) /\
  roomsOverlap (Room.mk 2 2 4 3) (Room.mk 6 2 5 5)
  = roomsOverlap (Room.mk 6 2 5 5) (Room.mk 2 2 4 3).
Proof.
  apply (roomsOverlap_touching (Room.mk 2 2 4 3) (Room.mk 6 2 5 5));
    reflexivity.
Defined.

(** Two rooms side by side with no column between them overlap; with
    one free column they do not. *)
Example roomsOverlap_gap :
  roomsOverlap (Room.mk 2 2 4 3) (Room.mk 6 2 5 5) = true /\
  roomsOverlap (Room.mk 2 2 4 3) (Room.mk 7 2 5 5) = false.
Proof. split; reflexivity. Qed.

(** ** [createGrid] *)

(** X11. [createGrid(w, h, fill)] has [h] rows of [w] slots; a cell with
    [0 <= x < w] and [0 <= y < h] reads [fill] and every other
    coordinate reads [undefined]; with [w] or [h] at 0 or less no cell
    exists. *)
Theorem createGrid_cells (w h : Z) (fill : Tile) :
  length (createGrid w h fill) = Z.to_nat h /\
  Forall (fun row => length row = Z.to_nat w) (createGrid w h fill) /\
  (forall x y, 0 <= x < w -> 0 <= y < h ->
     cell (createGrid w h fill) x y = Some fill) /\
  (forall x y, ~ (0 <= x < w /\ 0 <= y < h) ->
     cell (createGrid w h fill) x y = None).
Proof.
  split; [apply length_replicate |]. split; [| split].
  - apply Forall_replicate, length_replicate.
  - intros x y Hx Hy. rewrite createGrid_cell.
    destruct (Z.leb_spec 0 x), (Z.ltb_spec x w), (Z.leb_spec 0 y),
      (Z.ltb_spec y h); try lia. reflexivity.
  - intros x y Hout. rewrite createGrid_cell.
    destruct (Z.leb_spec 0 x), (Z.ltb_spec x w), (Z.leb_spec 0 y),
      (Z.ltb_spec y h); try reflexivity. lia.
Qed.

(** ** Corridors in any order *)

(** X12. On a grid of [WIDTH] by [HEIGHT] cells, carving two corridors
    gives the same grid whichever is carved first (each with its own
    draw). *)
Theorem carveCorridor_commute (g : Grid) (rA rB : Q)
    (ax1 ay1 ax2 ay2 bx1 by1 bx2 by2 : Z) :
  grid_ok g ->
  exists g2,
    (carveCorridor g rA ax1 ay1 ax2 ay2
       ≫= fun g1 => carveCorridor g1 rB bx1 by1 bx2 by2) = Ok g2 /\
    (carveCorridor g rB bx1 by1 bx2 by2
       ≫= fun g1 => carveCorridor g1 rA ax1 ay1 ax2 ay2) = Ok g2.
Proof.
  intros Hg.
  destruct (carveCorridor_ok g rA ax1 ay1 ax2 ay2 Hg) as (gA & EA & HgA).
  destruct (carveCorridor_ok gA rB bx1 by1 bx2 by2 HgA) as (gAB & EAB & HgAB).
  destruct (carveCorridor_ok g rB bx1 by1 bx2 by2 Hg) as (gB & EB & HgB).
  destruct (carveCorridor_ok gB rA ax1 ay1 ax2 ay2 HgB) as (gBA & EBA & HgBA).
  exists gAB. rewrite EA, EB. cbn. split; [exact EAB |]. rewrite EBA. f_equal.
  apply grid_ext; [exact HgBA | exact HgAB |]. intros x y _.
  pose proof (carveCorridor_carved_in _ _ _ _ _ _ _ EA x y) as HA.
  pose proof (carveCorridor_carved_in _ _ _ _ _ _ _ EAB x y) as HAB.
  pose proof (carveCorridor_carved_in _ _ _ _ _ _ _ EB x y) as HB.
  pose proof (carveCorridor_carved_in _ _ _ _ _ _ _ EBA x y) as HBA.
  assert (FA : on_corridor (lessThanHalf rA) ax1 ay1 ax2 ay2 x y ->
               cell gAB x y = Some FLOOR /\ cell gBA x y = Some FLOOR).
  { intros Hon. split.
    - eapply carved_in_floor; [eapply carveCorridor_carved, EAB |].
      eapply carveCorridor_floor; eassumption.
    - eapply carveCorridor_floor; eassumption. }
  assert (FB : on_corridor (lessThanHalf rB) bx1 by1 bx2 by2 x y ->
               cell gAB x y = Some FLOOR /\ cell gBA x y = Some FLOOR).
  { intros Hon. split.
    - eapply carveCorridor_floor; eassumption.
    - eapply carved_in_floor; [eapply carveCorridor_carved, EBA |].
      eapply carveCorridor_floor; eassumption. }
  destruct HAB as [HAB | [Hon _]]; [| destruct (FB Hon); congruence].
  destruct HA as [HA | [Hon _]]; [| destruct (FA Hon); congruence].
  destruct HBA as [HBA | [Hon _]]; [| destruct (FA Hon); congruence].
  destruct HB as [HB | [Hon _]]; [| destruct (FB Hon); congruence].
  congruence.
Qed.

Lemma carveCorridor_commute_witness :
  exists g2,
    (carveCorridor grid0 0 2 2 9 7
       ≫= fun g1 => carveCorridor g1 (3 # 4) 5 12 20 3) = Ok g2 /\
    (carveCorridor grid0 (3 # 4) 5 12 20 3
       ≫= fun g1 => carveCorridor g1 0 2 2 9 7) = Ok g2.
Proof.
  exact (carveCorridor_commute grid0 0 (3 # 4) 2 2 9 7 5 12 20 3 grid0_ok).
Defined.

(** X13. On a grid of [WIDTH] by [HEIGHT] cells, when the two end points
    share a row or a column the corridor is a straight run and the grid
    [carveCorridor] returns does not depend on its random draw. *)
Theorem carveCorridor_straight (g : Grid) (r1 r2 : Q) (x1 y1 x2 y2 : Z) :
  grid_ok g -> x1 = x2 \/ y1 = y2 ->
  carveCorridor g r1 x1 y1 x2 y2 = carveCorridor g r2 x1 y1 x2 y2.
Proof.
  intros Hg Hal.
  destruct (carveCorridor_ok g r1 x1 y1 x2 y2 Hg) as (g1 & E1 & Hg1).
  destruct (carveCorridor_ok g r2 x1 y1 x2 y2 Hg) as (g2 & E2 & Hg2).
  rewrite E1, E2. f_equal. apply grid_ext; [exact Hg1 | exact Hg2 |].
  intros x y _.
  pose proof (carveCorridor_carved_in _ _ _ _ _ _ _ E1 x y) as H1.
  pose proof (carveCorridor_carved_in _ _ _ _ _ _ _ E2 x y) as H2.
  assert (F : forall b, on_corridor b x1 y1 x2 y2 x y ->
                cell g1 x y = Some FLOOR /\ cell g2 x y = Some FLOOR).
  { intros b Hon. split.
    - eapply carveCorridor_floor; [exact E1 |].
      eapply on_corridor_aligned; eassumption.
    - eapply carveCorridor_floor; [exact E2 |].
      eapply on_corridor_aligned; eassumption. }
  destruct H1 as [H1 | [Hon _]]; [| destruct (F _ Hon); congruence].
  destruct H2 as [H2 | [Hon _]]; [| destruct (F _ Hon); congruence].
  congruence.
Qed.

Lemma carveCorridor_straight_witness :
  carveCorridor grid0 0 2 5 9 5 = carveCorridor grid0 (1 # 2) 2 5 9 5.
Proof. apply (carveCorridor_straight grid0 0 (1 # 2) 2 5 9 5 grid0_ok). right. reflexivity. Defined.

(** ** Ties in the search for the closest pair *)

Lemma scan_step_cases centers connected a b best best' :
  scan_step centers connected a b best = Ok best' ->
  best' = best \/
  (best' = mkBest a b (Some (dist_between centers a b)) /\
   (b ∉ connected) /\
   lt_dist (dist_between centers a b) (bestDist best) = true).
Proof.
  unfold scan_step. destruct (set_has connected b) eqn:Hhas.
  - intros [= <-]. left. reflexivity.
  - apply set_has_false in Hhas. unfold at_index, dist_between.
    destruct (get centers a) as [ca |]; [| discriminate].
    destruct (get centers b) as [cb |]; [| discriminate]. cbn.
    destruct (lt_dist (manhattan ca cb) (bestDist best)) eqn:Hlt;
      intros [= <-]; [right | left]; auto.
Qed.

Section FirstFound.
Variables (centers : list Point.t) (connected : list Z).

Local Abbreviation n := (Z.of_nat (length centers)).
Local Abbreviation seen := (seen_pairs (Z.of_nat (length centers))).

Lemma scan_step_first pre a post j best :
  connected = pre ++ a :: post -> 0 <= a < n -> 0 <= j < n ->
  best_inv centers connected (seen pre a j) best ->
  first_inv centers connected best ->
  exists best',
    scan_step centers connected a j best = Ok best' /\
    best_inv centers connected (seen pre a (j + 1)) best' /\
    first_inv centers connected best'.
Proof.
  intros Hc Hra Hrj Hinv Hfirst.
  assert (Ha : a ∈ connected).
  { rewrite Hc. apply elem_of_app. right. apply elem_of_cons. left. reflexivity. }
  destruct (scan_step_inv centers connected _ a j best Ha Hra Hrj Hinv)
    as (best' & E & Hinv').
  exists best'. split; [exact E |]. split.
  - eapply best_inv_ext; [| exact Hinv'].
    unfold seen_pairs. intros a' b' [Hs | [-> Hb]]; [left; left; exact Hs |].
    destruct (decide (b' = j)) as [-> | Hne];
      [right; auto | left; right; split; [reflexivity | lia]].
  - apply scan_step_cases in E as [-> | (-> & Hout & Hlt)]; [exact Hfirst |].
    unfold first_inv. cbn. exists pre, post. split; [exact Hc |].
    unfold best_inv in Hinv. destruct (bestDist best) as [d |]; cbn in Hlt.
    + destruct Hinv as (_ & _ & _ & Hmin). apply Z.ltb_lt in Hlt. split.
      * intros a' b' Ha' [Hrb Hob].
        specialize (Hmin a' b' (or_introl (conj Ha' Hrb)) Hob). lia.
      * intros b' [Hrb Hob] Hlt'.
        assert (Hs : seen pre a j a b')
          by (right; split; [reflexivity | lia]).
        specialize (Hmin a b' Hs Hob). lia.
    + destruct Hinv as (_ & _ & Hnone). split.
      * intros a' b' Ha' [Hrb Hob]. destruct Hob.
        apply (Hnone a' b'). left. auto.
      * intros b' [Hrb Hob] Hlt'. destruct Hob.
        apply (Hnone a b'). right. split; [reflexivity | lia].
Qed.

Lemma scan_row_first pre a post best :
  connected = pre ++ a :: post -> 0 <= a < n ->
  best_inv centers connected (fun a' b' => a' ∈ pre /\ 0 <= b' < n) best ->
  first_inv centers connected best ->
  exists best',
    for_lt 0 n (fun b best1 => scan_step centers connected a b best1) best
    = Ok best' /\
    best_inv centers connected
      (fun a' b' => a' ∈ pre ++ [a] /\ 0 <= b' < n) best' /\
    first_inv centers connected best'.
Proof.
  intros Hc Hra Hinv Hfirst. unfold for_lt.
  destruct (for_iter_total
    (fun j best1 => best_inv centers connected (seen pre a j) best1 /\
                    first_inv centers connected best1)
    (fun b best1 => scan_step centers connected a b best1)
    (Z.to_nat (n - 0)) 0 best) as (best' & E & Hinv' & Hfirst').
  - intros j best1 Hj [Hi1 Hf1].
    destruct (scan_step_first pre a post j best1 Hc Hra ltac:(lia) Hi1 Hf1)
      as (best2 & E2 & Hi2 & Hf2). eauto.
  - split; [| exact Hfirst].
    eapply best_inv_ext; [| exact Hinv].
    unfold seen_pairs. intros a' b' [Hs | [_ Hb]]; [exact Hs | lia].
  - exists best'. split; [exact E |]. split; [| exact Hfirst'].
    eapply best_inv_ext; [| exact Hinv'].
    unfold seen_pairs. intros a' b' [Hin Hb].
    apply elem_of_app in Hin as [Hin | Hin]; [left; auto |].
    apply list_elem_of_singleton in Hin. right. split; [exact Hin | lia].
Qed.

Hypothesis connected_range : forall a, a ∈ connected -> 0 <= a < n.

Lemma findBest_first :
  exists best,
    findBest centers connected = Ok best /\
    best_inv centers connected
      (fun a b => a ∈ connected /\ 0 <= b < n) best /\
    first_inv centers connected best.
Proof.
  unfold findBest.
  destruct (for_of_total
    (fun pre best =>
       best_inv centers connected (fun a b => a ∈ pre /\ 0 <= b < n) best /\
       first_inv centers connected best)
    (fun a best =>
       for_lt 0 (Z.of_nat (length centers))
         (fun b best' => scan_step centers connected a b best') best)
    connected (mkBest (-1) (-1) None)) as (best & E & Hinv & Hfirst).
  - intros pre a post best1 Hl [Hi1 Hf1].
    assert (Ha : a ∈ connected).
    { rewrite Hl. apply elem_of_app. right. apply elem_of_cons. left. reflexivity. }
    destruct (scan_row_first pre a post best1 Hl (connected_range a Ha) Hi1 Hf1)
      as (best2 & E2 & Hi2 & Hf2). eauto.
  - split; [| exact I]. unfold best_inv. cbn.
    split; [reflexivity |]. split; [reflexivity |].
    intros a b [Hin _]. apply elem_of_nil in Hin. contradiction.
  - eauto.
Qed.
End FirstFound.

(** X14. With a connected room and an unconnected one, the two nested
    loops that look for the closest pair return a pair [(a, b)] of a
    connected and an unconnected room at the least distance, and among
    the pairs at that distance the first one they visit: every such
    pair whose [a] comes earlier in [connected], or with the same [a]
    and a smaller [b], is strictly farther. *)
Theorem findBest_first_found (centers : list Point.t) (connected : list Z)
    (a0 b0 : Z) :
  (forall a, a ∈ connected -> 0 <= a < Z.of_nat (length centers)) ->
  a0 ∈ connected -> unconnected centers connected b0 ->
  exists best pre post,
    findBest centers connected = Ok best /\
    closest_pair centers connected (bestA best) (bestB best) /\
    bestDist best = Some (dist_between centers (bestA best) (bestB best)) /\
    connected = pre ++ bestA best :: post /\
    (forall a' b', a' ∈ pre -> unconnected centers connected b' ->
       dist_between centers (bestA best) (bestB best)
       < dist_between centers a' b') /\
    (forall b', unconnected centers connected b' -> b' < bestB best ->
       dist_between centers (bestA best) (bestB best)
       < dist_between centers (bestA best) b').
Proof.
  intros Hrange Ha0 [Hb0 Hout0].
  destruct (findBest_first centers connected Hrange) as (best & E & Hinv & Hfirst).
  unfold best_inv in Hinv. unfold first_inv in Hfirst.
  destruct (bestDist best) as [d |] eqn:Ed.
  - destruct Hinv as (Ha & Hb & Hd & Hmin).
    destruct Hfirst as (pre & post & Hc & Hpre & Hsame).
    exists best, pre, post. subst d.
    split; [exact E |]. split; [| split; [exact Ed | auto]].
    split; [exact Ha |]. split; [exact Hb |].
    intros a' b' Ha' [Hrb' Hout']. apply Hmin; auto.
  - destruct Hinv as (_ & _ & Hnone).
    exfalso. apply Hout0. apply (Hnone a0 b0). split; assumption.
Qed.

Lemma findBest_first_found_witness :
  exists best pre post,
    findBest tie_centers [0] = Ok best /\
    closest_pair tie_centers [0] (bestA best) (bestB best) /\
    bestDist best = Some (dist_between tie_centers (bestA best) (bestB best)) /\
    [0] = pre ++ bestA best :: post /\
    (forall a' b', a' ∈ pre -> unconnected tie_centers [0] b' ->
       dist_between tie_centers (bestA best) (bestB best)
       < dist_between tie_centers a' b') /\
    (forall b', unconnected tie_centers [0] b' -> b' < bestB best ->
       dist_between tie_centers (bestA best) (bestB best)
       < dist_between tie_centers (bestA best) b').
Proof.
  apply (findBest_first_found tie_centers [0] 0 2).
  - intros a Ha. apply list_elem_of_singleton in Ha. subst a. cbn. lia.
  - apply list_elem_of_singleton. reflexivity.
  - split; [cbn; lia |]. intros H. apply list_elem_of_singleton in H. discriminate.
Defined.

(** Rooms 1 and 2 are both 10 away from room 0: the search returns room
    1, which it visits first. *)
Example findBest_tie : findBest tie_centers [0] = Ok (mkBest 0 1 (Some 10)).
Proof. reflexivity. Qed.

(** ** The draws a call reads *)

Lemma placeRooms_body_pos rnd st st' :
  placeRooms_body rnd st = Ok st' -> pl_pos st' = (pl_pos st + 4)%nat.
Proof.
  unfold placeRooms_body. cbv zeta. destruct (existsb _ (pl_rooms st)).
  - intros [= <-]. reflexivity.
  - intros H. apply bind_Ok in H as (g & _ & [= <-]). reflexivity.
Qed.

Lemma placeRooms_loop_pos rnd roomCount fuel st st' :
  placeRooms_loop fuel rnd roomCount st = Ok st' ->
  (pl_pos st <= pl_pos st')%nat.
Proof.
  revert st. induction fuel as [| fuel IH]; intros st; cbn;
    destruct (placeRooms_cond roomCount st); try discriminate;
    try (intros [= <-]; lia).
  intros H. apply bind_Ok in H as (st1 & H1 & H2).
  apply placeRooms_body_pos in H1. apply IH in H2. lia.
Qed.

Lemma placeRooms_body_same rnd rnd' st :
  same_draws rnd rnd' (pl_pos st) (pl_pos st + 4) ->
  placeRooms_body rnd' st = placeRooms_body rnd st.
Proof.
  intros Hs. unfold placeRooms_body.
  rewrite (Hs (pl_pos st)), (Hs (pl_pos st + 1)%nat),
    (Hs (pl_pos st + 2)%nat), (Hs (pl_pos st + 3)%nat) by lia.
  reflexivity.
Qed.

Lemma placeRooms_loop_same rnd rnd' roomCount fuel st st' :
  placeRooms_loop fuel rnd roomCount st = Ok st' ->
  same_draws rnd rnd' (pl_pos st) (pl_pos st') ->
  placeRooms_loop fuel rnd' roomCount st = Ok st'.
Proof.
  revert st. induction fuel as [| fuel IH]; intros st; cbn;
    destruct (placeRooms_cond roomCount st); try discriminate; auto.
  intros H Hs. apply bind_Ok in H as (st1 & H1 & H2).
  pose proof (placeRooms_body_pos _ _ _ H1) as Hp1.
  pose proof (placeRooms_loop_pos _ _ _ _ _ H2) as Hp2.
  rewrite (placeRooms_body_same rnd rnd'), H1.
  - cbn. apply IH; [exact H2 |]. intros k Hk. apply Hs. lia.
  - intros k Hk. apply Hs. lia.
Qed.

Lemma connect_loop_pos rnd centers fuel st st' :
  connect_loop fuel rnd centers st = Ok st' -> (cn_pos st <= cn_pos st')%nat.
Proof.
  revert st. induction fuel as [| fuel IH]; intros st; cbn;
    destruct (Z.of_nat (length (cn_connected st)) <? Z.of_nat (length centers));
    try discriminate; try (intros [= <-]; lia).
  intros H. apply bind_Ok in H as (best & _ & H).
  destruct (negb (bestA best =? -1) && negb (bestB best =? -1)).
  - apply bind_Ok in H as (ca & _ & H). apply bind_Ok in H as (cb & _ & H).
    apply bind_Ok in H as (g & _ & H). apply IH in H. cbn in H. lia.
  - injection H as <-. cbn. lia.
Qed.

Lemma connect_loop_same rnd rnd' centers fuel st st' :
  connect_loop fuel rnd centers st = Ok st' ->
  same_draws rnd rnd' (cn_pos st) (cn_pos st') ->
  connect_loop fuel rnd' centers st = Ok st'.
Proof.
  revert st. induction fuel as [| fuel IH]; intros st; cbn;
    destruct (Z.of_nat (length (cn_connected st)) <? Z.of_nat (length centers));
    try discriminate; auto.
  intros H Hs. apply bind_Ok in H as (best & Hbest & H). rewrite Hbest. cbn.
  destruct (negb (bestA best =? -1) && negb (bestB best =? -1)); [| exact H].
  apply bind_Ok in H as (ca & Hca & H). apply bind_Ok in H as (cb & Hcb & H).
  apply bind_Ok in H as (g & Hg & H).
  pose proof (connect_loop_pos _ _ _ _ _ H) as Hp. cbn in Hp.
  rewrite Hca. cbn. rewrite Hcb. cbn.
  rewrite (Hs (cn_pos st)) by lia. rewrite Hg. cbn.
  apply IH; [exact H |]. cbn. intros k Hk. apply Hs. lia.
Qed.

(** X15. [generateDungeon] reads the random sequence from its starting
    position on, one draw after the other and none twice: its position
    never moves back, and a sequence that gives the same draws from the
    starting position up to the final one gives the same grid, rooms
    and final position. *)
Theorem generateDungeon_reads (rnd rnd' : nat -> Q) (p : nat) (roomCount : Z)
    (g : Grid) (rooms : list Room.t) (p' : nat) :
  generateDungeon rnd p roomCount = Ok (g, rooms, p') ->
  same_draws rnd rnd' p p' ->
  (p <= p')%nat /\ generateDungeon rnd' p roomCount = Ok (g, rooms, p').
Proof.
  intros H Hs.
  apply generateDungeon_inv in H as (g1 & p1 & H1 & H2).
  unfold placeRooms, placeRooms_from in H1.
  apply bind_Ok in H1 as (pst & H1 & [= <- <- <-]).
  unfold connectRoomsWithCorridors in H2.
  apply bind_Ok in H2 as (cst & H2 & [= <- <-]).
  pose proof (placeRooms_loop_pos _ _ _ _ _ H1) as Hp1. cbn in Hp1.
  assert (Hp2 : (pl_pos pst <= cn_pos cst)%nat).
  { unfold connect_run in H2. destruct (length (pl_rooms pst) =? 0)%nat.
    - injection H2 as <-. cbn. lia.
    - apply connect_loop_pos in H2. exact H2. }
  split; [lia |].
  unfold generateDungeon, placeRooms, placeRooms_from.
  rewrite (placeRooms_loop_same rnd rnd' _ _ _ _ H1)
    by (intros k Hk; apply Hs; cbn in Hk; lia).
  cbn. unfold connectRoomsWithCorridors.
  assert (E : connect_run (length (pl_rooms pst)) rnd' (pl_pos pst)
                (pl_grid pst) (pl_rooms pst) = Ok cst).
  { unfold connect_run in *. destruct (length (pl_rooms pst) =? 0)%nat;
      [exact H2 |].
    apply (connect_loop_same rnd rnd' _ _ _ _ H2).
    intros k Hk. apply Hs. cbn in Hk. lia. }
  rewrite E. reflexivity.
Qed.

Lemma generateDungeon_reads_witness :
  (0 <= dungeon_pos)%nat /\
  generateDungeon rnd_cut 0 2 = Ok (dungeon_grid, dungeon_rooms, dungeon_pos).
Proof.
  apply (generateDungeon_reads rnd_cycle rnd_cut 0 2 dungeon_grid dungeon_rooms
           dungeon_pos sample_dungeon_eq).
  intros k Hk. unfold rnd_cut.
  destruct (Nat.ltb_spec k 9) as [_ | Hge]; [reflexivity |].
  exfalso. revert Hk. vm_compute. lia.
Defined.

(** ** The corridors are as short as a spanning set can be *)

Lemma linked_one es a b :
  (a, b) ∈ es \/ (b, a) ∈ es -> linked es a b.
Proof. intros H. eapply linked_more; [apply linked_here | exact H]. Qed.

Lemma linked_trans es a b c :
  linked es a b -> linked es b c -> linked es a c.
Proof.
  intros Hab Hbc. induction Hbc as [| b c d _ IH Hcd]; [exact Hab |].
  eapply linked_more; [apply IH, Hab | exact Hcd].
Qed.

Lemma linked_sym es a b : linked es a b -> linked es b a.
Proof.
  induction 1 as [| a b c _ IH Hbc]; [apply linked_here |].
  eapply linked_trans; [| exact IH].
  apply linked_one. tauto.
Qed.

Lemma linked_mono es es' a b :
  (forall e, e ∈ es -> e ∈ es') -> linked es a b -> linked es' a b.
Proof.
  intros Hsub. induction 1 as [| a b c _ IH Hbc]; [apply linked_here |].
  eapply linked_more; [exact IH |]. destruct Hbc; auto.
Qed.

Lemma edges_weight_cons centers e es :
  edges_weight centers (e :: es)
  = dist_between centers (fst e) (snd e) + edges_weight centers es.
Proof. reflexivity. Qed.

Lemma edges_weight_app centers es1 es2 :
  edges_weight centers (es1 ++ es2)
  = edges_weight centers es1 + edges_weight centers es2.
Proof.
  induction es1 as [| e es1 IH]; cbn; [reflexivity |].
  unfold edges_weight in *. cbn. rewrite IH. lia.
Qed.

Lemma dist_between_nonneg centers a b : 0 <= dist_between centers a b.
Proof.
  unfold dist_between, manhattan.
  destruct (get centers a), (get centers b); lia.
Qed.

Lemma dist_between_sym centers a b :
  dist_between centers a b = dist_between centers b a.
Proof.
  unfold dist_between, manhattan.
  destruct (get centers a), (get centers b); lia.
Qed.

Lemma edges_weight_nonneg centers es : 0 <= edges_weight centers es.
Proof.
  induction es as [| e es IH]; cbn; [lia |].
  pose proof (dist_between_nonneg centers (fst e) (snd e)).
  unfold edges_weight in *. cbn. lia.
Qed.

Lemma prim_trace_edges_inside centers connected edges :
  prim_trace centers connected edges ->
  forall e, e ∈ edges -> fst e ∈ connected /\ snd e ∈ connected.
Proof.
  induction 1 as [| connected edges a b _ IH (Ha & _ & _)]; intros e He.
  - apply elem_of_nil in He. contradiction.
  - apply elem_of_app in He as [He | He].
    + destruct (IH e He). split; apply elem_of_app; left; assumption.
    + apply list_elem_of_singleton in He. subst e. cbn.
      split; apply elem_of_app; [left; exact Ha |].
      right. apply list_elem_of_singleton. reflexivity.
Qed.

(** A walk from inside [s] to outside it leaves [s] a last time. *)
Lemma linked_crossing (s : list Z) es a b :
  linked es a b -> a ∈ s -> b ∉ s ->
  exists e u v,
    e ∈ es /\ (e = (u, v) \/ e = (v, u)) /\ u ∈ s /\ (v ∉ s) /\
    linked (outside_edges s es) v b.
Proof.
  induction 1 as [| a b c Hab IH Hbc]; intros Ha Hc; [contradiction |].
  destruct (decide (b ∈ s)) as [Hb | Hb].
  - destruct Hbc as [Hbc | Hbc].
    + exists (b, c), b, c. repeat split; auto. apply linked_here.
    + exists (c, b), b, c. repeat split; auto. apply linked_here.
  - destruct (IH Ha Hb) as (e & u & v & He & Huv & Hu & Hv & Hout).
    exists e, u, v. repeat split; try assumption.
    eapply linked_more; [exact Hout |].
    destruct Hbc as [Hbc | Hbc]; [left | right];
      apply list_elem_of_filter; cbn; auto.
Qed.

Lemma prim_step_shorter centers connected edges a b rest :
  0 < Z.of_nat (length centers) ->
  prim_trace centers connected edges ->
  closest_pair centers connected a b ->
  valid_edges centers rest -> spans centers (edges ++ rest) ->
  exists rest',
    valid_edges centers rest' /\
    spans centers ((edges ++ [(a, b)]) ++ rest') /\
    edges_weight centers ((edges ++ [(a, b)]) ++ rest')
    <= edges_weight centers (edges ++ rest).
Proof.
  intros Hn Htr Hcl Hvalid Hspan.
  pose proof Hcl as (Ha & [Hrb Hob] & Hmin).
  pose proof (prim_trace_first _ _ _ Htr) as H0.
  destruct (linked_crossing connected _ 0 b (Hspan b Hrb) H0 Hob)
    as (f & u & v & Hf & Huv & Hu & Hv & Hout).
  assert (Hfrest : f ∈ rest).
  { apply elem_of_app in Hf as [Hf | Hf]; [| exact Hf].
    destruct (prim_trace_edges_inside _ _ _ Htr f Hf) as [H1 H2].
    destruct Huv as [-> | ->]; cbn in *; contradiction. }
  apply list_elem_of_split in Hfrest as (r1 & r2 & ->).
  assert (Hvf : 0 <= v < Z.of_nat (length centers)).
  { unfold valid_edges in Hvalid. apply Forall_app in Hvalid as [_ Hvalid].
    apply Forall_cons in Hvalid as [Hvf _].
    destruct Huv as [-> | ->]; cbn in Hvf; lia. }
  assert (Hw : dist_between centers a b <= dist_between centers (fst f) (snd f)).
  { specialize (Hmin u v Hu (conj Hvf Hv)).
    destruct Huv as [-> | ->]; cbn; [exact Hmin |].
    rewrite (dist_between_sym _ v u). exact Hmin. }
  exists (r1 ++ r2). split; [| split].
  - unfold valid_edges in *. apply Forall_app in Hvalid as [V1 V2].
    apply Forall_cons in V2 as [_ V2]. apply Forall_app. auto.
  - set (G' := (edges ++ [(a, b)]) ++ r1 ++ r2).
    assert (Hin_edges : forall e, e ∈ edges -> e ∈ G').
    { intros e He. unfold G'. rewrite !elem_of_app. auto. }
    assert (Hkeep : forall e, e ∈ edges ++ r1 ++ f :: r2 -> e <> f -> e ∈ G').
    { intros e He Hne. unfold G'. rewrite !elem_of_app in *.
      rewrite elem_of_cons in He. tauto. }
    assert (Hdetour : linked G' u v).
    { apply (linked_trans _ _ a).
      - apply (linked_mono edges); [exact Hin_edges |].
        eapply linked_trans;
          [apply linked_sym; eapply prim_trace_linked; eassumption |].
        eapply prim_trace_linked; eassumption.
      - apply (linked_trans _ _ b).
        + apply linked_one. left. unfold G'. rewrite !elem_of_app.
          left. right. apply list_elem_of_singleton. reflexivity.
        + apply linked_sym.
          apply (linked_mono (outside_edges connected (edges ++ r1 ++ f :: r2)));
            [| exact Hout].
          intros e He. apply list_elem_of_filter in He as [[He1 He2] He].
          apply Hkeep; [exact He |]. intros ->.
          destruct Huv as [-> | ->]; cbn in *; contradiction. }
    assert (Hreroute : forall x y, linked (edges ++ r1 ++ f :: r2) x y ->
                                   linked G' x y).
    { induction 1 as [| x y z _ IH Hyz]; [apply linked_here |].
      apply (linked_trans _ _ y); [exact IH |].
      destruct Hyz as [Hyz | Hyz].
      - destruct (decide ((y, z) = f)) as [E | Hne].
        + rewrite <- E in Huv.
          destruct Huv as [[= -> ->] | [= -> ->]];
            [exact Hdetour | apply linked_sym, Hdetour].
        + apply linked_one. left. apply Hkeep; assumption.
      - destruct (decide ((z, y) = f)) as [E | Hne].
        + rewrite <- E in Huv.
          destruct Huv as [[= -> ->] | [= -> ->]];
            [apply linked_sym, Hdetour | exact Hdetour].
        + apply linked_one. right. apply Hkeep; assumption. }
    intros i Hi. apply Hreroute, Hspan, Hi.
  - rewrite !edges_weight_app, !edges_weight_cons.
    change (edges_weight centers []) with 0. cbn [fst snd]. lia.
Qed.

Lemma prim_trace_shortest centers connected edges :
  0 < Z.of_nat (length centers) ->
  prim_trace centers connected edges ->
  forall other, valid_edges centers other -> spans centers other ->
    exists rest,
      valid_edges centers rest /\ spans centers (edges ++ rest) /\
      edges_weight centers (edges ++ rest) <= edges_weight centers other.
Proof.
  intros Hn. induction 1 as [| connected edges a b Htr IH Hcl];
    intros other Hvalid Hspan.
  - exists other. split; [exact Hvalid |]. split; [exact Hspan | apply Z.le_refl].
  - destruct (IH other Hvalid Hspan) as (rest & Hv & Hs & Hw).
    destruct (prim_step_shorter centers connected edges a b rest
                Hn Htr Hcl Hv Hs) as (rest' & Hv' & Hs' & Hw').
    exists rest'. split; [exact Hv' |]. split; [exact Hs' | lia].
Qed.

(** X16. On a grid of [WIDTH] by [HEIGHT] cells and for a non-empty list
    of rooms, the corridors the connector carves into the grid are those
    of the pairs it records: every cell of the corridor between the
    centers of a pair is FLOOR in the grid returned and every cell on
    none of them reads as before. These pairs join rooms of the list,
    reach every room from room 0, and are a shortest way to do so: the
    sum of the distances between the centers they join is at most that
    of any list of pairs of rooms that reaches every room from room 0.
    The corridors form a minimum spanning tree. *)
Theorem connect_minimum_spanning (rnd : nat -> Q) (p : nat) (g : Grid)
    (rooms : list Room.t) (st : ConnState) :
  grid_ok g -> rooms <> [] ->
  connect_run (length rooms) rnd p g rooms = Ok st ->
  corridors_carved rnd (map center rooms) p g (cn_edges st) (cn_grid st) /\
  valid_edges (map center rooms) (cn_edges st) /\
  spans (map center rooms) (cn_edges st) /\
  forall other,
    valid_edges (map center rooms) other -> spans (map center rooms) other ->
    edges_weight (map center rooms) (cn_edges st)
    <= edges_weight (map center rooms) other.
Proof.
  intros Hg Hne Hrun.
  destruct (connect_total rnd p g rooms (length rooms) Hg Hne ltac:(lia))
    as (st' & E & Hinv & Hlen).
  assert (st' = st) by congruence. subst st'.
  pose proof (ci_trace _ _ _ _ Hinv) as Htr.
  assert (Hn : 0 < Z.of_nat (length (map center rooms))).
  { rewrite length_map. destruct rooms; [congruence | cbn; lia]. }
  pose proof (prim_trace_range _ Hn _ _ Htr) as Hrange.
  split; [eapply connect_run_corridors, Hrun |]. split; [| split].
  - apply Forall_forall. intros e He.
    destruct (prim_trace_edges_inside _ _ _ Htr e He) as [H1 H2]. auto.
  - intros i Hi. eapply prim_trace_linked; [exact Htr |].
    apply (indices_full _ (Z.of_nat (length (map center rooms))));
      [eapply prim_trace_NoDup, Htr | exact Hrange | | exact Hi].
    rewrite length_map. lia.
  - intros other Hv Hs.
    destruct (prim_trace_shortest _ _ _ Hn Htr other Hv Hs)
      as (rest & _ & _ & Hw).
    rewrite edges_weight_app in Hw.
    pose proof (edges_weight_nonneg (map center rooms) rest). lia.
Qed.

Lemma three_conn_eq :
  connect_run (length three_rooms) rnd_cycle 0 grid0 three_rooms = Ok three_conn.
Proof. vm_compute. reflexivity. Qed.

Lemma connect_minimum_spanning_witness :
  corridors_carved rnd_cycle (map center three_rooms) 0 grid0
    (cn_edges three_conn) (cn_grid three_conn) /\
  valid_edges (map center three_rooms) (cn_edges three_conn) /\
  spans (map center three_rooms) (cn_edges three_conn) /\
  forall other,
    valid_edges (map center three_rooms) other ->
    spans (map center three_rooms) other ->
    edges_weight (map center three_rooms) (cn_edges three_conn)
    <= edges_weight (map center three_rooms) other.
Proof.
  apply (connect_minimum_spanning rnd_cycle 0 grid0 three_rooms three_conn
           grid0_ok); [discriminate | exact three_conn_eq].
Defined.

(** Cells of the two corridors of the three hand-written rooms: the
    first runs along row 3 and then down column 12, the second along
    row 3 and then down column 43. *)
Example three_rooms_corridor_cells :
  cell grid0 12 20 = Some WALL /\
  cell (cn_grid three_conn) 12 20 = Some FLOOR /\
  cell (cn_grid three_conn) 30 3 = Some FLOOR /\
  cell (cn_grid three_conn) 43 5 = Some FLOOR /\
  cell (cn_grid three_conn) 13 20 = Some WALL.
Proof. vm_compute. repeat split; reflexivity. Qed.

(** The two corridors of the three hand-written rooms are 37 and 43
    long. *)
Example three_rooms_weight :
  edges_weight (map center three_rooms) (cn_edges three_conn) = 80.
Proof. vm_compute. reflexivity. Qed.

(** ** End points in either order *)

(** X17. The line functions do not depend on the order of their two end
    coordinates, on any grid; and on a grid of [WIDTH] by [HEIGHT]
    cells a corridor carved from the second point to the first with the
    vertical run first is the corridor carved from the first to the
    second with the horizontal run first, and the other way round. *)
Theorem carve_reversed (g : Grid) (r r' : Q) (x1 y1 x2 y2 : Z) :
  carveLineH g x1 x2 y1 = carveLineH g x2 x1 y1 /\
  carveLineV g y1 y2 x1 = carveLineV g y2 y1 x1 /\
  (grid_ok g -> lessThanHalf r' = negb (lessThanHalf r) ->
   carveCorridor g r' x2 y2 x1 y1 = carveCorridor g r x1 y1 x2 y2).
Proof.
  split; [| split].
  - rewrite !carveLineH_line, Z.min_comm, Z.max_comm. reflexivity.
  - rewrite !carveLineV_line, Z.min_comm, Z.max_comm. reflexivity.
  - intros Hg Hr.
    destruct (carveCorridor_ok g r x1 y1 x2 y2 Hg) as (g1 & E1 & Hg1).
    destruct (carveCorridor_ok g r' x2 y2 x1 y1 Hg) as (g2 & E2 & Hg2).
    rewrite E1, E2. f_equal. apply grid_ext; [exact Hg2 | exact Hg1 |].
    intros x y _.
    assert (Hsame : on_corridor (lessThanHalf r') x2 y2 x1 y1 x y <->
                    on_corridor (lessThanHalf r) x1 y1 x2 y2 x y).
    { rewrite Hr. unfold on_corridor, on_run_h, on_run_v.
      destruct (lessThanHalf r); cbn;
        rewrite (Z.min_comm x2 x1), (Z.max_comm x2 x1),
                (Z.min_comm y2 y1), (Z.max_comm y2 y1); tauto. }
    pose proof (carveCorridor_carved_in _ _ _ _ _ _ _ E1 x y) as H1.
    pose proof (carveCorridor_carved_in _ _ _ _ _ _ _ E2 x y) as H2.
    assert (F1 : on_corridor (lessThanHalf r) x1 y1 x2 y2 x y ->
                 cell g1 x y = Some FLOOR /\ cell g2 x y = Some FLOOR).
    { intros Hon. split.
      - eapply carveCorridor_floor; eassumption.
      - eapply carveCorridor_floor; [exact E2 |]. apply Hsame, Hon. }
    destruct H1 as [H1 | [Hon _]]; [| destruct (F1 Hon); congruence].
    destruct H2 as [H2 | [Hon _]];
      [| apply Hsame in Hon; destruct (F1 Hon); congruence].
    congruence.
Qed.

(** ** The rendered cells *)

Lemma omap_imap_full {B} (f : nat -> Tile -> B) (row : Row) :
  Forall (fun s => s <> None) row ->
  omap id (imap (fun x s => f x <$> s) row)
  = imap (fun x s => f x (default WALL s)) row.
Proof.
  revert f. induction row as [| s row IH]; intros f Hfull; [reflexivity |].
  apply Forall_cons in Hfull as [Hs Hfull].
  rewrite !imap_cons. destruct s as [t |]; [| congruence]. cbn.
  f_equal. apply (IH (f ∘ S) Hfull).
Qed.

Lemma renderRow_lookup y (row : Row) x :
  Forall (fun s => s <> None) row ->
  renderRow y row !! x = (fun s => cellDiv y x (default WALL s)) <$> row !! x.
Proof.
  intros Hfull. unfold renderRow. rewrite omap_imap_full by exact Hfull.
  apply list_lookup_imap.
Qed.

Lemma renderRow_length y (row : Row) :
  Forall (fun s => s <> None) row -> length (renderRow y row) = length row.
Proof.
  intros Hfull. unfold renderRow. rewrite omap_imap_full by exact Hfull.
  apply length_imap.
Qed.

Lemma pretty_N_go_no_dash (x : N) (s : string) :
  no_dash s -> no_dash (pretty_N_go x s).
Proof.
  revert s. induction (N.lt_wf_0 x) as [x _ IH]; intros s Hs.
  destruct (decide (x = 0)%N) as [-> | Hx]; [rewrite pretty_N_go_0; exact Hs |].
  rewrite pretty_N_go_step by lia. apply IH.
  - apply N.div_lt; lia.
  - split; [| exact Hs]. unfold pretty_N_char.
    repeat case_match; discriminate.
Qed.

Lemma pretty_nat_no_dash (x : nat) : no_dash (pretty x).
Proof.
  unfold pretty, pretty_nat, pretty, pretty_N.
  destruct (decide (N.of_nat x = 0)%N); [cbn; split; [discriminate | exact I] |].
  apply pretty_N_go_no_dash. exact I.
Qed.

Lemma split_at_dash (s1 s2 t1 t2 : string) :
  no_dash s1 -> no_dash s2 ->
  s1 +:+ String "-" t1 = s2 +:+ String "-" t2 -> s1 = s2 /\ t1 = t2.
Proof.
  revert s2. induction s1 as [| c s1 IH]; intros [| c2 s2] H1 H2;
    unfold String.append; fold String.append.
  - intros [= ->]. auto.
  - intros [= <- _]. destruct H2 as [H2 _]. congruence.
  - intros [= -> _]. destruct H1 as [H1 _]. congruence.
  - intros [= -> E]. destruct H1 as [_ H1], H2 as [_ H2].
    destruct (IH s2 H1 H2 E) as [-> ->]. auto.
Qed.

Lemma cellDiv_key_inj y1 x1 t1 y2 x2 t2 :
  key (cellDiv y1 x1 t1) = key (cellDiv y2 x2 t2) -> x1 = x2 /\ y1 = y2.
Proof.
  unfold cellDiv, key. intros H.
  change ("-" +:+ pretty y1) with (String "-" (pretty y1)) in H.
  change ("-" +:+ pretty y2) with (String "-" (pretty y2)) in H.
  apply split_at_dash in H as [Hx Hy]; try apply pretty_nat_no_dash.
  split; eapply (inj pretty); eassumption.
Qed.

Lemma grid_ok_rendered_rows (g : Grid) :
  grid_ok g ->
  Forall (fun l => length l = Z.to_nat WIDTH) (imap renderRow g).
Proof.
  intros [_ Hrows]. apply Forall_lookup. intros y l Hl.
  apply list_lookup_imap_Some in Hl as (row & Hrow & ->).
  destruct (proj1 (Forall_lookup _ _) Hrows _ _ Hrow) as [Hw Hfull].
  rewrite renderRow_length by exact Hfull. exact Hw.
Qed.

Lemma renderCells_lookup (g : Grid) (x y : nat) :
  grid_ok g -> (x < Z.to_nat WIDTH)%nat -> (y < Z.to_nat HEIGHT)%nat ->
  exists t, cell g (Z.of_nat x) (Z.of_nat y) = Some t /\
            renderCells g !! (y * Z.to_nat WIDTH + x)%nat = Some (cellDiv y x t).
Proof.
  intros Hg Hx Hy.
  destruct (grid_ok_cell g (Z.of_nat x) (Z.of_nat y) Hg) as [t Ht].
  { apply inBounds_spec. lia. }
  exists t. split; [exact Ht |].
  unfold renderCells.
  apply (join_lookup_Some_same_length' (Z.to_nat WIDTH));
    [apply grid_ok_rendered_rows, Hg | exact Hx |].
  unfold cell, slot in Ht.
  destruct (get g (Z.of_nat y)) as [row |] eqn:Ey; [| discriminate].
  destruct (get row (Z.of_nat x)) as [s |] eqn:Ex; [| discriminate]. subst s.
  apply get_Some in Ey as [_ Ey]. apply get_Some in Ex as [_ Ex].
  rewrite Nat2Z.id in Ey, Ex.
  exists (renderRow y row). split.
  - rewrite list_lookup_imap, Ey. reflexivity.
  - destruct Hg as [_ Hrows].
    destruct (proj1 (Forall_lookup _ _) Hrows _ _ Ey) as [_ Hfull].
    rewrite renderRow_lookup by exact Hfull. rewrite Ex. reflexivity.
Qed.

Lemma renderCells_length (g : Grid) :
  grid_ok g -> length (renderCells g) = (Z.to_nat HEIGHT * Z.to_nat WIDTH)%nat.
Proof.
  intros Hg. unfold renderCells. rewrite length_join.
  rewrite (sum_list_fmap_same (Z.to_nat WIDTH))
    by (apply grid_ok_rendered_rows, Hg).
  rewrite length_imap. destruct Hg as [-> _]. reflexivity.
Qed.

(** X18. For a grid of [WIDTH] by [HEIGHT] cells [App] renders one [div]
    per cell, row after row: [WIDTH * HEIGHT] of them, the one at
    position [y * WIDTH + x] being the cell of column [x] and row [y],
    with key [x-y], 8 pixels wide and high, white when the cell is
    FLOOR and black when it is WALL. *)
Theorem renderCells_grid (g : Grid) :
  grid_ok g ->
  length (renderCells g) = Z.to_nat (WIDTH * HEIGHT) /\
  forall x y : nat, (x < Z.to_nat WIDTH)%nat -> (y < Z.to_nat HEIGHT)%nat ->
    renderCells g !! (y * Z.to_nat WIDTH + x)%nat
    = Some (mkCellDiv (pretty x +:+ "-" +:+ pretty y) 8 8
              (match cell g (Z.of_nat x) (Z.of_nat y) with
               | Some FLOOR => "#fff"
               | _ => "#000"
               end)).
Proof.
  intros Hg. split; [rewrite renderCells_length by exact Hg; reflexivity |].
  intros x y Hx Hy.
  destruct (renderCells_lookup g x y Hg Hx Hy) as (t & Ht & E).
  rewrite E, Ht. unfold cellDiv. destruct t; reflexivity.
Qed.

Lemma renderCells_grid_witness :
  length (renderCells grid0) = Z.to_nat (WIDTH * HEIGHT) /\
  forall x y : nat, (x < Z.to_nat WIDTH)%nat -> (y < Z.to_nat HEIGHT)%nat ->
    renderCells grid0 !! (y * Z.to_nat WIDTH + x)%nat
    = Some (mkCellDiv (pretty x +:+ "-" +:+ pretty y) 8 8
              (match cell grid0 (Z.of_nat x) (Z.of_nat y) with
               | Some FLOOR => "#fff"
               | _ => "#000"
               end)).
Proof. exact (renderCells_grid grid0 grid0_ok). Defined.

(** X19. For a grid of [WIDTH] by [HEIGHT] cells the keys of the
    rendered [div]s are pairwise distinct. *)
Theorem renderCells_keys (g : Grid) :
  grid_ok g -> NoDup (key <$> renderCells g).
Proof.
  intros Hg. apply NoDup_alt. intros i j k Hi Hj.
  assert (Hdecomp : forall i, (key <$> renderCells g) !! i = Some k ->
            exists x y t, i = (y * Z.to_nat WIDTH + x)%nat /\
                          k = key (cellDiv y x t)).
  { intros i' Hi'. apply list_lookup_fmap_Some in Hi' as (d & -> & Hd).
    pose proof (lookup_lt_Some _ _ _ Hd) as Hlt.
    rewrite renderCells_length in Hlt by exact Hg.
    set (W := Z.to_nat WIDTH) in *.
    assert (HW : (0 < W)%nat) by (unfold W, WIDTH; lia).
    pose proof (Nat.div_mod_eq i' W) as Hdm.
    pose proof (Nat.mod_upper_bound i' W ltac:(lia)) as Hm.
    assert (Hq : (i' / W < Z.to_nat HEIGHT)%nat)
      by (apply Nat.Div0.div_lt_upper_bound; lia).
    destruct (renderCells_lookup g (i' mod W) (i' / W) Hg Hm Hq) as (t & _ & E).
    fold W in E. replace (i' / W * W + i' mod W)%nat with i' in E by lia.
    exists (i' mod W)%nat, (i' / W)%nat, t. split; [lia | congruence]. }
  destruct (Hdecomp i Hi) as (x1 & y1 & t1 & -> & Hk1).
  destruct (Hdecomp j Hj) as (x2 & y2 & t2 & -> & Hk2).
  rewrite Hk1 in Hk2. apply cellDiv_key_inj in Hk2 as [-> ->]. reflexivity.
Qed.

Lemma renderCells_keys_witness : NoDup (key <$> renderCells grid0).
Proof. exact (renderCells_keys grid0 grid0_ok). Defined.

(** A hole of a row is not rendered. *)
Example renderRow_hole :
  renderRow 3 [Some WALL; None; Some FLOOR]
  = [mkCellDiv "0-3" 8 8 "#000"; mkCellDiv "2-3" 8 8 "#fff"].
Proof. reflexivity. Qed.

(** ** The attempts of [placeRooms] *)

Lemma placeRooms_body_attempts rnd st st' :
  placeRooms_body rnd st = Ok st' -> pl_attempts st' = pl_attempts st + 1.
Proof.
  unfold placeRooms_body. cbv zeta. destruct (existsb _ (pl_rooms st)).
  - intros [= <-]. reflexivity.
  - intros H. apply bind_Ok in H as (g & _ & [= <-]). reflexivity.
Qed.

Lemma attempts_inv_step rnd p0 st st' ks :
  attempts_inv rnd p0 st ks -> placeRooms_body rnd st = Ok st' ->
  exists ks', attempts_inv rnd p0 st' ks'.
Proof.
  intros (Hrooms & Hsorted & Hlt & Hrej & Hat & Hpos) Hbody.
  pose proof (placeRooms_body_attempts _ _ _ Hbody) as Hat'.
  pose proof (placeRooms_body_pos _ _ _ Hbody) as Hpos'.
  set (t := Z.to_nat (pl_attempts st)) in *.
  assert (Hcand : candidate rnd (pl_pos st) = candidate rnd (p0 + 4 * t))
    by (rewrite Hpos; reflexivity).
  destruct (placeRooms_body_rooms _ _ _ Hbody) as [[Hsame Hex] | [Hnew Hex]].
  - exists ks. repeat split.
    + rewrite Hsame. exact Hrooms.
    + exact Hsorted.
    + intros k Hk. specialize (Hlt k Hk). lia.
    + intros k Hk Hout. destruct (decide (k = t)) as [-> | Hne].
      * apply existsb_exists in Hex as (r & Hr & Hov).
        rewrite Hrooms in Hr. apply in_map_iff in Hr as (j & <- & Hj).
        apply list_elem_of_In in Hj. exists j. split; [exact Hj |].
        split; [specialize (Hlt j Hj); lia |]. rewrite <- Hcand. exact Hov.
      * apply Hrej; [lia | exact Hout].
    + lia.
    + rewrite Hpos', Hpos, Hat'. lia.
  - exists (ks ++ [t]). repeat split.
    + rewrite Hnew, Hrooms, map_app, Hcand. reflexivity.
    + intros i j a b Hij Ha Hb.
      apply lookup_snoc_Some in Hb as [[Hj Hb] | [Hj <-]].
      * apply lookup_snoc_Some in Ha as [[Hi Ha] | [Hi <-]]; [| lia].
        exact (Hsorted i j a b Hij Ha Hb).
      * apply lookup_snoc_Some in Ha as [[Hi Ha] | [Hi <-]]; [| lia].
        specialize (Hlt a (list_elem_of_lookup_2 _ _ _ Ha)). lia.
    + intros k Hk. apply elem_of_app in Hk as [Hk | Hk].
      * specialize (Hlt k Hk). lia.
      * apply list_elem_of_singleton in Hk. lia.
    + intros k Hk Hout.
      assert (k <> t).
      { intros ->. apply Hout, elem_of_app. right.
        apply list_elem_of_singleton. reflexivity. }
      destruct (Hrej k) as (j & Hj & Hjk & Hov); [lia | |].
      { intros Hin. apply Hout, elem_of_app. left. exact Hin. }
      exists j. split; [apply elem_of_app; left; exact Hj | auto].
    + lia.
    + rewrite Hpos', Hpos, Hat'. lia.
Qed.

Lemma attempts_inv_loop rnd p0 roomCount fuel st st' ks :
  attempts_inv rnd p0 st ks ->
  placeRooms_loop fuel rnd roomCount st = Ok st' ->
  exists ks', attempts_inv rnd p0 st' ks'.
Proof.
  revert st ks. induction fuel as [| fuel IH]; intros st ks Hinv; cbn;
    destruct (placeRooms_cond roomCount st); try discriminate;
    try (intros [= <-]; eauto; fail).
  intros H. apply bind_Ok in H as (st1 & H1 & H2).
  destruct (attempts_inv_step _ _ _ _ _ Hinv H1) as (ks1 & Hinv1).
  eapply IH; eassumption.
Qed.

Lemma attempts_inv_start rnd p0 (g : Grid) :
  attempts_inv rnd p0 (mkPlace g [] 0 p0) [].
Proof.
  repeat split; cbn; try lia.
  - intros i j a b _ Ha. rewrite lookup_nil in Ha. discriminate.
  - intros k Hk. apply elem_of_nil in Hk. contradiction.
Qed.

(** X20. Every attempt of [placeRooms] builds its candidate from its own
    four draws alone, attempt number [k] from those at position
    [p + 4 k], by one function of four draws that gives a room within
    the margins for draws in [0, 1). The rooms returned are the
    candidates of the accepted attempts, in the order of the attempts;
    a candidate is rejected only when it overlaps a room accepted at an
    earlier attempt, so the first attempt is never rejected. *)
Theorem placeRooms_rejection :
  exists build : Q -> Q -> Q -> Q -> Room.t,
    (forall d1 d2 d3 d4 : Q,
       (0 <= d1)%Q /\ (d1 < 1)%Q -> (0 <= d2)%Q /\ (d2 < 1)%Q ->
       (0 <= d3)%Q /\ (d3 < 1)%Q -> (0 <= d4)%Q /\ (d4 < 1)%Q ->
       room_ok (build d1 d2 d3 d4)) /\
    forall (rnd : nat -> Q) (p : nat) (g : Grid) (roomCount : Z)
           (rooms : list Room.t) (g' : Grid) (p' : nat),
      placeRooms rnd p g roomCount = Ok (rooms, g', p') ->
      exists (attempts : nat) (ks : list nat),
        let built k :=
          build (rnd (p + 4 * k)%nat) (rnd (p + 4 * k + 1)%nat)
            (rnd (p + 4 * k + 2)%nat) (rnd (p + 4 * k + 3)%nat) in
        p' = (p + 4 * attempts)%nat /\
        rooms = map built ks /\
        increasing ks /\
        (forall k, k ∈ ks -> (k < attempts)%nat) /\
        (forall k, (k < attempts)%nat -> k ∉ ks ->
           exists j, j ∈ ks /\ (j < k)%nat /\
             roomsOverlap (built j) (built k) = true).
Proof.
  exists (fun d1 d2 d3 d4 =>
            let w := randInt d1 ROOM_W_MIN ROOM_W_MAX in
            let h := randInt d2 ROOM_H_MIN ROOM_H_MAX in
            Room.mk (randInt d3 2 (WIDTH - w - 3)) (randInt d4 2 (HEIGHT - h - 3))
              w h).
  split.
  { intros d1 d2 d3 d4 H1 H2 H3 H4.
    apply (candidate_room_ok (fun n => nth n [d1; d2; d3; d4] 0%Q) 0).
    intros [| [| [| [| [| n]]]]]; cbn [nth]; try assumption;
      (split; [apply Qle_refl | reflexivity]). }
  intros rnd p g roomCount rooms g' p'.
  unfold placeRooms, placeRooms_from. intros H.
  apply bind_Ok in H as (st & H & [= <- _ <-]).
  destruct (attempts_inv_loop rnd p roomCount _ _ st []
              (attempts_inv_start rnd p g) H)
    as (ks & Hrooms & Hinc & Hlt & Hrej & Hat & Hpos).
  exists (Z.to_nat (pl_attempts st)), ks. cbv zeta.
  split; [exact Hpos |]. split; [exact Hrooms |]. split; [exact Hinc |]. split.
  - intros k Hk. specialize (Hlt k Hk). lia.
  - intros k Hk Hout. apply Hrej; [lia | exact Hout].
Qed.
